(** * BreakpointDisplayController

    A shallow embedding of
    [pkg/nuclide-debugger/lib/BreakpointDisplayController.js]: the
    per-editor controller that mirrors the breakpoints of one file as
    gutter markers, and turns gutter clicks and marker movements into
    breakpoint actions.

    The controller is a JavaScript object whose methods mutate its own
    fields and call into Atom (editor, markers, gutter), the breakpoint
    store and the debugger actions.  It is embedded as a state-and-error
    monad over a [World]: the controller's fields, the marker objects of
    the editor (a heap indexed by marker identity), the state of the
    gutter, and the trace of the calls made on the collaborators.  The one
    source of exceptions is [invariant] (Node's [assert]).

    What the embedding takes from the environment:
    - the editor has a buffer, given by the lengths of its lines; Atom
      keeps every marker inside it: [markBufferPosition] clips the
      requested position to the buffer, so a row past the last row gives a
      marker at the end of the last row, and a position is read clipped to
      the buffer as it is then;
    - a buffer edit moves the markers and then reports each change to the
      [onDidChange] subscribers of the marker;
    - the breakpoint store is read through its two accessors, which return
      fresh values: the set [_update] mutates is its own;
    - [bufferPositionForMouseEvent] is a parameter;
    - the four subscriptions of the constructor are calls of the trace;
      the event loop ([run]) stands for the emitters that call the
      handlers back. *)

From stdpp Require Import base option list gmap sets strings.
From Stdlib Require Import ZArith Lia.

#[local] Set Warnings "-clear-no-such-hyp".

Local Open Scope string_scope.
Local Open Scope list_scope.

(** ** The collaborators' data *)

(** [atom$Point]: a buffer position. *)
Record Point := { row : nat; column : nat }.

(** The [invalidate] option of Atom's [markBufferPosition], in Atom's order
    of fragility. *)
Inductive InvalidationStrategy :=
| never | surround | overlap | inside | touch.

(** Atom's contract for the [invalidate] option: a marker created with
    ['never'] is never marked invalid by a buffer change; every other
    strategy marks it invalid at least when a change completely surrounds
    (deletes the text spanning) the marker. *)
Definition invalidatedWhenSpanningTextDeleted (s : InvalidationStrategy) : bool :=
  match s with
  | never => false
  | surround | overlap | inside | touch => true
  end.

(** A marker reference is the identity of a marker object: its index in
    the editor's table of marker objects. *)
Abbreviation Marker := nat (only parsing).

(** The state of one [atom$Marker] object.  [decoration] is the class name
    of the element attached by [gutter.decorateMarker], if any. *)
Record MarkerObj := {
  startBufferPosition : Point;
  invalidate : InvalidationStrategy;
  isDestroyed : bool;
  decoration : option string
}.

(** [atom$Gutter] as created by the constructor. *)
Record Gutter := { name : string; priority : Z }.

(** The part of [atom$TextEditor] the controller reads directly, and the
    shape of its buffer: the length of each line.  A buffer always has a
    line: the empty list stands for one empty line. *)
Record TextEditor := { getPath : option string; lineLengths : list nat }.

(** [editor.getLastBufferRow()] *)
Definition getLastBufferRow (editor : TextEditor) : nat :=
  length (lineLengths editor) - 1.

Definition lineLengthForRow (editor : TextEditor) (r : nat) : nat :=
  default 0 (lineLengths editor !! r).

(** [editor.clipBufferPosition(p)]: a row past the last row gives the end
    of the buffer, a column past the end of its line the end of the line. *)
Definition clipBufferPosition (editor : TextEditor) (p : Point) : Point :=
  if decide (getLastBufferRow editor < row p)
  then {| row := getLastBufferRow editor;
          column := lineLengthForRow editor (getLastBufferRow editor) |}
  else {| row := row p;
          column := column p `min` lineLengthForRow editor (row p) |}.

(** A DOM mouse event: the class list of its target and the pointer
    coordinates. *)
Record MouseEvent := {
  target_classList : list string;
  clientX : Z;
  clientY : Z
}.

(** The event object passed to a marker's [onDidChange] callback. *)
Record MarkerChangeEvent := {
  isValid : bool;
  oldHeadBufferPosition : Point;
  newHeadBufferPosition : Point
}.

(** [DebuggerActions]: the three requests the controller dispatches. *)
Inductive Action :=
| addBreakpoint (path : string) (line : nat)
| deleteBreakpoint (path : string) (line : nat)
| toggleBreakpoint (path : string) (line : nat).

(** [BreakpointStore], as the controller uses it.  [getBreakpointsForPath]
    is a JavaScript [Map] from line to breakpoint, iterated in insertion
    order: an association list.  [getBreakpointLinesForPath] is a [Set] of
    lines that the caller owns and may mutate. *)
Record BreakpointStore (V : Type) := {
  getBreakpointsForPath : string → list (nat * V);
  getBreakpointLinesForPath : string → gset nat
}.
Arguments getBreakpointsForPath {V} _ _.
Arguments getBreakpointLinesForPath {V} _ _.

(** The calls the controller makes on its collaborators, in order. *)
Inductive Effect :=
| markBufferPosition_call (m : Marker) (p : Point) (s : InvalidationStrategy)
| marker_destroy_call (m : Marker)
| decorateMarker_call (m : Marker) (className : string)
| onDidChange_call (m : Marker)
| addGutter_call (g : Gutter)
| gutter_onDidDestroy_call      (* gutter.onDidDestroy(_handleGutterDestroyed) *)
| observeGutters_call           (* editor.observeGutters(_registerGutterMouseHandlers) *)
| onNeedUIUpdate_call           (* store.onNeedUIUpdate(_handleBreakpointsChanged) *)
| editor_onDidDestroy_call      (* editor.onDidDestroy(_handleTextEditorDestroyed) *)
| disposables_add_call          (* _disposables.add of the four, in the constructor *)
| gutter_show_call
| gutter_destroy_call
| disposables_dispose_call
| dispatched (a : Action)
| handleTextEditorDestroyed_call.

(** ** The world: controller fields and collaborator state *)

Record World := {
  _editor : TextEditor;
  _gutter : option Gutter;
  _markers : list Marker;
  _lastShadowBreakpointMarker : option Marker;
  (* the editor's marker objects, by identity *)
  heap : list MarkerObj;
  (* the gutter object created by the constructor *)
  gutterVisible : bool;
  gutterDestroyed : bool;
  trace : list Effect
}.

Definition set_editor (e : TextEditor) (w : World) : World :=
  {| _editor := e; _gutter := _gutter w; _markers := _markers w;
     _lastShadowBreakpointMarker := _lastShadowBreakpointMarker w;
     heap := heap w; gutterVisible := gutterVisible w;
     gutterDestroyed := gutterDestroyed w; trace := trace w |}.

Definition set_gutter (g : option Gutter) (w : World) : World :=
  {| _editor := _editor w; _gutter := g; _markers := _markers w;
     _lastShadowBreakpointMarker := _lastShadowBreakpointMarker w;
     heap := heap w; gutterVisible := gutterVisible w;
     gutterDestroyed := gutterDestroyed w; trace := trace w |}.

Definition set_markers (ms : list Marker) (w : World) : World :=
  {| _editor := _editor w; _gutter := _gutter w; _markers := ms;
     _lastShadowBreakpointMarker := _lastShadowBreakpointMarker w;
     heap := heap w; gutterVisible := gutterVisible w;
     gutterDestroyed := gutterDestroyed w; trace := trace w |}.

Definition set_lastShadowBreakpointMarker (m : option Marker) (w : World) : World :=
  {| _editor := _editor w; _gutter := _gutter w; _markers := _markers w;
     _lastShadowBreakpointMarker := m;
     heap := heap w; gutterVisible := gutterVisible w;
     gutterDestroyed := gutterDestroyed w; trace := trace w |}.

Definition set_heap (h : list MarkerObj) (w : World) : World :=
  {| _editor := _editor w; _gutter := _gutter w; _markers := _markers w;
     _lastShadowBreakpointMarker := _lastShadowBreakpointMarker w;
     heap := h; gutterVisible := gutterVisible w;
     gutterDestroyed := gutterDestroyed w; trace := trace w |}.

Definition set_gutterVisible (b : bool) (w : World) : World :=
  {| _editor := _editor w; _gutter := _gutter w; _markers := _markers w;
     _lastShadowBreakpointMarker := _lastShadowBreakpointMarker w;
     heap := heap w; gutterVisible := b;
     gutterDestroyed := gutterDestroyed w; trace := trace w |}.

Definition set_gutterDestroyed (b : bool) (w : World) : World :=
  {| _editor := _editor w; _gutter := _gutter w; _markers := _markers w;
     _lastShadowBreakpointMarker := _lastShadowBreakpointMarker w;
     heap := heap w; gutterVisible := gutterVisible w;
     gutterDestroyed := b; trace := trace w |}.

Definition log (e : Effect) (w : World) : World :=
  {| _editor := _editor w; _gutter := _gutter w; _markers := _markers w;
     _lastShadowBreakpointMarker := _lastShadowBreakpointMarker w;
     heap := heap w; gutterVisible := gutterVisible w;
     gutterDestroyed := gutterDestroyed w; trace := trace w ++ [e] |}.

(** ** The monad: state, and the exception of [invariant] *)

Inductive Result (A : Type) :=
| Returned (a : A) (w : World)
| Threw (w : World).
Arguments Returned {A} _ _.
Arguments Threw {A} _.

Definition M (A : Type) : Type := World → Result A.

Definition ret {A} (a : A) : M A := λ w, Returned a w.

Definition bind {A B} (c : M A) (k : A → M B) : M B :=
  λ w, match c w with
       | Returned a w' => k a w'
       | Threw w' => Threw w'
       end.

Notation "'do' x <- c ; k" := (bind c (λ x, k))
  (at level 10, x name, c at level 100, k at level 200).
Notation "c ;; k" := (bind c (λ _, k))
  (at level 100, k at level 200, right associativity).

Definition get {A} (f : World → A) : M A := λ w, Returned (f w) w.
Definition modify (f : World → World) : M unit := λ w, Returned tt (f w).

(** [invariant(cond)]: Node's [assert], throws when [cond] is false. *)
Definition invariant (cond : bool) : M unit :=
  λ w, if cond then Returned tt w else Threw w.

(** The world a call leaves behind, whether it returned or threw: the
    event loop goes on from there. *)
Definition world_of {A} (r : Result A) : World :=
  match r with Returned _ w => w | Threw w => w end.

(** ** Atom's primitives *)

(** [editor.markBufferPosition(p, {invalidate: s})]: a new marker object,
    at the end of the table.  The marker is put at [p] clipped to the
    buffer; the call is logged with the position it was given. *)
Definition newMarkerObj (p : Point) (s : InvalidationStrategy) : MarkerObj :=
  {| startBufferPosition := p; invalidate := s;
     isDestroyed := false; decoration := None |}.

Definition marked (p : Point) (s : InvalidationStrategy) (w : World) : World :=
  log (markBufferPosition_call (length (heap w)) p s)
    (set_heap (heap w ++ [newMarkerObj (clipBufferPosition (_editor w) p) s]) w).

Definition markBufferPosition (p : Point) (s : InvalidationStrategy) : M Marker :=
  λ w, Returned (length (heap w)) (marked p s w).

(** [marker.getStartBufferPosition()]: a position of the buffer as it is
    now. *)
Definition getStartBufferPosition (m : Marker) (w : World) : Point :=
  clipBufferPosition (_editor w)
    (from_option startBufferPosition {| row := 0; column := 0 |} (heap w !! m)).

Definition destroyObj (o : MarkerObj) : MarkerObj :=
  {| startBufferPosition := startBufferPosition o; invalidate := invalidate o;
     isDestroyed := true; decoration := decoration o |}.

(** [marker.destroy()] *)
Definition destroyed (m : Marker) (w : World) : World :=
  log (marker_destroy_call m) (set_heap (alter destroyObj m (heap w)) w).

Definition marker_destroy (m : Marker) : M unit := modify (destroyed m).

Definition decorateObj (className : string) (o : MarkerObj) : MarkerObj :=
  {| startBufferPosition := startBufferPosition o; invalidate := invalidate o;
     isDestroyed := isDestroyed o; decoration := Some className |}.

(** [gutter.decorateMarker(marker, {item: elem})], [elem.className = className] *)
Definition decorated (m : Marker) (className : string) (w : World) : World :=
  log (decorateMarker_call m className)
    (set_heap (alter (decorateObj className) m (heap w)) w).

Definition decorateMarker (m : Marker) (className : string) : M unit :=
  modify (decorated m className).

(** [marker.onDidChange(this._handleMarkerChange.bind(this))] *)
Definition onDidChange (m : Marker) : M unit :=
  modify (log (onDidChange_call m)).

(** [gutter.show()] *)
Definition gutter_show : M unit :=
  modify (λ w, log gutter_show_call (set_gutterVisible true w)).

(** [gutter.destroy()] *)
Definition gutter_destroy : M unit :=
  modify (λ w, log gutter_destroy_call (set_gutterDestroyed true w)).

(** A call on [this._debuggerActions]. *)
Definition dispatch (a : Action) : M unit :=
  modify (log (dispatched a)).

(** JavaScript truthiness of [path]: [!path] holds for [null]/[undefined]
    and for the empty string. *)
Definition truthy_path (path : option string) : option string :=
  match path with
  | Some "" => None
  | Some p => Some p
  | None => None
  end.

(** ** The controller's methods *)

Definition breakpointIconClass (isShadow : bool) : string :=
  if isShadow then "nuclide-debugger-shadow-breakpoint-icon"
  else "nuclide-debugger-breakpoint-icon".

Definition _createBreakpointMarkerAtLine (line : nat) (isShadow : bool) : M Marker :=
  do marker <- markBufferPosition {| row := line; column := 0 |} never;
  let className := breakpointIconClass isShadow in
  do gutter <- get _gutter;
  invariant (bool_decide (gutter ≠ None)) ;;
  decorateMarker marker className ;;
  ret marker.

(** The [forEach] over [this._markers] of [_update]: the loop state is
    [markersToKeep] and the mutable set [unhandledLines]. *)
Fixpoint destroyStaleMarkers (ms : list Marker)
    (markersToKeep : list Marker) (unhandledLines : gset nat)
  : M (list Marker * gset nat) :=
  match ms with
  | [] => ret (markersToKeep, unhandledLines)
  | marker :: rest =>
      do pos <- get (getStartBufferPosition marker);
      let line := row pos in
      if decide (line ∈ unhandledLines) then
        destroyStaleMarkers rest (markersToKeep ++ [marker]) (unhandledLines ∖ {[line]})
      else
        marker_destroy marker ;;
        destroyStaleMarkers rest markersToKeep unhandledLines
  end.

(** The [for (const [line] of breakpoints)] loop of [_update]. *)
Fixpoint createMissingMarkers {V} (breakpoints : list (nat * V))
    (unhandledLines : gset nat) (markersToKeep : list Marker)
  : M (list Marker) :=
  match breakpoints with
  | [] => ret markersToKeep
  | (line, _) :: rest =>
      if decide (line ∈ unhandledLines) then
        do marker <- _createBreakpointMarkerAtLine line false;
        onDidChange marker ;;
        createMissingMarkers rest unhandledLines (markersToKeep ++ [marker])
      else
        createMissingMarkers rest unhandledLines markersToKeep
  end.

Definition _update {V} (store : BreakpointStore V) : M unit :=
  do gutter <- get _gutter;
  match gutter with
  | None => ret tt
  | Some _ =>
      do path <- get (λ w, getPath (_editor w));
      match path with
      | None => ret tt
      | Some path =>
          let breakpoints := getBreakpointsForPath store path in
          let unhandledLines := getBreakpointLinesForPath store path in
          do markers <- get _markers;
          do st <- destroyStaleMarkers markers [] unhandledLines;
          do markersToKeep <- createMissingMarkers breakpoints st.2 st.1;
          gutter_show ;;
          modify (set_markers markersToKeep)
      end
  end.

Definition _handleMarkerChange (event : MarkerChangeEvent) : M unit :=
  do path <- get (λ w, getPath (_editor w));
  match truthy_path path with
  | None => ret tt
  | Some path =>
      if negb (isValid event) then
        dispatch (deleteBreakpoint path (row (newHeadBufferPosition event)))
      else if decide (row (oldHeadBufferPosition event) ≠ row (newHeadBufferPosition event)) then
        dispatch (deleteBreakpoint path (row (oldHeadBufferPosition event))) ;;
        dispatch (addBreakpoint path (row (newHeadBufferPosition event)))
      else ret tt
  end.

Definition _handleBreakpointsChanged {V} (store : BreakpointStore V) (path : string) : M unit :=
  do editorPath <- get (λ w, getPath (_editor w));
  if decide (Some path = editorPath) then _update store else ret tt.

Definition _handleTextEditorDestroyed : M unit :=
  modify (set_gutter None) ;;
  modify (log handleTextEditorDestroyed_call).

Definition _handleGutterDestroyed : M unit :=
  modify (set_gutter None).

Fixpoint destroyAll (ms : list Marker) : M unit :=
  match ms with
  | [] => ret tt
  | marker :: rest => marker_destroy marker ;; destroyAll rest
  end.

Definition dispose : M unit :=
  modify (log disposables_dispose_call) ;;
  do markers <- get _markers;
  destroyAll markers ;;
  do gutter <- get _gutter;
  match gutter with
  | Some _ => gutter_destroy
  | None => ret tt
  end.

Definition _isLineOverLastShadowBreakpoint (curLine : nat) : M bool :=
  do shadowBreakpointMarker <- get _lastShadowBreakpointMarker;
  match shadowBreakpointMarker with
  | None => ret false
  | Some m =>
      do pos <- get (getStartBufferPosition m);
      ret (bool_decide (row pos = curLine))
  end.

Definition _removeLastShadowBreakpoint : M unit :=
  do last <- get _lastShadowBreakpointMarker;
  match last with
  | Some m =>
      marker_destroy m ;;
      modify (set_lastShadowBreakpointMarker None)
  | None => ret tt
  end.

Definition _createShadowBreakpointAtLine (editor : TextEditor) (line : nat) : M unit :=
  do marker <- _createBreakpointMarkerAtLine line true;
  modify (set_lastShadowBreakpointMarker (Some marker)).

Definition _handleGutterMouseLeave (event : MouseEvent) : M unit :=
  _removeLastShadowBreakpoint.

Section MouseToPosition.

(** [bufferPositionForMouseEvent] of [commons-atom/mouse-to-position]:
    the editor's mapping from pointer coordinates to a buffer position. *)
Variable bufferPositionForMouseEvent : MouseEvent → TextEditor → Point.

Definition _getCurrentMouseEventLine (event : MouseEvent) : M nat :=
  do editor <- get _editor;
  let bufferPos := bufferPositionForMouseEvent event editor in
  ret (row bufferPos).

Definition _handleGutterClick (event : MouseEvent) : M unit :=
  if decide ("icon-right" ∈ target_classList event) then ret tt
  else
    do path <- get (λ w, getPath (_editor w));
    match truthy_path path with
    | None => ret tt
    | Some path =>
        do line <- _getCurrentMouseEventLine event;
        dispatch (toggleBreakpoint path line)
    end.

Definition _handleGutterMouseMove (event : MouseEvent) : M unit :=
  do curLine <- _getCurrentMouseEventLine event;
  do over <- _isLineOverLastShadowBreakpoint curLine;
  if over then ret tt
  else
    _removeLastShadowBreakpoint ;;
    do editor <- get _editor;
    _createShadowBreakpointAtLine editor curLine.

End MouseToPosition.

(** The constructor: [editor] has the marker objects [heap0] of other
    packages; the gutter is added hidden, the four subscriptions are made
    and handed to [_disposables], and the display is updated.
    [editor.observeGutters] calls [_registerGutterMouseHandlers] for each
    gutter of the editor: what that does to the listeners is modelled on
    its own, under the mouse listeners of the gutters. *)
Definition nuclide_breakpoint_gutter : Gutter :=
  {| name := "nuclide-breakpoint"; priority := -1100 |}.

Definition constructed (editor : TextEditor) (heap0 : list MarkerObj) : World :=
  {| _editor := editor; _gutter := Some nuclide_breakpoint_gutter;
     _markers := []; _lastShadowBreakpointMarker := None;
     heap := heap0; gutterVisible := false; gutterDestroyed := false;
     trace := [addGutter_call nuclide_breakpoint_gutter;
               gutter_onDidDestroy_call; observeGutters_call;
               onNeedUIUpdate_call; editor_onDidDestroy_call;
               disposables_add_call] |}.

Definition constructor {V} (store : BreakpointStore V) (editor : TextEditor)
    (heap0 : list MarkerObj) : Result unit :=
  _update store (constructed editor heap0).

(** ** Example worlds *)

Definition point (r : nat) : Point := {| row := r; column := 0 |}.

(** ** Pointer events and the shadow marker *)

Definition shadowClass : string := breakpointIconClass true.

(** A shadow marker that exists: a marker object that carries the shadow
    decoration and has not been destroyed. *)
Definition liveShadowMarker (w : World) (m : Marker) : Prop :=
  ∃ o, heap w !! m = Some o ∧ isDestroyed o = false
       ∧ decoration o = Some shadowClass.

(** Every shadow marker that exists is the one the controller holds. *)
Definition shadow_inv (w : World) : Prop :=
  ∀ m, liveShadowMarker w m → _lastShadowBreakpointMarker w = Some m.

Inductive PointerEvent :=
| mousemove (event : MouseEvent)
| mouseleave (event : MouseEvent).

Definition isCreation (e : Effect) : bool :=
  match e with markBufferPosition_call _ _ _ => true | _ => false end.

Definition isDestruction (e : Effect) : bool :=
  match e with marker_destroy_call _ => true | _ => false end.

(** The numbers of marker creations and of marker destructions in a trace. *)
Definition creations (t : list Effect) : nat := length (List.filter isCreation t).
Definition destructions (t : list Effect) : nat := length (List.filter isDestruction t).

(** The world [_removeLastShadowBreakpoint] leaves. *)
Definition unshadowed (w : World) : World :=
  match _lastShadowBreakpointMarker w with
  | Some m => set_lastShadowBreakpointMarker None (destroyed m w)
  | None => w
  end.

(** The world a successful [_createShadowBreakpointAtLine] leaves. *)
Definition hovering (line : nat) (w : World) : World :=
  set_lastShadowBreakpointMarker (Some (length (heap w)))
    (decorated (length (heap w)) shadowClass (marked (point line) never w)).

(** Each row differs from the row hovered before it, starting from the
    row [prev] hovered now; [rowAt r] is the row of the shadow marker
    created for [r]. *)
Fixpoint rowChanges (rowAt : nat → nat) (prev : nat) (rows : list nat) : Prop :=
  match rows with
  | [] => True
  | r :: rest => prev ≠ r ∧ rowChanges rowAt (rowAt r) rest
  end.

Section PointerEvents.

Variable bufferPositionForMouseEvent : MouseEvent → TextEditor → Point.

Definition handlePointerEvent (ev : PointerEvent) : M unit :=
  match ev with
  | mousemove event => _handleGutterMouseMove bufferPositionForMouseEvent event
  | mouseleave event => _handleGutterMouseLeave event
  end.

(** The event loop delivers the events one after the other; a handler
    that throws leaves its world behind. *)
Fixpoint deliver (evs : list PointerEvent) (w : World) : World :=
  match evs with
  | [] => w
  | ev :: rest => deliver rest (world_of (handlePointerEvent ev w))
  end.

(** The row of a mouse event. *)
Definition eventRow (editor : TextEditor) (event : MouseEvent) : nat :=
  row (bufferPositionForMouseEvent event editor).

(** [_isLineOverLastShadowBreakpoint], as a function of the world. *)
Definition isOver (w : World) (line : nat) : bool :=
  match _lastShadowBreakpointMarker w with
  | Some m => bool_decide (row (getStartBufferPosition m w) = line)
  | None => false
  end.

End PointerEvents.

(** A buffer of ten lines of twelve columns. *)
Definition ten_lines : list nat := replicate 10 12.

Definition editor_P : TextEditor := {| getPath := Some "P"; lineLengths := ten_lines |}.

Definition world_P : World :=
  {| _editor := editor_P; _gutter := None; _markers := [];
     _lastShadowBreakpointMarker := None; heap := [];
     gutterVisible := false; gutterDestroyed := false; trace := [] |}.

Definition world_untitled : World :=
  {| _editor := {| getPath := None; lineLengths := ten_lines |};
     _gutter := Some nuclide_breakpoint_gutter;
     _markers := [0];
     _lastShadowBreakpointMarker := None;
     heap := [ {| startBufferPosition := point 3; invalidate := never;
                  isDestroyed := false;
                  decoration := Some "nuclide-debugger-breakpoint-icon" |} ];
     gutterVisible := true; gutterDestroyed := false; trace := [] |}.

(** A store that holds the given lines for every path. *)
Definition store_of_lines (lines : list nat) : BreakpointStore unit :=
  {| getBreakpointsForPath := λ _, (λ line, (line, tt)) <$> lines;
     getBreakpointLinesForPath := λ _, list_to_set lines |}.

(** A pointer mapping that reads the row off the vertical coordinate. *)
Definition positionByClientY (event : MouseEvent) (_ : TextEditor) : Point :=
  point (Z.to_nat (clientY event)).

Definition mouseAt (y : Z) : MouseEvent :=
  {| target_classList := []; clientX := 0; clientY := y |}.

(** The controller constructed on the editor of path [P] while the store
    holds the rows 2, 5 and 9. *)
Definition world_259 : World :=
  Eval vm_compute in world_of (constructor (store_of_lines [2; 5; 9]) editor_P []).

(** [world_259] after the pointer moved over row 3. *)
Definition world_259_hover3 : World :=
  Eval vm_compute in
    world_of (_handleGutterMouseMove positionByClientY (mouseAt 3) world_259).

(** [world_259] after the gutter was destroyed from outside. *)
Definition world_259_gutter_gone : World :=
  Eval vm_compute in world_of (_handleGutterDestroyed world_259).

(** The world after [destroy] was called on each marker of [ms], in order. *)
Definition allDestroyed (ms : list Marker) (w : World) : World :=
  foldl (λ w m, destroyed m w) w ms.

(** ** Reconciliation *)

(** The row [_update] reads off a marker. *)
Definition rowOf (w : World) (m : Marker) : nat :=
  row (getStartBufferPosition m w).

Definition committedRows (w : World) : list nat := rowOf w <$> _markers w.

(** The markers the first loop of [_update] keeps, and those it destroys,
    in order. *)
Fixpoint keptMarkers (rowOf : Marker → nat) (ms : list Marker)
    (unhandledLines : gset nat) : list Marker :=
  match ms with
  | [] => []
  | m :: rest =>
      if decide (rowOf m ∈ unhandledLines)
      then m :: keptMarkers rowOf rest (unhandledLines ∖ {[rowOf m]})
      else keptMarkers rowOf rest unhandledLines
  end.

Fixpoint staleMarkers (rowOf : Marker → nat) (ms : list Marker)
    (unhandledLines : gset nat) : list Marker :=
  match ms with
  | [] => []
  | m :: rest =>
      if decide (rowOf m ∈ unhandledLines)
      then staleMarkers rowOf rest (unhandledLines ∖ {[rowOf m]})
      else m :: staleMarkers rowOf rest unhandledLines
  end.

(** The marker object of a committed breakpoint at [p]. *)
Definition committedObj (p : Point) : MarkerObj :=
  decorateObj (breakpointIconClass false) (newMarkerObj p never).

(** Where [markBufferPosition([line, 0])] puts the marker. *)
Definition clipLine (editor : TextEditor) (line : nat) : Point :=
  clipBufferPosition editor (point line).

(** The world after the second loop of [_update] created a marker at [line]. *)
Definition committed (line : nat) (w : World) : World :=
  log (onDidChange_call (length (heap w)))
    (decorated (length (heap w)) (breakpointIconClass false)
       (marked (point line) never w)).

Definition allCommitted (lines : list nat) (w : World) : World :=
  foldl (λ w line, committed line w) w lines.

(** The calls of the second loop for the markers [m], [m+1], ... *)
Fixpoint commitCalls (m : Marker) (lines : list nat) : list Effect :=
  match lines with
  | [] => []
  | line :: rest =>
      [markBufferPosition_call m (point line) never;
       decorateMarker_call m (breakpointIconClass false);
       onDidChange_call m] ++ commitCalls (S m) rest
  end.

(** The store's two views of the breakpoints of [path] agree, and the
    keys of the [Map] are distinct. *)
Definition store_coherent {V} (store : BreakpointStore V) (path : string) : Prop :=
  NoDup ((getBreakpointsForPath store path).*1)
  ∧ ∀ line, line ∈ getBreakpointLinesForPath store path
            ↔ line ∈ (getBreakpointsForPath store path).*1.

(** The committed list holds distinct references to existing markers. *)
Definition markers_wf (w : World) : Prop :=
  NoDup (_markers w) ∧ Forall (λ m, m < length (heap w)) (_markers w).

(** The calls made since [w]. *)
Definition traceSince (w w' : World) : list Effect :=
  drop (length (trace w)) (trace w').

(** The world [gutter.show()] leaves. *)
Definition shown (w : World) : World :=
  log gutter_show_call (set_gutterVisible true w).

(** The world a pass of [_update] leaves, given the rows [lines] of the
    store and the keys [keys] of its map. *)
Definition reconciled (keys : list nat) (lines : gset nat) (w : World) : World :=
  let kept := keptMarkers (rowOf w) (_markers w) lines in
  let stale := staleMarkers (rowOf w) (_markers w) lines in
  let create :=
    filter (λ line, line ∈ lines ∖ list_to_set (rowOf w <$> kept)) keys in
  set_markers (kept ++ seq (length (heap w)) (length create))
    (shown (allCommitted create (allDestroyed stale w))).

(** The world [dispose] leaves. *)
Definition disposed (w : World) : World :=
  let w1 := allDestroyed (_markers w) (log disposables_dispose_call w) in
  match _gutter w with
  | Some _ => log gutter_destroy_call (set_gutterDestroyed true w1)
  | None => w1
  end.

(** ** The entry points of the controller as events *)

(** One call of a handler the controller subscribed, with its argument:
    a store notification (with the store as it is then), the three gutter
    gestures, a change event of a committed marker, and the two destroy
    notifications. *)
Inductive ControllerEvent (V : Type) :=
| evBreakpointsChanged (store : BreakpointStore V) (path : string)
| evGutterClick (event : MouseEvent)
| evGutterMouseMove (event : MouseEvent)
| evGutterMouseLeave (event : MouseEvent)
| evMarkerChange (event : MarkerChangeEvent)
| evGutterDestroyed
| evTextEditorDestroyed.
Arguments evBreakpointsChanged {V} _ _.
Arguments evGutterClick {V} _.
Arguments evGutterMouseMove {V} _.
Arguments evGutterMouseLeave {V} _.
Arguments evMarkerChange {V} _.
Arguments evGutterDestroyed {V}.
Arguments evTextEditorDestroyed {V}.

Definition handleEvent {V} (bufferPositionForMouseEvent : MouseEvent → TextEditor → Point)
    (ev : ControllerEvent V) : M unit :=
  match ev with
  | evBreakpointsChanged store path => _handleBreakpointsChanged store path
  | evGutterClick event => _handleGutterClick bufferPositionForMouseEvent event
  | evGutterMouseMove event => _handleGutterMouseMove bufferPositionForMouseEvent event
  | evGutterMouseLeave event => _handleGutterMouseLeave event
  | evMarkerChange event => _handleMarkerChange event
  | evGutterDestroyed => _handleGutterDestroyed
  | evTextEditorDestroyed => _handleTextEditorDestroyed
  end.

(** ** Buffer edits *)

(** A change of the buffer, as the editor applies it to its markers: the
    lines of the buffer afterwards, where the change takes each position
    of the old buffer, and whether it deletes the text spanning a
    position. *)
Record BufferEdit := {
  newLineLengths : list nat;
  translate : Point → Point;
  deletesTextSpanning : Point → bool
}.

#[global] Instance Point_eq_dec : EqDecision Point.
Proof. solve_decision. Defined.

Definition moveObj (p : Point) (o : MarkerObj) : MarkerObj :=
  {| startBufferPosition := p; invalidate := invalidate o;
     isDestroyed := isDestroyed o; decoration := decoration o |}.

Definition editedEditor (e : BufferEdit) (editor : TextEditor) : TextEditor :=
  {| getPath := getPath editor; lineLengths := newLineLengths e |}.

(** Where the change takes the marker object [o] of [editor]: a marker
    that exists moves with the text, and stays in the buffer. *)
Definition editedObj (e : BufferEdit) (editor : TextEditor) (o : MarkerObj) : MarkerObj :=
  if isDestroyed o then o
  else moveObj (clipBufferPosition (editedEditor e editor)
                  (translate e (clipBufferPosition editor (startBufferPosition o)))) o.

(** The world once the change is applied, before any subscriber hears of
    it. *)
Definition edited (e : BufferEdit) (w : World) : World :=
  set_editor (editedEditor e (_editor w))
    (set_heap (editedObj e (_editor w) <$> heap w) w).

(** The event the change gives the [onDidChange] subscribers of marker
    [m]: none for a destroyed marker, none for a marker that stays valid
    where it was.  A marker is reported invalid when its strategy has it
    invalidated by a change that deletes the text spanning it. *)
Definition changeEvent (e : BufferEdit) (w : World) (m : Marker) : option MarkerChangeEvent :=
  match heap w !! m with
  | Some o =>
      let old := getStartBufferPosition m w in
      let new := getStartBufferPosition m (edited e w) in
      let valid := negb (invalidatedWhenSpanningTextDeleted (invalidate o)
                         && deletesTextSpanning e old) in
      if isDestroyed o then None
      else if decide (old = new ∧ valid = true) then None
      else Some {| isValid := valid; oldHeadBufferPosition := old;
                   newHeadBufferPosition := new |}
  | None => None
  end.

(** The markers whose [onDidChange] the controller subscribed to, one
    entry for each subscription, in the order of the calls. *)
Definition subscribedMarkers (t : list Effect) : list Marker :=
  omap (λ c, match c with onDidChange_call m => Some m | _ => None end) t.

(** The change events of one edit, as [_handleMarkerChange] receives
    them. *)
Definition changeEvents (e : BufferEdit) (w : World) : list MarkerChangeEvent :=
  omap (changeEvent e w) (subscribedMarkers (trace w)).

Definition deliverChanges (events : list MarkerChangeEvent) (w : World) : World :=
  foldl (λ w event, world_of (_handleMarkerChange event w)) w events.

(** The world after the actions were dispatched, in order. *)
Definition dispatchedAll (actions : list Action) (w : World) : World :=
  foldl (λ w a, log (dispatched a) w) w actions.

(** ** The event loop *)

(** What happens around the controller while it is subscribed: the store
    asks for a UI update, the user clicks or moves the pointer on a
    gutter, the gutter or the editor is destroyed, the buffer is edited.
    A marker change is not a step of its own: it comes from an edit that
    moved the marker. *)
Inductive Step (V : Type) :=
| stepNeedUIUpdate (store : BreakpointStore V) (path : string)
| stepClick (event : MouseEvent)
| stepMouseMove (event : MouseEvent)
| stepMouseLeave (event : MouseEvent)
| stepGutterDestroyed
| stepEditorDestroyed
| stepBufferChanged (e : BufferEdit).
Arguments stepNeedUIUpdate {V} _ _.
Arguments stepClick {V} _.
Arguments stepMouseMove {V} _.
Arguments stepMouseLeave {V} _.
Arguments stepGutterDestroyed {V}.
Arguments stepEditorDestroyed {V}.
Arguments stepBufferChanged {V} _.

(** One step: the handler subscribed to the notification runs, and the
    loop goes on from the world it leaves, whether it returned or threw.
    An edit moves the markers and then calls [_handleMarkerChange] for
    each change. *)
Definition step {V} (bufferPositionForMouseEvent : MouseEvent → TextEditor → Point)
    (s : Step V) (w : World) : World :=
  match s with
  | stepNeedUIUpdate store path =>
      world_of (handleEvent bufferPositionForMouseEvent (evBreakpointsChanged store path) w)
  | stepClick event =>
      world_of (handleEvent (V := V) bufferPositionForMouseEvent (evGutterClick event) w)
  | stepMouseMove event =>
      world_of (handleEvent (V := V) bufferPositionForMouseEvent (evGutterMouseMove event) w)
  | stepMouseLeave event =>
      world_of (handleEvent (V := V) bufferPositionForMouseEvent (evGutterMouseLeave event) w)
  | stepGutterDestroyed =>
      world_of (handleEvent (V := V) bufferPositionForMouseEvent evGutterDestroyed w)
  | stepEditorDestroyed =>
      world_of (handleEvent (V := V) bufferPositionForMouseEvent evTextEditorDestroyed w)
  | stepBufferChanged e => deliverChanges (changeEvents e w) (edited e w)
  end.

Fixpoint run {V} (bufferPositionForMouseEvent : MouseEvent → TextEditor → Point)
    (steps : list (Step V)) (w : World) : World :=
  match steps with
  | [] => w
  | s :: rest =>
      run bufferPositionForMouseEvent rest (step bufferPositionForMouseEvent s w)
  end.

Definition isEdit {V} (s : Step V) : bool :=
  match s with stepBufferChanged _ => true | _ => false end.

Definition isDestroyNotification {V} (s : Step V) : bool :=
  match s with stepGutterDestroyed | stepEditorDestroyed => true | _ => false end.

(** A store notification for [path]. *)
Definition isUpdateFor {V} (path : string) (s : Step V) : bool :=
  match s with
  | stepNeedUIUpdate _ p => bool_decide (p = path)
  | _ => false
  end.

(** The edits among the steps, in order. *)
Fixpoint editsOf {V} (steps : list (Step V)) : list BufferEdit :=
  match steps with
  | [] => []
  | stepBufferChanged e :: rest => e :: editsOf rest
  | _ :: rest => editsOf rest
  end.

(** Where the edits, applied in order from the buffer of [editor], take
    a marker object. *)
Fixpoint movedBy (edits : list BufferEdit) (editor : TextEditor) (o : MarkerObj) : MarkerObj :=
  match edits with
  | [] => o
  | e :: rest => movedBy rest (editedEditor e editor) (editedObj e editor o)
  end.

(** What the controller does to a marker object other than moving it:
    its strategy, whether it is destroyed, its decoration. *)
Definition handling (o : MarkerObj) : InvalidationStrategy * bool * option string :=
  (invalidate o, isDestroyed o, decoration o).

(** Deleting row 6 of the ten-line buffer: the rows below move up. *)
Definition delete_row_6 : BufferEdit :=
  {| newLineLengths := replicate 9 12;
     translate := λ p, if decide (row p < 6) then p
                       else if decide (row p = 6) then {| row := 6; column := 0 |}
                       else {| row := row p - 1; column := column p |};
     deletesTextSpanning := λ p, bool_decide (row p = 6) |}.

(** Deleting the line break at the end of row 3: row 4 is joined to
    row 3. *)
Definition join_rows_3_4 : BufferEdit :=
  {| newLineLengths := [12; 12; 12; 24; 12; 12; 12; 12; 12];
     translate := λ p, if decide (row p < 4) then p
                       else if decide (row p = 4)
                            then {| row := 3; column := 12 + column p |}
                            else {| row := row p - 1; column := column p |};
     deletesTextSpanning := λ _, false |}.

(** The controller constructed while the store holds rows 3 and 4, after
    the edit that joins row 4 to row 3: two committed markers on row 3. *)
Definition world_joined_rows : World :=
  Eval vm_compute in
    step (V := unit) positionByClientY (stepBufferChanged join_rows_3_4)
      (world_of (constructor (store_of_lines [3; 4]) editor_P [])).


(** The actions dispatched in a trace, in order. *)
Definition dispatches (t : list Effect) : list Action :=
  omap (λ e, match e with dispatched a => Some a | _ => None end) t.

(** The calls made on the gutter object in a trace. *)
Definition isGutterCall (e : Effect) : bool :=
  match e with
  | gutter_show_call | gutter_destroy_call | decorateMarker_call _ _ => true
  | _ => false
  end.

Definition gutterCalls (t : list Effect) : list Effect := List.filter isGutterCall t.

(** The held shadow marker is an existing marker that is not committed. *)
Definition shadow_apart (w : World) : Prop :=
  ∀ s, _lastShadowBreakpointMarker w = Some s →
       (s ∉ _markers w) ∧ s < length (heap w).

Definition controller_inv (w : World) : Prop :=
  markers_wf w ∧ shadow_inv w ∧ shadow_apart w.

(** A marker of the editor that the controller does not hold. *)
Definition foreign (w : World) (m : Marker) : Prop :=
  m < length (heap w) ∧ (m ∉ _markers w) ∧ _lastShadowBreakpointMarker w ≠ Some m.

(** 1 while a shadow marker is held, 0 otherwise. *)
Definition held (w : World) : nat :=
  match _lastShadowBreakpointMarker w with Some _ => 1 | None => 0 end.


(** A step that leaves the committed markers of the editor of [path]
    where they are: neither a buffer edit nor a store notification for
    [path]. *)
Definition quiet {V} (path : string) (s : Step V) : Prop :=
  isEdit s = false ∧ isUpdateFor path s = false.

(** ** The mouse listeners of the gutters *)

(** The three methods [_registerGutterMouseHandlers] binds. *)
Inductive BoundHandler :=
| boundClickHandler        (* this._handleGutterClick.bind(this) *)
| boundMouseMoveHandler    (* this._handleGutterMouseMove.bind(this) *)
| boundMouseLeaveHandler.  (* this._handleGutterMouseLeave.bind(this) *)

(** An event listener on the view of a gutter.  Every [bind] makes a new
    function: [bindId] is its identity. *)
Record Listener := {
  gutterView : Gutter;
  eventType : string;
  callback : BoundHandler;
  bindId : nat
}.

#[global] Instance Gutter_eq_dec : EqDecision Gutter.
Proof. solve_decision. Defined.
#[global] Instance BoundHandler_eq_dec : EqDecision BoundHandler.
Proof. solve_decision. Defined.
#[global] Instance Listener_eq_dec : EqDecision Listener.
Proof. solve_decision. Defined.

(** The listeners of the gutter views, the teardown closures held by
    [this._disposables] (each removes the listener it names), and the
    number of functions bound so far. *)
Record Wiring := {
  listeners : list Listener;
  _disposables : list Listener;
  binds : nat
}.

(** [view.addEventListener(type, callback)]: a listener already there is
    not added twice. *)
Definition addEventListener (l : Listener) (ls : list Listener) : list Listener :=
  if decide (l ∈ ls) then ls else ls ++ [l].

(** [view.removeEventListener(type, callback)] *)
Definition removeEventListener (l : Listener) (ls : list Listener) : list Listener :=
  filter (λ l', l' ≠ l) ls.

Definition _registerGutterMouseHandlers (gutter : Gutter) (s : Wiring) : Wiring :=
  let gutterView := gutter in
  if decide (name gutter ≠ "line-number" ∧ name gutter ≠ "nuclide-breakpoint") then s
  else
    let click := {| gutterView := gutterView; eventType := "click";
                    callback := boundClickHandler; bindId := binds s |} in
    let move := {| gutterView := gutterView; eventType := "mousemove";
                   callback := boundMouseMoveHandler; bindId := S (binds s) |} in
    let leave := {| gutterView := gutterView; eventType := "mouseleave";
                    callback := boundMouseLeaveHandler; bindId := S (S (binds s)) |} in
    {| listeners :=
         addEventListener leave (addEventListener move (addEventListener click (listeners s)));
       _disposables := _disposables s ++ [click; move; leave];
       binds := S (S (S (binds s))) |}.

(** [editor.observeGutters(callback)]: the callback runs for each gutter. *)
Definition observeGutters (gutters : list Gutter) (s : Wiring) : Wiring :=
  foldl (λ s gutter, _registerGutterMouseHandlers gutter s) s gutters.

(** Modelled from the spec: [UniversalDisposable.dispose] (commons-node,
    not under src/) releases every subscription it holds, here by running
    each teardown closure, and holds none afterwards. *)
Definition disposeListeners (s : Wiring) : Wiring :=
  {| listeners := foldl (λ ls l, removeEventListener l ls) (listeners s) (_disposables s);
     _disposables := [];
     binds := binds s |}.

(** No listener or teardown closure names a function not yet bound. *)
Definition wiring_wf (s : Wiring) : Prop :=
  Forall (λ l, bindId l < binds s) (listeners s)
  ∧ Forall (λ l, bindId l < binds s) (_disposables s).


(** The gutters whose views get the handlers. *)
Definition wired (gutter : Gutter) : Prop :=
  name gutter = "line-number" ∨ name gutter = "nuclide-breakpoint".

(** The three listeners one registration adds, the first bound function
    being number [k]. *)
Definition newListeners (gutter : Gutter) (k : nat) : list Listener :=
  [ {| gutterView := gutter; eventType := "click";
       callback := boundClickHandler; bindId := k |};
    {| gutterView := gutter; eventType := "mousemove";
       callback := boundMouseMoveHandler; bindId := S k |};
    {| gutterView := gutter; eventType := "mouseleave";
       callback := boundMouseLeaveHandler; bindId := S (S k) |} ].

(** The listeners added for a list of observed gutters. *)
Fixpoint addedListeners (gutters : list Gutter) (k : nat) : list Listener :=
  match gutters with
  | [] => []
  | gutter :: rest =>
      if decide (wired gutter)
      then newListeners gutter k ++ addedListeners rest (S (S (S k)))
      else addedListeners rest k
  end.

(** * Properties *)

Ltac unfold_monad :=
  unfold bind, get, ret, modify, dispatch, invariant in *.

(** ** Clipping *)

Lemma row_clipBufferPosition (editor : TextEditor) (p : Point) :
  row (clipBufferPosition editor p) = row p `min` getLastBufferRow editor.
Proof. unfold clipBufferPosition. case_decide; simpl; lia. Qed.

Lemma clipBufferPosition_in_buffer (editor : TextEditor) (p : Point) :
  (row (clipBufferPosition editor p) ≤ getLastBufferRow editor)%nat.
Proof. rewrite row_clipBufferPosition. lia. Qed.

Lemma clipBufferPosition_idemp (editor : TextEditor) (p : Point) :
  clipBufferPosition editor (clipBufferPosition editor p) = clipBufferPosition editor p.
Proof.
  unfold clipBufferPosition.
  destruct (decide (getLastBufferRow editor < row p)) as [Hlt|Hge]; simpl.
  - rewrite decide_False by lia. simpl. f_equal. lia.
  - rewrite decide_False by done. simpl. f_equal. lia.
Qed.

Lemma row_clipLine (editor : TextEditor) (line : nat) :
  row (clipLine editor line) = line `min` getLastBufferRow editor.
Proof. apply row_clipBufferPosition. Qed.

Lemma clipLine_in_buffer (editor : TextEditor) (line : nat) :
  (line ≤ getLastBufferRow editor)%nat → clipLine editor line = point line.
Proof.
  intros Hle. unfold clipLine, clipBufferPosition, point. simpl.
  rewrite decide_False by lia. f_equal.
Qed.

Lemma row_clipLine_in_buffer (editor : TextEditor) (line : nat) :
  (line ≤ getLastBufferRow editor)%nat → row (clipLine editor line) = line.
Proof. intros Hle. by rewrite clipLine_in_buffer. Qed.

(** The row of a marker is a row of the buffer. *)
Lemma getStartBufferPosition_in_buffer (m : nat) (w : World) :
  (row (getStartBufferPosition m w) ≤ getLastBufferRow (_editor w))%nat.
Proof. apply clipBufferPosition_in_buffer. Qed.

(** The example worlds are what the controller's methods compute. *)
Example world_259_constructed :
  constructor (store_of_lines [2; 5; 9]) editor_P [] = Returned tt world_259.
Proof. vm_compute. reflexivity. Qed.

Example world_259_hover3_moved :
  _handleGutterMouseMove positionByClientY (mouseAt 3) world_259
  = Returned tt world_259_hover3.
Proof. vm_compute. reflexivity. Qed.

Example world_259_gutter_gone_destroyed :
  _handleGutterDestroyed world_259 = Returned tt world_259_gutter_gone.
Proof. vm_compute. reflexivity. Qed.

Lemma truthy_path_Some (path : option string) (p : string) :
  truthy_path path = Some p ↔ path = Some p ∧ p ≠ "".
Proof.
  destruct path as [[|a s]|]; simpl; split; try intros [? ?]; try congruence.
  - intros [= <-]. split; [reflexivity | discriminate].
Qed.

Lemma truthy_path_of (p : string) : p ≠ "" → truthy_path (Some p) = Some p.
Proof. intros H. apply truthy_path_Some. auto. Qed.

(** ** The edit feedback handler *)

(** C3: a change event of a marker that stays valid and whose head row
    changed dispatches, when the editor has a path, [deleteBreakpoint] for
    the old row and then [addBreakpoint] for the new row, and nothing
    else: the trace grows by exactly these two dispatches, in this order. *)
Theorem handleMarkerChange_moved (w : World) (path : string) (event : MarkerChangeEvent) :
  getPath (_editor w) = Some path → path ≠ "" →
  isValid event = true →
  row (oldHeadBufferPosition event) ≠ row (newHeadBufferPosition event) →
  let del := dispatched (deleteBreakpoint path (row (oldHeadBufferPosition event))) in
  let add := dispatched (addBreakpoint path (row (newHeadBufferPosition event))) in
  _handleMarkerChange event w = Returned tt (log add (log del w))
  ∧ trace (log add (log del w)) = trace w ++ [del; add].
Proof.
  intros Hpath Hne Hvalid Hrow del add. split.
  - unfold _handleMarkerChange. unfold_monad.
    rewrite Hpath, (truthy_path_of _ Hne), Hvalid. simpl.
    destruct (decide _) as [_|Hn]; [reflexivity | contradiction].
  - simpl. by rewrite <- app_assoc.
Qed.


Lemma handleMarkerChange_moved_witness :
  _handleMarkerChange
    {| isValid := true; oldHeadBufferPosition := point 3;
       newHeadBufferPosition := point 5 |} world_P
  = Returned tt
      (log (dispatched (addBreakpoint "P" 5))
         (log (dispatched (deleteBreakpoint "P" 3)) world_P)).
Proof.
  apply (handleMarkerChange_moved world_P "P"
           {| isValid := true; oldHeadBufferPosition := point 3;
              newHeadBufferPosition := point 5 |});
    [reflexivity | discriminate | reflexivity | simpl; lia].
Defined.

(** C10: a change event of a marker that stays valid and whose head row
    did not change dispatches nothing: the handler returns and leaves the
    whole world, and so the trace of dispatches, as it was. *)
Theorem handleMarkerChange_same_row (w : World) (event : MarkerChangeEvent) :
  isValid event = true →
  row (oldHeadBufferPosition event) = row (newHeadBufferPosition event) →
  _handleMarkerChange event w = Returned tt w.
Proof.
  intros Hvalid Hrow. unfold _handleMarkerChange. unfold_monad.
  destruct (truthy_path _); [|reflexivity].
  rewrite Hvalid. simpl.
  destruct (decide _) as [Hn|_]; [contradiction | reflexivity].
Qed.

Lemma handleMarkerChange_same_row_witness :
  _handleMarkerChange
    {| isValid := true; oldHeadBufferPosition := {| row := 4; column := 0 |};
       newHeadBufferPosition := {| row := 4; column := 7 |} |} world_P
  = Returned tt world_P.
Proof.
  apply (handleMarkerChange_same_row world_P); reflexivity.
Defined.


(** ** Editors without a path *)

Lemma update_no_path {V} (store : BreakpointStore V) (w : World) :
  getPath (_editor w) = None → _update store w = Returned tt w.
Proof.
  intros Hpath. unfold _update. unfold_monad.
  destruct (_gutter w); [|reflexivity]. by rewrite Hpath.
Qed.

Lemma update_no_gutter {V} (store : BreakpointStore V) (w : World) :
  _gutter w = None → _update store w = Returned tt w.
Proof. intros Hg. unfold _update. unfold_monad. by rewrite Hg. Qed.

Lemma handleGutterClick_falsy_path bp (event : MouseEvent) (w : World) :
  truthy_path (getPath (_editor w)) = None →
  _handleGutterClick bp event w = Returned tt w.
Proof.
  intros Hpath. unfold _handleGutterClick. unfold_monad.
  destruct (decide _); [reflexivity|]. by rewrite Hpath.
Qed.

Lemma handleMarkerChange_falsy_path (event : MarkerChangeEvent) (w : World) :
  truthy_path (getPath (_editor w)) = None →
  _handleMarkerChange event w = Returned tt w.
Proof.
  intros Hpath. unfold _handleMarkerChange. unfold_monad. by rewrite Hpath.
Qed.

(** C8: when the editor has no path, a reconciliation pass returns with
    the world untouched whatever the store holds (the store is not read,
    no marker is touched), a gutter click dispatches nothing, and a
    marker-change event dispatches nothing. *)
Theorem no_path_no_store_interaction (w : World) :
  getPath (_editor w) = None →
  (∀ V (store : BreakpointStore V), _update store w = Returned tt w)
  ∧ (∀ bp event, _handleGutterClick bp event w = Returned tt w)
  ∧ (∀ event, _handleMarkerChange event w = Returned tt w).
Proof.
  intros Hpath. split; [|split].
  - intros V store. by apply update_no_path.
  - intros bp event. apply handleGutterClick_falsy_path. by rewrite Hpath.
  - intros event. apply handleMarkerChange_falsy_path. by rewrite Hpath.
Qed.


Lemma no_path_no_store_interaction_witness :
  (∀ V (store : BreakpointStore V), _update store world_untitled = Returned tt world_untitled)
  ∧ (∀ bp event, _handleGutterClick bp event world_untitled = Returned tt world_untitled)
  ∧ (∀ event, _handleMarkerChange event world_untitled = Returned tt world_untitled).
Proof.
  apply (no_path_no_store_interaction world_untitled). reflexivity.
Defined.

(** ** Gutter clicks *)

(** C9: a click whose target carries the class [icon-right] is ignored:
    nothing is dispatched and the world is unchanged.  Any other click,
    when the editor has a path, dispatches exactly one [toggleBreakpoint]
    for that path and the row [bufferPositionForMouseEvent] gives for the
    event. *)
Theorem handleGutterClick_spec bp (event : MouseEvent) (w : World) :
  ("icon-right" ∈ target_classList event →
     _handleGutterClick bp event w = Returned tt w)
  ∧ ("icon-right" ∉ target_classList event →
     ∀ path, getPath (_editor w) = Some path → path ≠ "" →
       let toggle := dispatched (toggleBreakpoint path (row (bp event (_editor w)))) in
       _handleGutterClick bp event w = Returned tt (log toggle w)
       ∧ trace (log toggle w) = trace w ++ [toggle]).
Proof.
  split.
  - intros Hin. unfold _handleGutterClick.
    destruct (decide _); [reflexivity | contradiction].
  - intros Hnotin path Hpath Hne toggle. split; [|reflexivity].
    unfold _handleGutterClick, _getCurrentMouseEventLine. unfold_monad.
    destruct (decide _); [contradiction|].
    by rewrite Hpath, (truthy_path_of _ Hne).
Qed.

(** ** The shadow marker under pointer events *)

Lemma liveShadowMarker_destroyed (s m : Marker) (w : World) :
  liveShadowMarker (destroyed s w) m → m ≠ s ∧ liveShadowMarker w m.
Proof.
  intros (o & Hlook & Hlive & Hdeco). simpl in Hlook.
  rewrite list_lookup_alter in Hlook. case_decide as Hsm.
  - apply fmap_Some in Hlook as (o' & _ & ->). discriminate.
  - split; [congruence|]. by exists o.
Qed.

Lemma liveShadowMarker_marked (p : Point) (s : InvalidationStrategy) (m : Marker) (w : World) :
  liveShadowMarker (marked p s w) m → liveShadowMarker w m.
Proof.
  intros (o & Hlook & Hlive & Hdeco). simpl in Hlook.
  apply lookup_snoc_Some in Hlook as [[_ Hlook]|[_ <-]]; [|done].
  by exists o.
Qed.

Lemma liveShadowMarker_unshadowed (m : Marker) (w : World) :
  shadow_inv w → ¬ liveShadowMarker (unshadowed w) m.
Proof.
  intros Hinv Hlive. unfold unshadowed in Hlive.
  destruct (_lastShadowBreakpointMarker w) as [s|] eqn:Hlast.
  - assert (liveShadowMarker (destroyed s w) m) as H by exact Hlive.
    apply liveShadowMarker_destroyed in H as [Hne H].
    apply Hinv in H. congruence.
  - apply Hinv in Hlive. congruence.
Qed.

Lemma liveShadowMarker_hovering (line : nat) (m : Marker) (w : World) :
  liveShadowMarker (hovering line w) m →
  m = length (heap w) ∨ liveShadowMarker w m.
Proof.
  intros (o & Hlook & Hlive & Hdeco). simpl in Hlook.
  rewrite list_lookup_alter in Hlook. case_decide as Hm; [by left|].
  right. apply lookup_snoc_Some in Hlook as [[_ Hlook]|[? _]]; [|congruence].
  by exists o.
Qed.

Lemma creations_app (t1 t2 : list Effect) :
  creations (t1 ++ t2) = creations t1 + creations t2.
Proof. unfold creations. by rewrite List.filter_app, length_app. Qed.

Lemma destructions_app (t1 t2 : list Effect) :
  destructions (t1 ++ t2) = destructions t1 + destructions t2.
Proof. unfold destructions. by rewrite List.filter_app, length_app. Qed.

Lemma NoDup_rowChanges (editor : TextEditor) (r : nat) (rows : list nat) :
  NoDup (row ∘ clipLine editor <$> r :: rows) →
  rowChanges (row ∘ clipLine editor) (row (clipLine editor r)) rows.
Proof.
  revert r. induction rows as [|r' rows IH]; intros r Hnd; [done|].
  rewrite fmap_cons in Hnd. apply NoDup_cons in Hnd as [Hnotin Hnd]. split.
  - intros Heq. apply Hnotin. rewrite fmap_cons.
    replace ((row ∘ clipLine editor) r) with ((row ∘ clipLine editor) r'); [left|].
    simpl. rewrite <- Heq, !row_clipLine. lia.
  - by apply IH.
Qed.

Lemma removeLastShadowBreakpoint_eq (w : World) :
  _removeLastShadowBreakpoint w = Returned tt (unshadowed w).
Proof.
  unfold _removeLastShadowBreakpoint, unshadowed, marker_destroy. unfold_monad.
  by destruct (_lastShadowBreakpointMarker w).
Qed.

Lemma unshadowed_gutter (w : World) : _gutter (unshadowed w) = _gutter w.
Proof. unfold unshadowed. by destruct (_lastShadowBreakpointMarker w). Qed.

Section PointerEventProperties.

Variable bufferPositionForMouseEvent : MouseEvent → TextEditor → Point.

Local Abbreviation handleGutterMouseMove := (_handleGutterMouseMove bufferPositionForMouseEvent).
Local Abbreviation eventRowOf := (eventRow bufferPositionForMouseEvent).
Local Abbreviation deliverAll := (deliver bufferPositionForMouseEvent).

Lemma deliver_cons (ev : PointerEvent) (evs : list PointerEvent) (w : World) :
  deliverAll (ev :: evs) w
  = deliverAll evs (world_of (handlePointerEvent bufferPositionForMouseEvent ev w)).
Proof. reflexivity. Qed.

(** The three ways a pointer move ends. *)
Lemma handleGutterMouseMove_eq (event : MouseEvent) (w : World) :
  handleGutterMouseMove event w =
    let curLine := eventRowOf (_editor w) event in
    if isOver w curLine then Returned tt w
    else match _gutter w with
         | Some _ => Returned tt (hovering curLine (unshadowed w))
         | None => Threw (marked (point curLine) never (unshadowed w))
         end.
Proof.
  unfold _handleGutterMouseMove, _getCurrentMouseEventLine,
    _isLineOverLastShadowBreakpoint, isOver, eventRow.
  unfold_monad.
  destruct (_lastShadowBreakpointMarker w) as [m|] eqn:Hlast;
    [destruct (bool_decide _); [reflexivity|] |];
    rewrite removeLastShadowBreakpoint_eq;
    unfold _createShadowBreakpointAtLine, _createBreakpointMarkerAtLine,
      markBufferPosition, decorateMarker, hovering; unfold_monad;
    simpl; rewrite unshadowed_gutter;
    by destruct (_gutter w).
Qed.

Lemma shadow_inv_mousemove (event : MouseEvent) (w : World) :
  shadow_inv w → shadow_inv (world_of (handleGutterMouseMove event w)).
Proof.
  intros Hinv. rewrite handleGutterMouseMove_eq. simpl.
  destruct (isOver _ _); [exact Hinv|].
  destruct (_gutter w); simpl; intros m Hlive.
  - apply liveShadowMarker_hovering in Hlive as [->|Hlive]; [reflexivity|].
    by apply liveShadowMarker_unshadowed in Hlive.
  - apply liveShadowMarker_marked in Hlive.
    by apply liveShadowMarker_unshadowed in Hlive.
Qed.

Lemma shadow_inv_mouseleave (event : MouseEvent) (w : World) :
  shadow_inv w → shadow_inv (world_of (_handleGutterMouseLeave event w)).
Proof.
  intros Hinv. unfold _handleGutterMouseLeave.
  rewrite removeLastShadowBreakpoint_eq. simpl. intros m Hlive.
  by apply liveShadowMarker_unshadowed in Hlive.
Qed.

Lemma shadow_inv_deliver (evs : list PointerEvent) (w : World) :
  shadow_inv w → shadow_inv (deliverAll evs w).
Proof.
  revert w. induction evs as [|[event|event] evs IH]; intros w Hinv; simpl.
  - exact Hinv.
  - apply IH. by apply shadow_inv_mousemove.
  - apply IH. by apply shadow_inv_mouseleave.
Qed.

Lemma mousemove_over (event : MouseEvent) (w : World) (m : Marker) :
  _lastShadowBreakpointMarker w = Some m →
  row (getStartBufferPosition m w) = eventRowOf (_editor w) event →
  handleGutterMouseMove event w = Returned tt w.
Proof.
  intros Hlast Hrow. rewrite handleGutterMouseMove_eq. simpl.
  unfold isOver. by rewrite Hlast, bool_decide_eq_true_2.
Qed.

Lemma mousemove_from_hovering (event : MouseEvent) (w : World) (g : Gutter) (m : Marker) :
  _gutter w = Some g →
  _lastShadowBreakpointMarker w = Some m →
  row (getStartBufferPosition m w) ≠ eventRowOf (_editor w) event →
  let w' := world_of (handleGutterMouseMove event w) in
  let m' := length (heap w) in
  _gutter w' = Some g ∧ _editor w' = _editor w
  ∧ _lastShadowBreakpointMarker w' = Some m'
  ∧ row (getStartBufferPosition m' w')
    = row (clipLine (_editor w) (eventRowOf (_editor w) event))
  ∧ trace w' = trace w ++ [marker_destroy_call m;
                           markBufferPosition_call m' (point (eventRowOf (_editor w) event)) never;
                           decorateMarker_call m' shadowClass].
Proof.
  intros Hg Hlast Hrow. rewrite handleGutterMouseMove_eq. simpl.
  unfold isOver. rewrite Hlast, bool_decide_eq_false_2, Hg by done.
  unfold unshadowed. rewrite Hlast. simpl.
  rewrite length_alter. repeat split; try done.
  - unfold getStartBufferPosition. simpl. rewrite length_alter.
    rewrite list_lookup_alter_eq, list_lookup_middle by (by rewrite length_alter).
    simpl. by rewrite clipBufferPosition_idemp.
  - by rewrite <- !app_assoc.
Qed.

Lemma mousemove_from_idle (event : MouseEvent) (w : World) (g : Gutter) :
  _gutter w = Some g →
  _lastShadowBreakpointMarker w = None →
  let w' := world_of (handleGutterMouseMove event w) in
  let m' := length (heap w) in
  _gutter w' = Some g ∧ _editor w' = _editor w
  ∧ _lastShadowBreakpointMarker w' = Some m'
  ∧ row (getStartBufferPosition m' w')
    = row (clipLine (_editor w) (eventRowOf (_editor w) event))
  ∧ trace w' = trace w ++ [markBufferPosition_call m' (point (eventRowOf (_editor w) event)) never;
                           decorateMarker_call m' shadowClass].
Proof.
  intros Hg Hlast. rewrite handleGutterMouseMove_eq. simpl.
  unfold isOver. rewrite Hlast, Hg.
  unfold unshadowed. rewrite Hlast. simpl. repeat split; try done.
  - unfold getStartBufferPosition. simpl.
    rewrite list_lookup_alter_eq, list_lookup_middle by done.
    simpl. by rewrite clipBufferPosition_idemp.
  - by rewrite <- !app_assoc.
Qed.

(** From [Hovering], every move to a row other than the hovered one
    destroys one marker and creates one. *)
Lemma deliver_moves_from_hovering (events : list MouseEvent) (w : World)
    (g : Gutter) (m : Marker) :
  _gutter w = Some g →
  _lastShadowBreakpointMarker w = Some m →
  rowChanges (row ∘ clipLine (_editor w)) (row (getStartBufferPosition m w))
    (eventRowOf (_editor w) <$> events) →
  let w' := deliverAll (mousemove <$> events) w in
  creations (trace w') = creations (trace w) + length events
  ∧ destructions (trace w') = destructions (trace w) + length events.
Proof.
  revert w m. induction events as [|event events IH]; intros w m Hg Hlast Hrows.
  - simpl. lia.
  - destruct Hrows as [Hne Hrows].
    destruct (mousemove_from_hovering event w g m Hg Hlast Hne)
      as (Hg' & Hed & Hlast' & Hrow' & Htrace).
    rewrite fmap_cons, deliver_cons. cbn [handlePointerEvent length].
    set (w1 := world_of _) in *.
    destruct (IH w1 (length (heap w)) Hg' Hlast') as [Hc Hd].
    + by rewrite Hrow', Hed.
    + rewrite Hc, Hd, Htrace, creations_app, destructions_app.
      unfold creations, destructions. simpl. lia.
Qed.

Lemma deliver_moves_from_idle (event : MouseEvent) (events : list MouseEvent)
    (w : World) (g : Gutter) :
  _gutter w = Some g →
  _lastShadowBreakpointMarker w = None →
  rowChanges (row ∘ clipLine (_editor w))
    (row (clipLine (_editor w) (eventRowOf (_editor w) event)))
    (eventRowOf (_editor w) <$> events) →
  let w' := deliverAll (mousemove <$> event :: events) w in
  creations (trace w') = creations (trace w) + S (length events)
  ∧ destructions (trace w') = destructions (trace w) + length events.
Proof.
  intros Hg Hlast Hrows.
  destruct (mousemove_from_idle event w g Hg Hlast)
    as (Hg' & Hed & Hlast' & Hrow' & Htrace).
  rewrite fmap_cons, deliver_cons. cbn [handlePointerEvent length].
  set (w1 := world_of _) in *.
  destruct (deliver_moves_from_hovering events w1 g (length (heap w)) Hg' Hlast')
    as [Hc Hd].
  - by rewrite Hrow', Hed.
  - rewrite Hc, Hd, Htrace, creations_app, destructions_app.
    unfold creations, destructions. simpl. lia.
Qed.

(** C4: from a world in which every existing shadow marker is the one the
    controller holds (as after construction), after any sequence of pointer
    moves and pointer leaves at most one shadow marker exists; a pointer
    move to the row of the held shadow marker returns with the world
    unchanged; and, with the gutter in place and no shadow marker held,
    pointer moves over N = 1 + |events| pairwise distinct rows of the
    buffer make exactly N marker creations and N - 1 marker destructions.
    This last part is stated twice: for event rows that are rows of the
    buffer and pairwise distinct, and, more generally, for any event rows
    taken as the editor places them, an event row past the last row of
    the buffer counting as the last row, where its shadow marker is
    put. *)
Theorem hover_shadow_marker (w : World) :
  shadow_inv w →
  (∀ evs m1 m2,
     liveShadowMarker (deliverAll evs w) m1 →
     liveShadowMarker (deliverAll evs w) m2 → m1 = m2)
  ∧ (∀ event m,
       _lastShadowBreakpointMarker w = Some m →
       row (getStartBufferPosition m w) = eventRowOf (_editor w) event →
       handleGutterMouseMove event w = Returned tt w)
  ∧ (∀ g event events,
       _gutter w = Some g →
       _lastShadowBreakpointMarker w = None →
       Forall (λ r, r ≤ getLastBufferRow (_editor w))%nat
         (eventRowOf (_editor w) <$> event :: events) →
       NoDup (eventRowOf (_editor w) <$> event :: events) →
       let w' := deliverAll (mousemove <$> event :: events) w in
       creations (trace w') = creations (trace w) + S (length events)
       ∧ destructions (trace w') = destructions (trace w) + length events)
  ∧ (∀ g event events,
       _gutter w = Some g →
       _lastShadowBreakpointMarker w = None →
       NoDup (row ∘ clipLine (_editor w) <$> (eventRowOf (_editor w) <$> event :: events)) →
       let w' := deliverAll (mousemove <$> event :: events) w in
       creations (trace w') = creations (trace w) + S (length events)
       ∧ destructions (trace w') = destructions (trace w) + length events).
Proof.
  intros Hinv.
  assert (∀ g event events,
            _gutter w = Some g →
            _lastShadowBreakpointMarker w = None →
            NoDup (row ∘ clipLine (_editor w)
                     <$> (eventRowOf (_editor w) <$> event :: events)) →
            let w' := deliverAll (mousemove <$> event :: events) w in
            creations (trace w') = creations (trace w) + S (length events)
            ∧ destructions (trace w') = destructions (trace w) + length events)
    as Hmoves.
  { intros g event events Hg Hlast Hnd.
    apply (deliver_moves_from_idle event events w g Hg Hlast).
    rewrite fmap_cons in Hnd. by apply NoDup_rowChanges. }
  split; [|split; [|split]].
  - intros evs m1 m2 H1 H2.
    pose proof (shadow_inv_deliver evs w Hinv) as Hinv'.
    apply Hinv' in H1. apply Hinv' in H2. congruence.
  - intros event m. apply mousemove_over.
  - intros g event events Hg Hlast Hbuf Hnd. apply (Hmoves g); [done..|].
    replace (row ∘ clipLine (_editor w) <$> (eventRowOf (_editor w) <$> event :: events))
      with (eventRowOf (_editor w) <$> event :: events); [done|].
    rewrite <- (list_fmap_id (eventRowOf (_editor w) <$> event :: events)) at 1.
    apply list_fmap_ext. intros i r Hr. simpl. symmetry.
    apply row_clipLine_in_buffer. rewrite Forall_forall in Hbuf.
    apply Hbuf. by eapply list_elem_of_lookup_2.
  - exact Hmoves.
Qed.

(** With the gutter reference void, a pointer move to a row that is not
    the hovered one creates a marker and then throws. *)
Lemma handleGutterMouseMove_void_gutter (event : MouseEvent) (w : World) :
  _gutter w = None →
  isOver w (eventRowOf (_editor w) event) = false →
  handleGutterMouseMove event w
  = Threw (marked (point (eventRowOf (_editor w) event)) never (unshadowed w)).
Proof.
  intros Hg Hover. rewrite handleGutterMouseMove_eq. simpl.
  by rewrite Hover, Hg.
Qed.

End PointerEventProperties.

(** ** Reconciliation *)

Lemma rowOf_destroyed (m m' : Marker) (w : World) :
  rowOf (destroyed m w) m' = rowOf w m'.
Proof.
  unfold rowOf, getStartBufferPosition. simpl.
  destruct (decide (m = m')) as [->|Hne].
  - rewrite list_lookup_alter_eq. by destruct (heap w !! m').
  - by rewrite list_lookup_alter_ne.
Qed.

Lemma keptMarkers_ext (f g : Marker → nat) ms unh :
  (∀ m, f m = g m) → keptMarkers f ms unh = keptMarkers g ms unh.
Proof.
  intros Hfg. revert unh. induction ms as [|m ms IH]; intros unh; simpl; [done|].
  rewrite Hfg. case_decide; by rewrite IH.
Qed.

Lemma staleMarkers_ext (f g : Marker → nat) ms unh :
  (∀ m, f m = g m) → staleMarkers f ms unh = staleMarkers g ms unh.
Proof.
  intros Hfg. revert unh. induction ms as [|m ms IH]; intros unh; simpl; [done|].
  rewrite Hfg. case_decide; by rewrite IH.
Qed.

Lemma destroyStaleMarkers_eq (ms keep : list Marker) (unh : gset nat) (w : World) :
  destroyStaleMarkers ms keep unh w =
    Returned (keep ++ keptMarkers (rowOf w) ms unh,
              unh ∖ list_to_set (rowOf w <$> keptMarkers (rowOf w) ms unh))
      (allDestroyed (staleMarkers (rowOf w) ms unh) w).
Proof.
  revert keep unh w. induction ms as [|m ms IH]; intros keep unh w; simpl.
  - unfold ret. rewrite app_nil_r. f_equal. f_equal. set_solver.
  - unfold_monad. fold (rowOf w m). case_decide as Hin.
    + rewrite IH, <- app_assoc. simpl. f_equal. f_equal. set_solver.
    + unfold marker_destroy, modify. rewrite IH.
      rewrite (keptMarkers_ext _ (rowOf w)), (staleMarkers_ext _ (rowOf w))
        by (intros; apply rowOf_destroyed).
      f_equal. f_equal. f_equal. f_equal. apply list_fmap_ext. intros. apply rowOf_destroyed.
Qed.

Lemma alter_snoc {A} (f : A → A) (l : list A) (x : A) :
  alter f (length l) (l ++ [x]) = l ++ [f x].
Proof. induction l as [|y l IH]; simpl; [done|]. by f_equal. Qed.

Lemma heap_committed (line : nat) (w : World) :
  heap (committed line w) = heap w ++ [committedObj (clipLine (_editor w) line)].
Proof. simpl. by rewrite alter_snoc. Qed.

Lemma allCommitted_fields (lines : list nat) (w : World) :
  let w' := allCommitted lines w in
  heap w' = heap w ++ (committedObj ∘ clipLine (_editor w) <$> lines)
  ∧ trace w' = trace w ++ commitCalls (length (heap w)) lines
  ∧ _gutter w' = _gutter w ∧ _editor w' = _editor w
  ∧ _markers w' = _markers w
  ∧ _lastShadowBreakpointMarker w' = _lastShadowBreakpointMarker w.
Proof.
  revert w. induction lines as [|line lines IH]; intros w; simpl.
  - by rewrite !app_nil_r.
  - destruct (IH (committed line w)) as (Hh & Ht & Hg & He & Hm & Hs).
    fold (allCommitted lines (committed line w)).
    rewrite Hh, Ht, Hg, He, Hm, Hs, heap_committed. simpl.
    rewrite length_app, <- !app_assoc. simpl.
    replace (length (heap w) + 1) with (S (length (heap w))) by lia.
    done.
Qed.

Lemma allDestroyed_fields (ms : list nat) (w : World) :
  let w' := allDestroyed ms w in
  length (heap w') = length (heap w)
  ∧ (∀ m, rowOf w' m = rowOf w m)
  ∧ (∀ m, m ∉ ms → heap w' !! m = heap w !! m)
  ∧ (∀ m, m ∈ ms → isDestroyed <$> heap w' !! m = (λ _, true) <$> heap w !! m)
  ∧ trace w' = trace w ++ (marker_destroy_call <$> ms)
  ∧ _gutter w' = _gutter w ∧ _editor w' = _editor w
  ∧ _markers w' = _markers w
  ∧ _lastShadowBreakpointMarker w' = _lastShadowBreakpointMarker w
  ∧ gutterDestroyed w' = gutterDestroyed w.
Proof.
  revert w. induction ms as [|m0 ms IH]; intros w; simpl.
  - rewrite app_nil_r. repeat split; try done. intros m Hm. by apply elem_of_nil in Hm.
  - destruct (IH (destroyed m0 w)) as (Hl & Hr & Hh & Hd & Ht & Hg & He & Hm & Hs & Hgd).
    fold (allDestroyed ms (destroyed m0 w)).
    rewrite Hl, Ht, Hg, He, Hm, Hs, Hgd. simpl. rewrite length_alter, <- app_assoc.
    repeat split; try done.
    + intros m. rewrite Hr. apply rowOf_destroyed.
    + intros m Hnotin. apply not_elem_of_cons in Hnotin as [Hne Hnotin].
      rewrite Hh by done. simpl. by rewrite list_lookup_alter_ne.
    + intros m Hin.
      destruct (decide (m ∈ ms)) as [Hin'|Hnotin].
      * rewrite Hd by done. simpl. rewrite list_lookup_alter.
        case_decide; [subst|done]. by destruct (heap w !! m).
      * apply elem_of_cons in Hin as [->|?]; [|done].
        rewrite Hh by done. simpl. rewrite list_lookup_alter_eq.
        by destruct (heap w !! m0).
Qed.

Lemma createBreakpointMarkerAtLine_eq (line : nat) (isShadow : bool) (w : World) (g : Gutter) :
  _gutter w = Some g →
  _createBreakpointMarkerAtLine line isShadow w
  = Returned (length (heap w))
      (decorated (length (heap w)) (breakpointIconClass isShadow)
         (marked (point line) never w)).
Proof.
  intros Hg. unfold _createBreakpointMarkerAtLine, markBufferPosition, decorateMarker.
  unfold_monad. simpl. by rewrite Hg.
Qed.

Lemma createMissingMarkers_eq {V} (breakpoints : list (nat * V)) (unh : gset nat)
    (keep : list nat) (w : World) (g : Gutter) :
  _gutter w = Some g →
  let create := filter (λ line, line ∈ unh) (breakpoints.*1) in
  createMissingMarkers breakpoints unh keep w
  = Returned (keep ++ seq (length (heap w)) (length create)) (allCommitted create w).
Proof.
  revert keep w. induction breakpoints as [|[line v] rest IH]; intros keep w Hg; simpl.
  - unfold ret. by rewrite app_nil_r.
  - rewrite filter_cons. simpl. case_decide as Hin.
    + unfold bind at 1. rewrite (createBreakpointMarkerAtLine_eq _ _ _ g Hg).
      unfold onDidChange, bind, modify.
      fold (committed line w). rewrite (IH _ (committed line w)) by done.
      rewrite heap_committed, length_app, <- app_assoc. simpl.
      replace (length (heap w) + 1) with (S (length (heap w))) by lia.
      done.
    + by apply IH.
Qed.

Lemma update_eq {V} (store : BreakpointStore V) (w : World) (g : Gutter) (path : string) :
  _gutter w = Some g →
  getPath (_editor w) = Some path →
  _update store w
  = Returned tt (reconciled ((getBreakpointsForPath store path).*1)
                   (getBreakpointLinesForPath store path) w).
Proof.
  intros Hg Hpath. unfold _update. unfold bind at 1. unfold get at 1. rewrite Hg.
  unfold bind at 1. unfold get at 1. rewrite Hpath.
  unfold bind at 1. unfold get at 1.
  unfold bind at 1. rewrite destroyStaleMarkers_eq. simpl.
  destruct (allDestroyed_fields
              (staleMarkers (rowOf w) (_markers w) (getBreakpointLinesForPath store path)) w)
    as (Hl & _ & _ & _ & _ & Hg' & _).
  unfold bind at 1. rewrite (createMissingMarkers_eq _ _ _ _ g) by congruence.
  unfold gutter_show. unfold_monad. by rewrite Hl.
Qed.

(** *** The markers kept and destroyed by the first loop *)

Section KeptMarkers.

Variable f : nat → nat.

Lemma keptMarkers_rows (ms : list nat) (unh : gset nat) (r : nat) :
  r ∈ f <$> keptMarkers f ms unh ↔ r ∈ unh ∧ r ∈ f <$> ms.
Proof.
  revert unh. induction ms as [|m ms IH]; intros unh; simpl.
  - rewrite elem_of_nil. naive_solver.
  - case_decide as Hin; rewrite ?fmap_cons, ?elem_of_cons, IH.
    + rewrite elem_of_difference, elem_of_singleton.
      destruct (decide (r = f m)); naive_solver.
    + naive_solver.
Qed.

Lemma keptMarkers_NoDup_rows (ms : list nat) (unh : gset nat) :
  NoDup (f <$> keptMarkers f ms unh).
Proof.
  revert unh. induction ms as [|m ms IH]; intros unh; simpl.
  - constructor.
  - case_decide as Hin; [|apply IH].
    rewrite fmap_cons. apply NoDup_cons. split; [|apply IH].
    rewrite keptMarkers_rows. set_solver.
Qed.

Lemma keptMarkers_subseteq (ms : list nat) (unh : gset nat) (m : nat) :
  m ∈ keptMarkers f ms unh → m ∈ ms.
Proof.
  revert unh. induction ms as [|m0 ms IH]; intros unh; simpl; [done|].
  case_decide; rewrite ?elem_of_cons; naive_solver.
Qed.

Lemma staleMarkers_subseteq (ms : list nat) (unh : gset nat) (m : nat) :
  m ∈ staleMarkers f ms unh → m ∈ ms.
Proof.
  revert unh. induction ms as [|m0 ms IH]; intros unh; simpl; [done|].
  case_decide; rewrite ?elem_of_cons; naive_solver.
Qed.

(** The first marker of the list at a row that is a breakpoint is kept. *)
Lemma keptMarkers_first (pre post : list nat) (m : nat) (unh : gset nat) :
  f m ∈ unh → f m ∉ f <$> pre →
  m ∈ keptMarkers f (pre ++ m :: post) unh.
Proof.
  revert unh. induction pre as [|p pre IH]; intros unh Hin Hnotin; simpl.
  - rewrite decide_True by done. left.
  - rewrite fmap_cons in Hnotin. apply not_elem_of_cons in Hnotin as [Hne Hnotin].
    case_decide.
    + right. apply IH; [set_solver|done].
    + by apply IH.
Qed.

Lemma staleMarkers_not_unhandled (pre post : list nat) (m : nat) (unh : gset nat) :
  f m ∉ unh → m ∈ staleMarkers f (pre ++ m :: post) unh.
Proof.
  revert unh. induction pre as [|p pre IH]; intros unh Hnotin; simpl.
  - rewrite decide_False by done. left.
  - case_decide; [apply IH; set_solver|right; by apply IH].
Qed.

(** A marker at the row of an earlier marker of the list is destroyed. *)
Lemma staleMarkers_later (pre post : list nat) (m : nat) (unh : gset nat) :
  f m ∈ f <$> pre →
  m ∈ staleMarkers f (pre ++ m :: post) unh.
Proof.
  revert unh. induction pre as [|p pre IH]; intros unh Hin; simpl.
  - by apply elem_of_nil in Hin.
  - rewrite fmap_cons in Hin. apply elem_of_cons in Hin as [Heq|Hin].
    + case_decide as Hp.
      * apply staleMarkers_not_unhandled. set_solver.
      * right. apply staleMarkers_not_unhandled. by rewrite Heq.
    + case_decide; [|right]; by apply IH.
Qed.

Lemma keptMarkers_not_stale (ms : list nat) (unh : gset nat) (m : nat) :
  NoDup ms → m ∈ keptMarkers f ms unh → m ∉ staleMarkers f ms unh.
Proof.
  revert unh. induction ms as [|m0 ms IH]; intros unh Hnd; simpl;
    [by intros ?%elem_of_nil|].
  apply NoDup_cons in Hnd as [Hm0 Hnd]. case_decide.
  - intros [->|Hin]%elem_of_cons.
    + intros Hst%staleMarkers_subseteq. done.
    + by apply IH.
  - intros Hin. apply not_elem_of_cons. split.
    + intros ->. by apply keptMarkers_subseteq in Hin.
    + by apply IH.
Qed.

(** When the rows of the markers are distinct breakpoint rows, every
    marker is kept. *)
Lemma keptMarkers_all (ms : list nat) (unh : gset nat) :
  NoDup (f <$> ms) → (∀ m, m ∈ ms → f m ∈ unh) →
  keptMarkers f ms unh = ms ∧ staleMarkers f ms unh = [].
Proof.
  revert unh. induction ms as [|m ms IH]; intros unh Hnd Hall; simpl; [done|].
  rewrite fmap_cons in Hnd. apply NoDup_cons in Hnd as [Hm Hnd].
  assert (f m ∈ unh) as Hin by (apply Hall; left).
  rewrite !decide_True by done.
  destruct (IH (unh ∖ {[f m]}) Hnd) as [Hk Hs].
  2: { by rewrite Hk, Hs. }
  intros m' Hm'. apply elem_of_difference. split; [apply Hall; by right|].
  rewrite elem_of_singleton. intros Heq. apply Hm. rewrite <- Heq.
  by apply list_elem_of_fmap_2.
Qed.

End KeptMarkers.

(** *** The world a pass leaves *)

Lemma rows_of_created (editor : TextEditor) (h : list MarkerObj) (lines : list nat) :
  (λ m, row (clipBufferPosition editor
               (from_option startBufferPosition {| row := 0; column := 0 |}
                  ((h ++ (committedObj ∘ clipLine editor <$> lines)) !! m))))
    <$> seq (length h) (length lines) = (row ∘ clipLine editor <$> lines).
Proof.
  revert h. induction lines as [|line lines IH]; intros h; [done|].
  rewrite !fmap_cons. cbn [length seq fmap list_fmap]. f_equal.
  - rewrite list_lookup_middle by done. simpl.
    unfold clipLine. by rewrite clipBufferPosition_idemp.
  - specialize (IH (h ++ [committedObj (clipLine editor line)])).
    rewrite length_app, <- app_assoc in IH. simpl in IH.
    replace (length h + 1) with (S (length h)) in IH by lia. exact IH.
Qed.

Section Reconciled.

Variables (keys : list nat) (lines : gset nat) (w : World).

Let kept := keptMarkers (rowOf w) (_markers w) lines.
Let stale := staleMarkers (rowOf w) (_markers w) lines.
Let create := filter (λ line, line ∈ lines ∖ list_to_set (rowOf w <$> kept)) keys.
Let w' := reconciled keys lines w.

Lemma reconciled_fields :
  _markers w' = kept ++ seq (length (heap w)) (length create)
  ∧ heap w' = heap (allDestroyed stale w)
              ++ (committedObj ∘ clipLine (_editor w) <$> create)
  ∧ trace w' = trace w ++ (marker_destroy_call <$> stale)
                 ++ commitCalls (length (heap w)) create ++ [gutter_show_call]
  ∧ _gutter w' = _gutter w ∧ _editor w' = _editor w
  ∧ _lastShadowBreakpointMarker w' = _lastShadowBreakpointMarker w.
Proof.
  unfold w', reconciled. fold kept stale create. simpl.
  destruct (allCommitted_fields create (allDestroyed stale w))
    as (Hh & Ht & Hg & He & _ & Hs).
  destruct (allDestroyed_fields stale w)
    as (Hl & _ & _ & _ & Ht' & Hg' & He' & _ & Hs' & _).
  rewrite Hh, Ht, Hg, He, Hs, Ht', Hg', He', Hs', Hl.
  by rewrite <- !app_assoc.
Qed.

Lemma rowOf_reconciled_old (m : nat) :
  m < length (heap w) → rowOf w' m = rowOf w m.
Proof.
  intros Hm. destruct reconciled_fields as (_ & Hh & _ & _ & He & _).
  destruct (allDestroyed_fields stale w) as (Hl & Hr & _ & _ & _ & _ & He' & _).
  rewrite <- Hr. unfold rowOf, getStartBufferPosition.
  rewrite Hh, He, He', lookup_app_l by lia. done.
Qed.

Lemma rowOf_reconciled_new :
  rowOf w' <$> seq (length (heap w)) (length create)
  = (row ∘ clipLine (_editor w) <$> create).
Proof.
  destruct reconciled_fields as (_ & Hh & _ & _ & He & _).
  destruct (allDestroyed_fields stale w) as (Hl & _).
  unfold rowOf, getStartBufferPosition. rewrite Hh, He, <- Hl.
  apply rows_of_created.
Qed.

Hypothesis Hwf : Forall (λ m, m < length (heap w)) (_markers w).

Lemma kept_lt (m : nat) : m ∈ kept → m < length (heap w).
Proof.
  intros Hin%keptMarkers_subseteq. rewrite Forall_forall in Hwf. by apply Hwf.
Qed.

Lemma committedRows_reconciled :
  committedRows w' = (rowOf w <$> kept) ++ (row ∘ clipLine (_editor w) <$> create).
Proof.
  unfold committedRows. destruct reconciled_fields as (-> & _).
  rewrite fmap_app, rowOf_reconciled_new. f_equal.
  apply list_fmap_ext. intros i m Hm. apply rowOf_reconciled_old, kept_lt.
  by eapply list_elem_of_lookup_2.
Qed.

Hypothesis Hkeys : NoDup keys.
Hypothesis Hlines : ∀ line, line ∈ lines ↔ line ∈ keys.

(** A breakpoint row that is a row of the buffer has a marker after the
    pass. *)
Lemma committedRows_reconciled_in (r : nat) :
  r ∈ lines → (r ≤ getLastBufferRow (_editor w))%nat → r ∈ committedRows w'.
Proof using Hwf Hlines.
  intros Hr Hle. rewrite committedRows_reconciled, elem_of_app.
  destruct (decide (r ∈ rowOf w <$> kept)) as [Hin|Hnot]; [by left|right].
  apply list_elem_of_fmap. exists r. split.
  - simpl. by rewrite row_clipLine_in_buffer.
  - unfold create. rewrite list_elem_of_filter, elem_of_difference, elem_of_list_to_set.
    split; [done|]. by apply Hlines.
Qed.

(** Every row of the store is a row of the buffer. *)
Hypothesis Hbuf : ∀ line, line ∈ lines → (line ≤ getLastBufferRow (_editor w))%nat.

Lemma created_in_buffer : (row ∘ clipLine (_editor w) <$> create) = create.
Proof using Hbuf.
  rewrite <- (list_fmap_id create) at 2. apply list_fmap_ext.
  intros i line Hline. simpl. apply row_clipLine_in_buffer, Hbuf.
  apply list_elem_of_lookup_2 in Hline. unfold create in Hline.
  apply list_elem_of_filter in Hline as [[Hline _]%elem_of_difference _].
  exact Hline.
Qed.

Lemma committedRows_reconciled_NoDup : NoDup (committedRows w').
Proof using Hwf Hkeys Hlines Hbuf.
  rewrite committedRows_reconciled, created_in_buffer.
  apply NoDup_app. split; [|split].
  - apply keptMarkers_NoDup_rows.
  - intros r Hr. unfold create. rewrite list_elem_of_filter. set_solver.
  - by apply NoDup_filter.
Qed.

Lemma committedRows_reconciled_lines (r : nat) :
  r ∈ committedRows w' ↔ r ∈ lines.
Proof using Hwf Hlines Hbuf.
  rewrite committedRows_reconciled, created_in_buffer, elem_of_app. unfold create.
  rewrite list_elem_of_filter, elem_of_difference, elem_of_list_to_set, <- Hlines.
  unfold kept. rewrite keptMarkers_rows.
  destruct (decide (r ∈ rowOf w <$> _markers w)); naive_solver.
Qed.

End Reconciled.

Lemma filter_ext_in {A} (P Q : A → Prop) `{∀ x, Decision (P x)} `{∀ x, Decision (Q x)}
    (l : list A) :
  (∀ x, x ∈ l → P x ↔ Q x) → filter P l = filter Q l.
Proof.
  induction l as [|x l IH]; intros Hext; [done|].
  rewrite !filter_cons.
  assert (filter P l = filter Q l) as ->.
  { apply IH. intros y Hy. apply Hext. by right. }
  destruct (decide (P x)) as [HP|HP], (decide (Q x)) as [HQ|HQ]; try done;
    exfalso; apply (Hext x) in HP || apply (Hext x) in HQ; try done; left.
Qed.

Lemma filter_all {A} (P : A → Prop) `{∀ x, Decision (P x)} (l : list A) :
  (∀ x, x ∈ l → P x) → filter P l = l.
Proof.
  induction l as [|x l IH]; intros Hall; [done|].
  rewrite filter_cons_True by (apply Hall; left).
  f_equal. apply IH. intros y Hy. apply Hall. by right.
Qed.

Lemma filter_none {A} (P : A → Prop) `{∀ x, Decision (P x)} (l : list A) :
  (∀ x, x ∈ l → ¬ P x) → filter P l = [].
Proof.
  induction l as [|x l IH]; intros Hall; [done|].
  rewrite filter_cons_False by (apply Hall; left).
  apply IH. intros y Hy. apply Hall. by right.
Qed.

Lemma commitCalls_no_destroy (m n : nat) (lines : list nat) :
  marker_destroy_call m ∉ commitCalls n lines.
Proof.
  revert n. induction lines as [|line lines IH]; intros n; simpl.
  - apply not_elem_of_nil.
  - rewrite !not_elem_of_cons. repeat split; try done; apply IH.
Qed.

Lemma traceSince_app (w w' : World) (ext : list Effect) :
  trace w' = trace w ++ ext → traceSince w w' = ext.
Proof. intros Ht. unfold traceSince. by rewrite Ht, drop_app_length. Qed.

(** The markers the first loop destroys are the markers of the list it
    does not keep, in order. *)
Lemma staleMarkers_filter (f : nat → nat) (ms : list nat) (unh : gset nat) :
  NoDup ms →
  staleMarkers f ms unh = filter (λ m, m ∉ keptMarkers f ms unh) ms.
Proof.
  revert unh. induction ms as [|m ms IH]; intros unh Hnd; [done|].
  apply NoDup_cons in Hnd as [Hm Hnd]. simpl. case_decide as Hin.
  - rewrite filter_cons_False by (intros Hn; apply Hn; left).
    rewrite IH by done. apply filter_ext_in. intros x Hx.
    rewrite not_elem_of_cons. split; [|naive_solver].
    intros Hn. split; [|done]. by intros ->.
  - rewrite filter_cons_True by (by intros ?%keptMarkers_subseteq).
    by rewrite IH.
Qed.

Lemma allDestroyed_lookup_in (ms : list nat) (w : World) (m : nat) :
  m ∈ ms → heap (allDestroyed ms w) !! m = destroyObj <$> heap w !! m.
Proof.
  revert w. induction ms as [|m0 ms IH]; intros w Hin; [by apply elem_of_nil in Hin|].
  simpl. fold (allDestroyed ms (destroyed m0 w)).
  destruct (decide (m ∈ ms)) as [Hin'|Hnot].
  - rewrite IH by done. simpl. rewrite list_lookup_alter.
    case_decide as Heq; [|done]. rewrite Heq. by destruct (heap w !! m).
  - apply elem_of_cons in Hin as [->|?]; [|done].
    destruct (allDestroyed_fields ms (destroyed m0 w)) as (_ & _ & Hsame & _).
    rewrite Hsame by done. simpl. by rewrite list_lookup_alter_eq.
Qed.

Lemma destructions_commitCalls (n : nat) (lines : list nat) :
  List.filter isDestruction (commitCalls n lines) = [].
Proof. revert n. induction lines as [|line lines IH]; intros n; simpl; [done|apply IH]. Qed.

Lemma destructions_destroy_calls (ms : list nat) :
  List.filter isDestruction (marker_destroy_call <$> ms) = marker_destroy_call <$> ms.
Proof.
  induction ms as [|m ms IH]; [done|].
  rewrite fmap_cons. cbn [List.filter isDestruction]. by rewrite IH.
Qed.

(** The creations of the second loop: marker [n + i] for the [i]-th line. *)
Lemma commitCalls_creation (n : nat) (lines : list nat) (m : nat) (p : Point)
    (s : InvalidationStrategy) :
  markBufferPosition_call m p s ∈ commitCalls n lines →
  ∃ line, lines !! (m - n) = Some line ∧ (n ≤ m)%nat ∧ p = point line ∧ s = never.
Proof.
  revert n. induction lines as [|line lines IH]; intros n; simpl.
  - by intros ?%elem_of_nil.
  - rewrite !elem_of_cons. intros [[= -> -> ->]|[[=]|[[=]|Hin]]].
    + exists line. by rewrite Nat.sub_diag.
    + apply IH in Hin as (line' & Hl & Hle & -> & ->). exists line'.
      split; [|split; [lia|done]].
      replace (m - n) with (S (m - S n)) by lia. done.
Qed.

(** C1, as the code has it: with the gutter in place, a path, a store
    whose two views agree and whose rows are rows of the buffer, and a
    committed list of distinct references to existing markers, one pass
    returns, and the rows of the new committed list are pairwise distinct
    and are exactly the breakpoint rows of the path.  The first marker of
    the old list at each breakpoint row is kept as the identical
    instance: its object is untouched and [destroy] is not called on it.
    Every other marker of the old list, at a row that is not a breakpoint
    row or at the row of an earlier marker of the list, is destroyed and
    is not in the new list; the pass calls [destroy] on exactly the
    markers of the old list that are not in the new one, once each, in
    the order of the old list.  Every marker of the new list whose row
    was the row of a marker of the old list is a marker of the old list,
    not a new one: each marker the pass creates is for a breakpoint row
    that no marker of the old list was at. *)
Theorem update_reconciles {V} (store : BreakpointStore V) (w : World)
    (g : Gutter) (path : string) :
  _gutter w = Some g →
  getPath (_editor w) = Some path →
  store_coherent store path →
  (∀ r, r ∈ getBreakpointLinesForPath store path →
        (r ≤ getLastBufferRow (_editor w))%nat) →
  markers_wf w →
  ∃ w', _update store w = Returned tt w'
    ∧ NoDup (committedRows w')
    ∧ (∀ r, r ∈ committedRows w' ↔ r ∈ getBreakpointLinesForPath store path)
    ∧ (∀ pre m post,
         _markers w = pre ++ m :: post →
         rowOf w m ∈ getBreakpointLinesForPath store path →
         rowOf w m ∉ rowOf w <$> pre →
         m ∈ _markers w' ∧ heap w' !! m = heap w !! m
         ∧ marker_destroy_call m ∉ traceSince w w')
    ∧ (∀ pre m post,
         _markers w = pre ++ m :: post →
         rowOf w m ∉ getBreakpointLinesForPath store path
         ∨ rowOf w m ∈ rowOf w <$> pre →
         (m ∉ _markers w') ∧ heap w' !! m = destroyObj <$> heap w !! m
         ∧ marker_destroy_call m ∈ traceSince w w')
    ∧ List.filter isDestruction (traceSince w w')
      = (marker_destroy_call <$> filter (λ m, m ∉ _markers w') (_markers w))
    ∧ (∀ m, m ∈ _markers w' → rowOf w' m ∈ committedRows w →
            m ∈ _markers w ∧ rowOf w' m = rowOf w m)
    ∧ (∀ m p s, markBufferPosition_call m p s ∈ traceSince w w' →
         (m ∉ _markers w) ∧ m ∈ _markers w' ∧ rowOf w' m = row p
         ∧ row p ∈ getBreakpointLinesForPath store path
         ∧ row p ∉ committedRows w).
Proof.
  intros Hg Hpath [Hkeys Hlines] Hbuf [Hnd Hlt].
  set (keys := (getBreakpointsForPath store path).*1) in *.
  set (lines := getBreakpointLinesForPath store path) in *.
  exists (reconciled keys lines w). split; [by apply (update_eq store w g)|].
  destruct (reconciled_fields keys lines w) as (Hm & Hh & Ht & _).
  pose proof (rowOf_reconciled_new keys lines w) as Hnew.
  rewrite (created_in_buffer keys lines w Hbuf) in Hnew.
  set (kept := keptMarkers (rowOf w) (_markers w) lines) in *.
  set (stale := staleMarkers (rowOf w) (_markers w) lines) in *.
  set (create := filter _ keys) in *.
  destruct (allDestroyed_fields stale w) as (Hl & _ & Hsame & _).
  assert (∀ m, m ∈ seq (length (heap w)) (length create) → m ∉ _markers w) as Hfresh.
  { intros m Hin%elem_of_seq Hold. rewrite Forall_forall in Hlt.
    apply Hlt in Hold. lia. }
  assert (∀ m, m ∈ stale → m ∉ _markers (reconciled keys lines w)) as Hgone.
  { intros m Hst. rewrite Hm, not_elem_of_app. split.
    - intros Hk. by apply (keptMarkers_not_stale (rowOf w) (_markers w) lines m Hnd).
    - intros Hin. apply (Hfresh m Hin). by apply staleMarkers_subseteq in Hst. }
  split; [by apply committedRows_reconciled_NoDup|].
  split; [by apply committedRows_reconciled_lines|].
  split; [|split; [|split; [|split]]].
  - intros pre m post Hsplit Hrow Hfirst.
    assert (m ∈ kept) as Hkept.
    { unfold kept. rewrite Hsplit. by apply keptMarkers_first. }
    assert (m ∉ stale) as Hstale by by apply keptMarkers_not_stale.
    split; [|split].
    + rewrite Hm. apply elem_of_app. by left.
    + rewrite Hh, lookup_app_l, Hsame; [done..|].
      rewrite Hl. by apply (kept_lt lines w).
    + rewrite (traceSince_app _ _ _ Ht), !not_elem_of_app. split; [|split].
      * intros (m' & [= ->] & Hin)%list_elem_of_fmap. done.
      * apply commitCalls_no_destroy.
      * by intros ?%list_elem_of_singleton.
  - intros pre m post Hsplit Hrow.
    assert (m ∈ stale) as Hst.
    { unfold stale. rewrite Hsplit. destruct Hrow as [Hrow|Hrow].
      - by apply staleMarkers_not_unhandled.
      - by apply staleMarkers_later. }
    split; [by apply Hgone|]. split.
    + assert (m < length (heap w)) as Hmlt.
      { rewrite Forall_forall in Hlt. apply Hlt. rewrite Hsplit.
        apply elem_of_app. right. left. }
      rewrite Hh, lookup_app_l by lia. by apply allDestroyed_lookup_in.
    + rewrite (traceSince_app _ _ _ Ht), elem_of_app. left.
      by apply list_elem_of_fmap_2.
  - assert (List.filter isDestruction (traceSince w (reconciled keys lines w))
            = marker_destroy_call <$> stale) as ->.
    { rewrite (traceSince_app _ _ _ Ht), !List.filter_app.
      rewrite destructions_commitCalls, destructions_destroy_calls. simpl.
      by rewrite app_nil_r. }
    f_equal. unfold stale.
    rewrite staleMarkers_filter by done. apply filter_ext_in.
    intros m Hin. rewrite Hm, not_elem_of_app. fold kept. split; [|naive_solver].
    intros Hk. split; [done|]. intros Hs. by apply (Hfresh m).
  - intros m Hin Hrow. rewrite Hm in Hin.
    apply elem_of_app in Hin as [Hin|Hin].
    + split; [by apply keptMarkers_subseteq in Hin|].
      by apply rowOf_reconciled_old, (kept_lt lines w).
    + exfalso.
      assert (rowOf (reconciled keys lines w) m ∈ create) as Hc.
      { rewrite <- Hnew. by apply list_elem_of_fmap_2. }
      unfold create in Hc. apply list_elem_of_filter in Hc as [Hc _].
      apply elem_of_difference in Hc as [Hc1 Hc2]. apply Hc2.
      rewrite elem_of_list_to_set. apply keptMarkers_rows. done.
  - intros m p s Hcall.
    rewrite (traceSince_app _ _ _ Ht), !elem_of_app in Hcall.
    destruct Hcall as [Hcall|[Hcall|Hcall]].
    { apply list_elem_of_fmap in Hcall as (? & [=] & _). }
    2: { apply list_elem_of_singleton in Hcall. discriminate. }
    apply commitCalls_creation in Hcall as (line & Hline & Hle & -> & ->).
    assert (m ∈ seq (length (heap w)) (length create)) as Hseq.
    { apply elem_of_seq. apply lookup_lt_Some in Hline. lia. }
    assert (rowOf (reconciled keys lines w) m = line) as Hrow.
    { apply (f_equal (λ l, l !! (m - length (heap w)))) in Hnew.
      rewrite Hline, list_lookup_fmap, lookup_seq_lt in Hnew
        by (apply lookup_lt_Some in Hline; lia).
      simpl in Hnew. replace (length (heap w) + (m - length (heap w))) with m in Hnew by lia.
      by injection Hnew. }
    apply list_elem_of_lookup_2 in Hline. unfold create in Hline.
    apply list_elem_of_filter in Hline as [[Hin Hnot]%elem_of_difference _].
    split; [by apply Hfresh|]. split; [rewrite Hm, elem_of_app; by right|].
    split; [done|]. split; [done|]. simpl.
    intros Hold. apply Hnot. rewrite elem_of_list_to_set.
    apply keptMarkers_rows. done.
Qed.

Lemma update_twice {V} (store : BreakpointStore V) (w : World)
    (g : Gutter) (path : string) :
  _gutter w = Some g →
  getPath (_editor w) = Some path →
  store_coherent store path →
  (∀ r, r ∈ getBreakpointLinesForPath store path →
        (r ≤ getLastBufferRow (_editor w))%nat) →
  markers_wf w →
  ∃ w1, _update store w = Returned tt w1
    ∧ _update store w1 = Returned tt (shown w1).
Proof.
  intros Hg Hpath [Hkeys Hlines] Hbuf [Hnd Hlt].
  set (keys := (getBreakpointsForPath store path).*1) in *.
  set (lines := getBreakpointLinesForPath store path) in *.
  set (w1 := reconciled keys lines w).
  exists w1.
  destruct (reconciled_fields keys lines w) as (_ & _ & _ & Hg1 & He1 & _).
  pose proof (committedRows_reconciled_NoDup keys lines w Hlt Hkeys Hlines Hbuf) as Hnd1.
  pose proof (committedRows_reconciled_lines keys lines w Hlt Hlines Hbuf) as Hlines1.
  fold w1 in Hg1, He1, Hnd1, Hlines1.
  split; [by apply (update_eq store w g)|].
  clearbody w1.
  rewrite (update_eq store w1 g path) by congruence.
  fold keys lines. unfold reconciled.
  destruct (keptMarkers_all (rowOf w1) (_markers w1) lines) as [-> ->].
  { exact Hnd1. }
  { intros m Hm. apply Hlines1. by apply list_elem_of_fmap_2. }
  rewrite filter_none.
  - cbn [length seq allCommitted allDestroyed foldl]. rewrite app_nil_r.
    reflexivity.
  - intros line Hkey [Hin Hnot]%elem_of_difference. apply Hnot.
    rewrite elem_of_list_to_set. by apply Hlines1.
Qed.

(** C6, as the code has it: when every breakpoint row of the path is a
    row of the buffer, a second pass right after a first, with the store
    unchanged, creates no marker and destroys none: it returns, the
    committed list holds the same markers in the same order, the marker
    objects are unchanged, and the only call it can make is
    [gutter.show()] (none at all when the gutter reference is void or the
    editor has no path). *)
Theorem update_idempotent {V} (store : BreakpointStore V) (w : World) :
  (∀ path, getPath (_editor w) = Some path → store_coherent store path) →
  (∀ path r, getPath (_editor w) = Some path →
             r ∈ getBreakpointLinesForPath store path →
             (r ≤ getLastBufferRow (_editor w))%nat) →
  markers_wf w →
  ∃ w1 w2, _update store w = Returned tt w1
    ∧ _update store w1 = Returned tt w2
    ∧ _markers w2 = _markers w1
    ∧ heap w2 = heap w1
    ∧ (traceSince w1 w2 = [gutter_show_call] ∨ traceSince w1 w2 = [])
    ∧ creations (trace w2) = creations (trace w1)
    ∧ destructions (trace w2) = destructions (trace w1).
Proof.
  intros Hstore Hbuf Hwf.
  destruct (_gutter w) as [g|] eqn:Hg;
    [destruct (getPath (_editor w)) as [path|] eqn:Hpath|].
  - destruct (update_twice store w g path Hg Hpath (Hstore path eq_refl)
                (λ r, Hbuf path r eq_refl) Hwf)
      as (w1 & H1 & H2).
    exists w1, (shown w1). repeat split; try done.
    + left. by apply traceSince_app.
    + simpl. rewrite creations_app. unfold creations. simpl. lia.
    + simpl. rewrite destructions_app. unfold destructions. simpl. lia.
  - exists w, w. rewrite update_no_path by done. repeat split; try done.
    right. apply traceSince_app. by rewrite app_nil_r.
  - exists w, w. rewrite update_no_gutter by done. repeat split; try done.
    right. apply traceSince_app. by rewrite app_nil_r.
Qed.

(** ** Examples of reconciliation *)

Lemma store_of_lines_coherent (lines : list nat) (path : string) :
  NoDup lines → store_coherent (store_of_lines lines) path.
Proof.
  intros Hnd. unfold store_coherent. simpl.
  assert (((λ line, (line, ())) <$> lines).*1 = lines) as ->.
  { induction lines as [|l ls IH]; simpl; [done|].
    f_equal. apply IH. by apply NoDup_cons in Hnd as [_ ?]. }
  split; [done|]. intros line. apply elem_of_list_to_set.
Qed.

Lemma world_259_wf : markers_wf world_259.
Proof.
  split.
  - apply (bool_decide_unpack _). reflexivity.
  - apply (bool_decide_unpack _). reflexivity.
Qed.

Lemma store_of_lines_in_buffer (lines : list nat) (path : string) (editor : TextEditor) :
  Forall (λ r, r ≤ getLastBufferRow editor)%nat lines →
  ∀ r, r ∈ getBreakpointLinesForPath (store_of_lines lines) path →
       (r ≤ getLastBufferRow editor)%nat.
Proof.
  intros Hall r Hr. simpl in Hr. apply elem_of_list_to_set in Hr.
  rewrite Forall_forall in Hall. by apply Hall.
Qed.

Lemma update_reconciles_witness :
  ∃ w', _update (store_of_lines [2; 9]) world_259 = Returned tt w'
    ∧ NoDup (committedRows w')
    ∧ (∀ r, r ∈ committedRows w' ↔ r ∈ getBreakpointLinesForPath (store_of_lines [2; 9]) "P")
    ∧ (∀ pre m post,
         _markers world_259 = pre ++ m :: post →
         rowOf world_259 m ∈ getBreakpointLinesForPath (store_of_lines [2; 9]) "P" →
         rowOf world_259 m ∉ rowOf world_259 <$> pre →
         m ∈ _markers w' ∧ heap w' !! m = heap world_259 !! m
         ∧ marker_destroy_call m ∉ traceSince world_259 w')
    ∧ (∀ pre m post,
         _markers world_259 = pre ++ m :: post →
         rowOf world_259 m ∉ getBreakpointLinesForPath (store_of_lines [2; 9]) "P"
         ∨ rowOf world_259 m ∈ rowOf world_259 <$> pre →
         (m ∉ _markers w') ∧ heap w' !! m = destroyObj <$> heap world_259 !! m
         ∧ marker_destroy_call m ∈ traceSince world_259 w')
    ∧ List.filter isDestruction (traceSince world_259 w')
      = (marker_destroy_call <$> filter (λ m, m ∉ _markers w') (_markers world_259))
    ∧ (∀ m, m ∈ _markers w' → rowOf w' m ∈ committedRows world_259 →
            m ∈ _markers world_259 ∧ rowOf w' m = rowOf world_259 m)
    ∧ (∀ m p s, markBufferPosition_call m p s ∈ traceSince world_259 w' →
         (m ∉ _markers world_259) ∧ m ∈ _markers w' ∧ rowOf w' m = row p
         ∧ row p ∈ getBreakpointLinesForPath (store_of_lines [2; 9]) "P"
         ∧ row p ∉ committedRows world_259).
Proof.
  apply (update_reconciles (store_of_lines [2; 9]) world_259
           nuclide_breakpoint_gutter "P").
  - reflexivity.
  - reflexivity.
  - apply store_of_lines_coherent. apply (bool_decide_unpack _). reflexivity.
  - apply store_of_lines_in_buffer. apply (bool_decide_unpack _). reflexivity.
  - exact world_259_wf.
Defined.

(** C1 as stated fails in two ways.  When an edit has brought two
    markers of the committed list to the same row (here the markers of
    rows 3 and 4, after row 4 was joined to row 3), the second marker's
    row is a row of the list and a breakpoint row, and the pass destroys
    it.  When the store holds a row past the end of the buffer (row 100
    of ten), the marker for it is put on the last row: the rows of the
    new list are not the rows of the store, and here they are not even
    distinct. *)
Lemma update_reconciles_counterexample :
  (_markers world_joined_rows = [0; 1]
   ∧ committedRows world_joined_rows = [3; 3]
   ∧ markers_wf world_joined_rows
   ∧ store_coherent (store_of_lines [3]) "P"
   ∧ 3 ∈ getBreakpointLinesForPath (store_of_lines [3]) "P"
   ∧ ∃ w', _update (store_of_lines [3]) world_joined_rows = Returned tt w'
       ∧ _markers w' = [0]
       ∧ isDestroyed <$> heap w' !! 1 = Some true
       ∧ traceSince world_joined_rows w' = [marker_destroy_call 1; gutter_show_call])
  ∧ (committedRows world_259 = [2; 5; 9]
     ∧ markers_wf world_259
     ∧ store_coherent (store_of_lines [2; 5; 9; 100]) "P"
     ∧ getLastBufferRow (_editor world_259) = 9
     ∧ ∃ w', _update (store_of_lines [2; 5; 9; 100]) world_259 = Returned tt w'
         ∧ _markers w' = [0; 1; 2; 3]
         ∧ startBufferPosition <$> heap w' !! 3 = Some {| row := 9; column := 12 |}
         ∧ committedRows w' = [2; 5; 9; 9]
         ∧ 100 ∈ getBreakpointLinesForPath (store_of_lines [2; 5; 9; 100]) "P"
         ∧ 100 ∉ committedRows w').
Proof.
  split.
  - split; [reflexivity|]. split; [reflexivity|].
    split; [split; apply (bool_decide_unpack _); reflexivity|].
    split; [apply store_of_lines_coherent; apply (bool_decide_unpack _); reflexivity|].
    split; [apply (bool_decide_unpack _); reflexivity|].
    eexists. split; [vm_compute; reflexivity|]. repeat split.
  - split; [reflexivity|]. split; [exact world_259_wf|].
    split; [apply store_of_lines_coherent; apply (bool_decide_unpack _); reflexivity|].
    split; [reflexivity|].
    eexists. split; [vm_compute; reflexivity|].
    split; [reflexivity|]. split; [reflexivity|]. split; [reflexivity|].
    split; apply (bool_decide_unpack _); reflexivity.
Qed.

Lemma update_idempotent_witness :
  ∃ w1 w2, _update (store_of_lines [2; 9]) world_259 = Returned tt w1
    ∧ _update (store_of_lines [2; 9]) w1 = Returned tt w2
    ∧ _markers w2 = _markers w1
    ∧ heap w2 = heap w1
    ∧ (traceSince w1 w2 = [gutter_show_call] ∨ traceSince w1 w2 = [])
    ∧ creations (trace w2) = creations (trace w1)
    ∧ destructions (trace w2) = destructions (trace w1).
Proof.
  apply (update_idempotent (store_of_lines [2; 9]) world_259).
  - intros path _. apply store_of_lines_coherent.
    apply (bool_decide_unpack _). reflexivity.
  - intros path r _. apply store_of_lines_in_buffer.
    apply (bool_decide_unpack _). reflexivity.
  - exact world_259_wf.
Defined.

(** C6 as stated fails when the store holds a row past the end of the
    buffer: the first pass puts the marker for row 100 on the last row,
    9; the second pass, with the store unchanged, finds that marker at a
    row that is not a breakpoint row, destroys it and creates another. *)
Lemma update_twice_recreates_marker :
  store_coherent (store_of_lines [2; 100]) "P"
  ∧ markers_wf world_259
  ∧ ∃ w1 w2, _update (store_of_lines [2; 100]) world_259 = Returned tt w1
      ∧ _update (store_of_lines [2; 100]) w1 = Returned tt w2
      ∧ _markers w1 = [0; 3]
      ∧ rowOf w1 3 = 9
      ∧ _markers w2 = [0; 4]
      ∧ traceSince w1 w2
        = [marker_destroy_call 3;
           markBufferPosition_call 4 (point 100) never;
           decorateMarker_call 4 (breakpointIconClass false);
           onDidChange_call 4;
           gutter_show_call]
      ∧ creations (trace w2) = creations (trace w1) + 1
      ∧ destructions (trace w2) = destructions (trace w1) + 1.
Proof.
  split.
  { apply store_of_lines_coherent. apply (bool_decide_unpack _). reflexivity. }
  split; [exact world_259_wf|].
  eexists. eexists. split; [vm_compute; reflexivity|].
  split; [vm_compute; reflexivity|]. repeat split.
Qed.

(** The committed list stays a list of distinct references to existing
    markers. *)
Lemma keptMarkers_NoDup (f : nat → nat) (ms : list nat) (unh : gset nat) :
  NoDup ms → NoDup (keptMarkers f ms unh).
Proof.
  revert unh. induction ms as [|m ms IH]; intros unh Hnd; simpl; [done|].
  apply NoDup_cons in Hnd as [Hm Hnd]. case_decide; [|by apply IH].
  apply NoDup_cons. split; [|by apply IH].
  by intros ?%keptMarkers_subseteq.
Qed.

Lemma reconciled_wf (keys : list nat) (lines : gset nat) (w : World) :
  markers_wf w → markers_wf (reconciled keys lines w).
Proof.
  intros [Hnd Hlt].
  destruct (reconciled_fields keys lines w) as (Hm & Hh & _).
  destruct (allDestroyed_fields
              (staleMarkers (rowOf w) (_markers w) lines) w) as (Hl & _).
  unfold markers_wf. rewrite Hm, Hh, length_app, Hl, length_fmap. split.
  - apply NoDup_app. split; [by apply keptMarkers_NoDup|]. split; [|apply NoDup_seq].
    intros m Hk%(kept_lt lines w Hlt) Hs%elem_of_seq. lia.
  - apply Forall_app. split; apply Forall_forall.
    + intros m Hk%(kept_lt lines w Hlt). lia.
    + intros m Hs%elem_of_seq. lia.
Qed.

(** ** Marker creation and invalidation *)




Lemma handleGutterClick_spec_witness :
  _handleGutterClick positionByClientY
    {| target_classList := ["icon"; "icon-right"]; clientX := 0; clientY := 7 |}
    world_259 = Returned tt world_259
  ∧ _handleGutterClick positionByClientY (mouseAt 7) world_259
    = Returned tt (log (dispatched (toggleBreakpoint "P" 7)) world_259).
Proof.
  split.
  - apply (handleGutterClick_spec positionByClientY
             {| target_classList := ["icon"; "icon-right"]; clientX := 0; clientY := 7 |}
             world_259).
    apply (bool_decide_unpack _). reflexivity.
  - apply (handleGutterClick_spec positionByClientY (mouseAt 7) world_259);
      [apply (bool_decide_unpack _); reflexivity | reflexivity | discriminate].
Defined.

Lemma world_259_shadow_inv : shadow_inv world_259.
Proof.
  intros m (o & Hlook & _ & Hdeco).
  destruct m as [|[|[|m]]]; simpl in Hlook; simplify_eq/=.
Qed.

Lemma hover_shadow_marker_witness :
  (∀ evs m1 m2,
     liveShadowMarker (deliver positionByClientY evs world_259) m1 →
     liveShadowMarker (deliver positionByClientY evs world_259) m2 → m1 = m2)
  ∧ _handleGutterMouseMove positionByClientY (mouseAt 3) world_259_hover3
    = Returned tt world_259_hover3
  ∧ (let w' := deliver positionByClientY
                 (mousemove <$> [mouseAt 3; mouseAt 4; mouseAt 7]) world_259 in
     creations (trace w') = creations (trace world_259) + 3
     ∧ destructions (trace w') = destructions (trace world_259) + 2)
  ∧ (let w' := deliver positionByClientY
                 (mousemove <$> [mouseAt 3; mouseAt 100; mouseAt 4]) world_259 in
     creations (trace w') = creations (trace world_259) + 3
     ∧ destructions (trace w') = destructions (trace world_259) + 2).
Proof.
  split; [|split; [|split]].
  - apply (hover_shadow_marker positionByClientY world_259 world_259_shadow_inv).
  - assert (shadow_inv world_259_hover3) as Hinv.
    { apply (shadow_inv_mousemove positionByClientY (mouseAt 3) world_259).
      exact world_259_shadow_inv. }
    apply (hover_shadow_marker positionByClientY world_259_hover3 Hinv) with (m := 3);
      reflexivity.
  - refine (proj1 (proj2 (proj2 (hover_shadow_marker positionByClientY world_259
                                   world_259_shadow_inv)))
              nuclide_breakpoint_gutter (mouseAt 3) [mouseAt 4; mouseAt 7] _ _ _ _);
      [reflexivity | reflexivity | apply (bool_decide_unpack _); reflexivity
       | apply (bool_decide_unpack _); reflexivity].
  - refine (proj2 (proj2 (proj2 (hover_shadow_marker positionByClientY world_259
                                   world_259_shadow_inv)))
              nuclide_breakpoint_gutter (mouseAt 3) [mouseAt 100; mouseAt 4] _ _ _);
      [reflexivity | reflexivity | apply (bool_decide_unpack _); reflexivity].
Defined.

(** Why the rows are taken as the editor places them: on the ten-line
    buffer a pointer move at row 100 puts the shadow marker on row 9, so
    a following move at row 9 is a move to the hovered row and creates
    nothing, although 100 and 9 differ. *)
Example hover_past_the_buffer :
  let w1 := world_of (_handleGutterMouseMove positionByClientY (mouseAt 100) world_259) in
  _lastShadowBreakpointMarker w1 = Some 3
  ∧ getStartBufferPosition 3 w1 = {| row := 9; column := 12 |}
  ∧ _handleGutterMouseMove positionByClientY (mouseAt 9) w1 = Returned tt w1.
Proof. repeat split. Qed.

(** ** Disposal *)

Lemma destroyAll_eq (ms : list nat) (w : World) :
  destroyAll ms w = Returned tt (allDestroyed ms w).
Proof.
  revert w. induction ms as [|m ms IH]; intros w; simpl; [done|].
  unfold marker_destroy. unfold_monad. apply IH.
Qed.

Lemma dispose_eq (w : World) : dispose w = Returned tt (disposed w).
Proof.
  unfold dispose, disposed, gutter_destroy. unfold_monad. simpl.
  rewrite destroyAll_eq.
  destruct (allDestroyed_fields (_markers w) (log disposables_dispose_call w))
    as (_ & _ & _ & _ & _ & Hg & _).
  rewrite Hg. simpl. by destruct (_gutter w).
Qed.

(** What [dispose] does: it returns; every committed marker is destroyed;
    the gutter is destroyed when the reference is not void, and left
    alone otherwise; the marker objects outside the committed list, the
    shadow marker among them, are left as they were. *)
Lemma dispose_spec (w : World) :
  dispose w = Returned tt (disposed w)
  ∧ (∀ m, m ∈ _markers w →
       isDestroyed <$> heap (disposed w) !! m = (λ _, true) <$> heap w !! m)
  ∧ (∀ m, m ∉ _markers w → heap (disposed w) !! m = heap w !! m)
  ∧ gutterDestroyed (disposed w)
    = match _gutter w with Some _ => true | None => gutterDestroyed w end
  ∧ _lastShadowBreakpointMarker (disposed w) = _lastShadowBreakpointMarker w.
Proof.
  split; [apply dispose_eq|].
  destruct (allDestroyed_fields (_markers w) (log disposables_dispose_call w))
    as (_ & _ & Hsame & Hd & _ & _ & _ & _ & Hs & Hgd).
  unfold disposed. destruct (_gutter w); simpl; repeat split; auto.
Qed.

(** C5 at a world that holds a shadow marker: [dispose] returns after
    releasing the subscriptions, destroying the three committed markers
    and destroying the gutter, and these are all the calls it makes; the
    shadow marker 3 is not destroyed, and the controller still holds it. *)
Theorem dispose_leaves_shadow_marker :
  _lastShadowBreakpointMarker world_259_hover3 = Some 3
  ∧ liveShadowMarker world_259_hover3 3
  ∧ ∃ w', dispose world_259_hover3 = Returned tt w'
      ∧ traceSince world_259_hover3 w'
        = [disposables_dispose_call; marker_destroy_call 0;
           marker_destroy_call 1; marker_destroy_call 2; gutter_destroy_call]
      ∧ liveShadowMarker w' 3
      ∧ _lastShadowBreakpointMarker w' = Some 3.
Proof.
  split; [reflexivity|]. split.
  - eexists. repeat split.
  - eexists. split; [vm_compute; reflexivity|].
    split; [reflexivity|]. split; [|reflexivity].
    eexists. repeat split.
Qed.

(** ** The void gutter *)

(** C7 at the world whose gutter was destroyed from outside: a
    reconciliation pass returns with the world untouched, but a pointer
    move over row 4 throws, after it has created a marker that nothing
    refers to. *)
Theorem hover_with_void_gutter_throws :
  _gutter world_259_gutter_gone = None
  ∧ _update (store_of_lines [2; 5; 9]) world_259_gutter_gone
    = Returned tt world_259_gutter_gone
  ∧ ∃ w', _handleGutterMouseMove positionByClientY (mouseAt 4) world_259_gutter_gone
          = Threw w'
      ∧ traceSince world_259_gutter_gone w'
        = [markBufferPosition_call 3 (point 4) never]
      ∧ heap w' !! 3 = Some (newMarkerObj (point 4) never)
      ∧ _lastShadowBreakpointMarker w' = None.
Proof.
  split; [reflexivity|]. split; [by apply update_no_gutter|].
  eexists. split; [vm_compute; reflexivity|]. repeat split.
Qed.

(** ** The hypotheses are invariants of the controller *)

Lemma allDestroyed_lookup (ms : list nat) (w : World) (m : nat) (o : MarkerObj) :
  heap (allDestroyed ms w) !! m = Some o →
  ∃ o0, heap w !! m = Some o0 ∧ decoration o = decoration o0
        ∧ (isDestroyed o = false → isDestroyed o0 = false).
Proof.
  revert w o. induction ms as [|m0 ms IH]; intros w o Hlook; simpl in Hlook.
  - by exists o.
  - apply IH in Hlook as (o1 & Hlook & Hdeco & Hlive). simpl in Hlook.
    rewrite list_lookup_alter in Hlook. case_decide as Hm.
    + subst m0. apply fmap_Some in Hlook as (o0 & Hlook & ->).
      exists o0. split; [done|]. split; [done|].
      intros Ho. apply Hlive in Ho. discriminate.
    + by exists o1.
Qed.

Lemma liveShadowMarker_reconciled (keys : list nat) (lines : gset nat)
    (w : World) (m : nat) :
  liveShadowMarker (reconciled keys lines w) m → liveShadowMarker w m.
Proof.
  intros (o & Hlook & Hlive & Hdeco).
  destruct (reconciled_fields keys lines w) as (_ & Hh & _).
  rewrite Hh in Hlook. apply lookup_app_Some in Hlook as [Hlook|[_ Hlook]].
  - apply allDestroyed_lookup in Hlook as (o0 & Hlook & Hd & Hl).
    exists o0. split; [done|]. split; [by apply Hl|congruence].
  - apply list_lookup_fmap_Some in Hlook as (line & -> & _). discriminate.
Qed.

Lemma update_shadow_inv {V} (store : BreakpointStore V) (w : World) :
  shadow_inv w → shadow_inv (world_of (_update store w)).
Proof.
  intros Hinv.
  destruct (_gutter w) as [g|] eqn:Hg;
    [destruct (getPath (_editor w)) as [path|] eqn:Hpath|].
  - rewrite (update_eq store w g path) by done. simpl.
    intros m Hlive%liveShadowMarker_reconciled.
    destruct (reconciled_fields ((getBreakpointsForPath store path).*1)
                (getBreakpointLinesForPath store path) w)
      as (_ & _ & _ & _ & _ & ->).
    by apply Hinv.
  - by rewrite update_no_path.
  - by rewrite update_no_gutter.
Qed.

Lemma update_wf {V} (store : BreakpointStore V) (w : World) :
  markers_wf w → markers_wf (world_of (_update store w)).
Proof.
  intros Hwf.
  destruct (_gutter w) as [g|] eqn:Hg;
    [destruct (getPath (_editor w)) as [path|] eqn:Hpath|].
  - rewrite (update_eq store w g path) by done. by apply reconciled_wf.
  - by rewrite update_no_path.
  - by rewrite update_no_gutter.
Qed.


Lemma unshadowed_wf (w : World) : markers_wf w → markers_wf (unshadowed w).
Proof.
  intros Hwf. unfold unshadowed.
  destruct (_lastShadowBreakpointMarker w); [|done].
  unfold markers_wf. simpl. by rewrite length_alter.
Qed.

Lemma marked_wf (p : Point) (s : InvalidationStrategy) (w : World) :
  markers_wf w → markers_wf (marked p s w).
Proof.
  intros [Hnd Hlt]. split; [done|]. simpl. rewrite length_app. simpl.
  eapply Forall_impl; [exact Hlt|]. simpl. lia.
Qed.

Lemma handlePointerEvent_wf bp (ev : PointerEvent) (w : World) :
  markers_wf w → markers_wf (world_of (handlePointerEvent bp ev w)).
Proof.
  intros Hwf. destruct ev as [event|event]; simpl.
  - rewrite handleGutterMouseMove_eq. simpl.
    destruct (isOver _ _); [done|].
    destruct (_gutter w); simpl.
    + apply (marked_wf (point (eventRow bp (_editor w) event)) never) in Hwf as Hwf'.
      apply unshadowed_wf in Hwf.
      apply (marked_wf (point (eventRow bp (_editor w) event)) never) in Hwf.
      destruct Hwf as [Hnd Hlt]. split; [done|]. simpl in *.
      by rewrite length_alter.
    + by apply marked_wf, unshadowed_wf.
  - unfold _handleGutterMouseLeave. rewrite removeLastShadowBreakpoint_eq.
    by apply unshadowed_wf.
Qed.

(** A marker of the committed list at the row of an earlier marker of the
    list is destroyed by the pass. *)
Lemma update_destroys_later_marker {V} (store : BreakpointStore V) (w : World)
    (g : Gutter) (path : string) (pre post : list nat) (m : nat) :
  _gutter w = Some g →
  getPath (_editor w) = Some path →
  _markers w = pre ++ m :: post →
  rowOf w m ∈ rowOf w <$> pre →
  marker_destroy_call m ∈ traceSince w (world_of (_update store w)).
Proof.
  intros Hg Hpath Hsplit Hrow.
  rewrite (update_eq store w g path) by done. simpl.
  destruct (reconciled_fields ((getBreakpointsForPath store path).*1)
              (getBreakpointLinesForPath store path) w) as (_ & _ & Ht & _).
  rewrite (traceSince_app _ _ _ Ht), elem_of_app. left.
  apply list_elem_of_fmap_2. rewrite Hsplit. by apply staleMarkers_later.
Qed.

(** ** The scenarios of the specification *)

(** Scenario A: the store holds rows 2, 5 and 9; the constructor creates
    three markers, at rows 2, 5 and 9, and shows the gutter. *)
Example scenario_A :
  _markers world_259 = [0; 1; 2]
  ∧ committedRows world_259 = [2; 5; 9]
  ∧ creations (trace world_259) = 3
  ∧ gutterVisible world_259 = true.
Proof. repeat split. Qed.

(** Scenario B: row 5 is removed from the store; the pass destroys the
    marker of row 5 and keeps the markers of rows 2 and 9. *)
Example scenario_B :
  ∃ w', _update (store_of_lines [2; 9]) world_259 = Returned tt w'
    ∧ _markers w' = [0; 2]
    ∧ traceSince world_259 w' = [marker_destroy_call 1; gutter_show_call]
    ∧ gutterVisible w' = true.
Proof. eexists. split; [vm_compute; reflexivity|]. repeat split. Qed.

(** Scenario C: a click at row 7 dispatches [toggleBreakpoint(P, 7)]; once
    the store holds row 7, the pass creates a marker at row 7. *)
Example scenario_C :
  ∃ w1 w2,
    _handleGutterClick positionByClientY (mouseAt 7) world_259 = Returned tt w1
    ∧ traceSince world_259 w1 = [dispatched (toggleBreakpoint "P" 7)]
    ∧ _update (store_of_lines [2; 5; 9; 7]) w1 = Returned tt w2
    ∧ _markers w2 = [0; 1; 2; 3]
    ∧ committedRows w2 = [2; 5; 9; 7].
Proof.
  eexists. eexists. split; [vm_compute; reflexivity|].
  split; [reflexivity|]. split; [vm_compute; reflexivity|]. repeat split.
Qed.

(** ** The worlds the handlers leave *)

Lemma handleBreakpointsChanged_eq {V} (store : BreakpointStore V) (path : string) (w : World) :
  _handleBreakpointsChanged store path w
  = if decide (Some path = getPath (_editor w)) then _update store w
    else Returned tt w.
Proof.
  unfold _handleBreakpointsChanged. unfold_monad. by case_decide.
Qed.

Lemma update_world {V} (store : BreakpointStore V) (w : World) :
  _update store w
  = Returned tt
      (match _gutter w, getPath (_editor w) with
       | Some _, Some path =>
           reconciled ((getBreakpointsForPath store path).*1)
             (getBreakpointLinesForPath store path) w
       | _, _ => w
       end).
Proof.
  destruct (_gutter w) as [g|] eqn:Hg;
    [destruct (getPath (_editor w)) as [path|] eqn:Hpath|].
  - by apply (update_eq store w g).
  - by apply update_no_path.
  - by apply update_no_gutter.
Qed.

Lemma handleGutterClick_world bp (event : MouseEvent) (w : World) :
  _handleGutterClick bp event w = Returned tt w
  ∨ ∃ path, getPath (_editor w) = Some path ∧ path ≠ ""
      ∧ ("icon-right" ∉ target_classList event)
      ∧ _handleGutterClick bp event w
        = Returned tt (log (dispatched (toggleBreakpoint path (eventRow bp (_editor w) event))) w).
Proof.
  unfold _handleGutterClick, _getCurrentMouseEventLine, eventRow. unfold_monad.
  destruct (decide ("icon-right" ∈ target_classList event)) as [Hin|Hnotin];
    [by left|].
  destruct (truthy_path (getPath (_editor w))) as [path|] eqn:Hpath; [|by left].
  right. apply truthy_path_Some in Hpath as [Hpath Hne]. exists path.
  by rewrite Hpath.
Qed.

Lemma handleMarkerChange_world (event : MarkerChangeEvent) (w : World) :
  _handleMarkerChange event w = Returned tt w
  ∨ (∃ path, getPath (_editor w) = Some path ∧ path ≠ "" ∧ isValid event = false
       ∧ _handleMarkerChange event w
         = Returned tt (log (dispatched (deleteBreakpoint path (row (newHeadBufferPosition event)))) w))
  ∨ (∃ path, getPath (_editor w) = Some path ∧ path ≠ "" ∧ isValid event = true
       ∧ row (oldHeadBufferPosition event) ≠ row (newHeadBufferPosition event)
       ∧ _handleMarkerChange event w
         = Returned tt
             (log (dispatched (addBreakpoint path (row (newHeadBufferPosition event))))
                (log (dispatched (deleteBreakpoint path (row (oldHeadBufferPosition event)))) w))).
Proof.
  unfold _handleMarkerChange. unfold_monad.
  destruct (truthy_path (getPath (_editor w))) as [path|] eqn:Hpath; [|by left].
  apply truthy_path_Some in Hpath as [Hpath Hne].
  destruct (isValid event) eqn:Hvalid; simpl.
  - destruct (decide (row (oldHeadBufferPosition event)
                      ≠ row (newHeadBufferPosition event))) as [Hneq|Heq]; [|by left].
    right. right. exists path. by rewrite Hpath.
  - right. left. exists path. by rewrite Hpath.
Qed.


Lemma handleGutterMouseLeave_eq (event : MouseEvent) (w : World) :
  _handleGutterMouseLeave event w = Returned tt (unshadowed w).
Proof. apply removeLastShadowBreakpoint_eq. Qed.

(** *** Buffer edits *)

Lemma dispatchedAll_fields (actions : list Action) (w : World) :
  let w' := dispatchedAll actions w in
  _editor w' = _editor w ∧ _gutter w' = _gutter w ∧ _markers w' = _markers w
  ∧ _lastShadowBreakpointMarker w' = _lastShadowBreakpointMarker w
  ∧ heap w' = heap w
  ∧ trace w' = trace w ++ (dispatched <$> actions).
Proof.
  revert w. induction actions as [|a actions IH]; intros w; simpl.
  - by rewrite app_nil_r.
  - destruct (IH (log (dispatched a) w)) as (He & Hg & Hm & Hs & Hh & Ht).
    fold (dispatchedAll actions (log (dispatched a) w)).
    rewrite He, Hg, Hm, Hs, Hh, Ht. simpl. by rewrite <- app_assoc.
Qed.

Lemma dispatchedAll_app (a1 a2 : list Action) (w : World) :
  dispatchedAll (a1 ++ a2) w = dispatchedAll a2 (dispatchedAll a1 w).
Proof. apply foldl_app. Qed.

(** A marker change only dispatches, and only for the path of the
    editor. *)
Lemma handleMarkerChange_dispatches (event : MarkerChangeEvent) (w : World) :
  ∃ actions,
    world_of (_handleMarkerChange event w) = dispatchedAll actions w
    ∧ (actions = []
       ∨ ∃ path, getPath (_editor w) = Some path
           ∧ (actions = [deleteBreakpoint path (row (newHeadBufferPosition event))]
              ∨ actions = [deleteBreakpoint path (row (oldHeadBufferPosition event));
                           addBreakpoint path (row (newHeadBufferPosition event))])).
Proof.
  destruct (handleMarkerChange_world event w)
    as [->|[(path & Hp & _ & _ & ->)|(path & Hp & _ & _ & _ & ->)]].
  - exists []. split; [done|by left].
  - eexists [_]. split; [done|]. right. exists path. split; [done|by left].
  - eexists [_; _]. split; [done|]. right. exists path. split; [done|by right].
Qed.

Lemma deliverChanges_dispatches (events : list MarkerChangeEvent) (w : World) :
  ∃ actions, deliverChanges events w = dispatchedAll actions w.
Proof.
  revert w. induction events as [|event events IH]; intros w; simpl.
  - by exists [].
  - destruct (handleMarkerChange_dispatches event w) as (a1 & -> & _).
    fold (deliverChanges events (dispatchedAll a1 w)).
    destruct (IH (dispatchedAll a1 w)) as (a2 & ->).
    exists (a1 ++ a2). by rewrite dispatchedAll_app.
Qed.

Lemma handling_editedObj (e : BufferEdit) (editor : TextEditor) (o : MarkerObj) :
  handling (editedObj e editor o) = handling o.
Proof. unfold editedObj. by destruct (isDestroyed o). Qed.

Lemma edited_fields (e : BufferEdit) (w : World) :
  let w' := edited e w in
  getPath (_editor w') = getPath (_editor w)
  ∧ _gutter w' = _gutter w ∧ _markers w' = _markers w
  ∧ _lastShadowBreakpointMarker w' = _lastShadowBreakpointMarker w
  ∧ length (heap w') = length (heap w)
  ∧ (∀ m, heap w' !! m = editedObj e (_editor w) <$> heap w !! m)
  ∧ trace w' = trace w.
Proof.
  simpl. rewrite length_fmap. repeat split; try done.
  intros m. apply list_lookup_fmap.
Qed.

(** The world an edit leaves, once the subscribers have run. *)
Lemma step_edit {V} bp (e : BufferEdit) (w : World) :
  ∃ actions, step (V := V) bp (stepBufferChanged e) w = dispatchedAll actions (edited e w).
Proof. apply deliverChanges_dispatches. Qed.

Lemma liveShadowMarker_edited (e : BufferEdit) (w : World) (m : nat) :
  liveShadowMarker (edited e w) m ↔ liveShadowMarker w m.
Proof.
  unfold liveShadowMarker. destruct (edited_fields e w) as (_ & _ & _ & _ & _ & Hh & _).
  rewrite Hh. split.
  - intros (o' & Ho' & Hlive & Hdeco).
    apply fmap_Some in Ho' as (o & Ho & ->). exists o.
    pose proof (handling_editedObj e (_editor w) o) as [= _ Hd Hc].
    split; [done|]. split; congruence.
  - intros (o & Ho & Hlive & Hdeco). exists (editedObj e (_editor w) o).
    pose proof (handling_editedObj e (_editor w) o) as [= _ Hd Hc].
    rewrite Ho. split; [done|]. split; congruence.
Qed.

Lemma liveShadowMarker_dispatchedAll (actions : list Action) (w : World) (m : nat) :
  liveShadowMarker (dispatchedAll actions w) m ↔ liveShadowMarker w m.
Proof.
  unfold liveShadowMarker.
  destruct (dispatchedAll_fields actions w) as (_ & _ & _ & _ & -> & _). done.
Qed.

(** *** Marker objects under the pointer handlers *)

Lemma unshadowed_fields (w : World) :
  _markers (unshadowed w) = _markers w
  ∧ _editor (unshadowed w) = _editor w
  ∧ _lastShadowBreakpointMarker (unshadowed w) = None
  ∧ length (heap (unshadowed w)) = length (heap w)
  ∧ trace (unshadowed w)
    = trace w ++ match _lastShadowBreakpointMarker w with
                 | Some s => [marker_destroy_call s]
                 | None => []
                 end
  ∧ (∀ m, _lastShadowBreakpointMarker w ≠ Some m →
          heap (unshadowed w) !! m = heap w !! m).
Proof.
  unfold unshadowed. destruct (_lastShadowBreakpointMarker w) as [s|] eqn:Hs; simpl.
  - rewrite length_alter. repeat split; try done.
    intros m Hm. apply list_lookup_alter_ne. congruence.
  - rewrite app_nil_r. repeat split; done.
Qed.

Lemma marked_lookup (p : Point) (s : InvalidationStrategy) (w : World) (m : nat) :
  m < length (heap w) → heap (marked p s w) !! m = heap w !! m.
Proof. intros Hm. simpl. by apply lookup_app_l. Qed.

Lemma hovering_lookup (line : nat) (w : World) (m : nat) :
  m < length (heap w) → heap (hovering line w) !! m = heap w !! m.
Proof.
  intros Hm. simpl. rewrite list_lookup_alter_ne by lia. by apply lookup_app_l.
Qed.

Lemma hovering_length (line : nat) (w : World) :
  length (heap (hovering line w)) = S (length (heap w)).
Proof. simpl. rewrite length_alter, length_app. simpl. lia. Qed.

(** The world a pointer move leaves, whether it returned or threw. *)
Lemma mousemove_world bp (event : MouseEvent) (w : World) :
  world_of (_handleGutterMouseMove bp event w)
  = let curLine := eventRow bp (_editor w) event in
    if isOver w curLine then w
    else match _gutter w with
         | Some _ => hovering curLine (unshadowed w)
         | None => marked (point curLine) never (unshadowed w)
         end.
Proof.
  rewrite handleGutterMouseMove_eq. simpl.
  destruct (isOver _ _); [done|]. by destruct (_gutter w).
Qed.

(** *** The three invariants *)

Lemma shadow_apart_reconciled (keys : list nat) (lines : gset nat) (w : World) :
  shadow_apart w → shadow_apart (reconciled keys lines w).
Proof.
  intros Hap s Hs.
  destruct (reconciled_fields keys lines w) as (Hm & Hh & _ & _ & _ & Hlast).
  destruct (allDestroyed_fields
              (staleMarkers (rowOf w) (_markers w) lines) w) as (Hl & _).
  rewrite Hlast in Hs. apply Hap in Hs as [Hnot Hlt].
  rewrite Hm, Hh, length_app, Hl. split; [|lia].
  rewrite not_elem_of_app. split.
  - by intros ?%keptMarkers_subseteq.
  - intros ?%elem_of_seq. lia.
Qed.

Lemma update_shadow_apart {V} (store : BreakpointStore V) (w : World) :
  shadow_apart w → shadow_apart (world_of (_update store w)).
Proof.
  intros Hap. rewrite update_world. simpl.
  destruct (_gutter w); [|done]. destruct (getPath (_editor w)); [|done].
  by apply shadow_apart_reconciled.
Qed.

Lemma mousemove_shadow_apart bp (event : MouseEvent) (w : World) :
  markers_wf w → shadow_apart w →
  shadow_apart (world_of (_handleGutterMouseMove bp event w)).
Proof.
  intros [_ Hlt] Hap. rewrite mousemove_world. simpl.
  destruct (isOver _ _); [done|].
  destruct (unshadowed_fields w) as (Hm & _ & Hlast & Hlen & _).
  destruct (_gutter w); intros s Hs.
  - simpl in Hs. rewrite Hlen in Hs. injection Hs as <-.
    assert (_markers (hovering (eventRow bp (_editor w) event) (unshadowed w))
            = _markers w) as -> by (simpl; exact Hm).
    rewrite hovering_length, Hlen. split; [|lia].
    intros Hin. rewrite Forall_forall in Hlt. apply Hlt in Hin. lia.
  - simpl in Hs. congruence.
Qed.

Lemma unshadowed_shadow_apart (w : World) : shadow_apart (unshadowed w).
Proof.
  intros s Hs. destruct (unshadowed_fields w) as (_ & _ & Hlast & _). congruence.
Qed.

Lemma handleEvent_inv {V} bp (ev : ControllerEvent V) (w : World) :
  controller_inv w → controller_inv (world_of (handleEvent bp ev w)).
Proof.
  intros (Hwf & Hsh & Hap). destruct ev as [store path|event|event|event|event| |]; simpl.
  - rewrite handleBreakpointsChanged_eq. case_decide; [|done].
    split; [by apply update_wf|]. split; [by apply update_shadow_inv|].
    by apply update_shadow_apart.
  - destruct (handleGutterClick_world bp event w) as [->|(path & _ & _ & _ & ->)]; done.
  - split; [by apply (handlePointerEvent_wf bp (mousemove event))|].
    split; [by apply shadow_inv_mousemove|]. by apply mousemove_shadow_apart.
  - split; [by apply (handlePointerEvent_wf bp (mouseleave event))|].
    split; [by apply shadow_inv_mouseleave|].
    rewrite handleGutterMouseLeave_eq. apply unshadowed_shadow_apart.
  - destruct (handleMarkerChange_world event w)
      as [->|[(path & _ & _ & _ & ->)|(path & _ & _ & _ & _ & ->)]]; done.
  - done.
  - done.
Qed.

Lemma edited_inv (e : BufferEdit) (w : World) :
  controller_inv w → controller_inv (edited e w).
Proof.
  intros ([Hnd Hlt] & Hsh & Hap).
  destruct (edited_fields e w) as (_ & _ & Hm & Hs & Hl & _).
  split; [|split].
  - split; rewrite Hm; [done|]. by rewrite Hl.
  - intros m Hlive%liveShadowMarker_edited. rewrite Hs. by apply Hsh.
  - intros s. rewrite Hs, Hm, Hl. apply Hap.
Qed.

Lemma dispatchedAll_inv (actions : list Action) (w : World) :
  controller_inv w → controller_inv (dispatchedAll actions w).
Proof.
  intros ([Hnd Hlt] & Hsh & Hap).
  destruct (dispatchedAll_fields actions w) as (_ & _ & Hm & Hs & Hh & _).
  split; [|split].
  - split; rewrite Hm; [done|]. by rewrite Hh.
  - intros m Hlive%liveShadowMarker_dispatchedAll. rewrite Hs. by apply Hsh.
  - intros s. rewrite Hs, Hm, Hh. apply Hap.
Qed.

Lemma step_inv {V} bp (s : Step V) (w : World) :
  controller_inv w → controller_inv (step bp s w).
Proof.
  intros Hinv. destruct s as [store path|event|event|event| | |e];
    try (by apply handleEvent_inv).
  destruct (step_edit (V := V) bp e w) as (actions & ->).
  by apply dispatchedAll_inv, edited_inv.
Qed.

Lemma run_inv {V} bp (steps : list (Step V)) (w : World) :
  controller_inv w → controller_inv (run bp steps w).
Proof.
  revert w. induction steps as [|s steps IH]; intros w Hinv; simpl; [done|].
  by apply IH, step_inv.
Qed.



(** ** Markers the controller does not hold *)

Lemma foreign_reconciled (keys : list nat) (lines : gset nat) (w : World) (m : nat) :
  foreign w m →
  heap (reconciled keys lines w) !! m = heap w !! m
  ∧ foreign (reconciled keys lines w) m.
Proof.
  intros (Hlt & Hnot & Hsh).
  destruct (reconciled_fields keys lines w) as (Hm & Hh & _ & _ & _ & Hlast).
  destruct (allDestroyed_fields
              (staleMarkers (rowOf w) (_markers w) lines) w) as (Hl & _ & Hsame & _).
  split.
  - rewrite Hh, lookup_app_l by lia. apply Hsame.
    by intros ?%staleMarkers_subseteq.
  - unfold foreign. rewrite Hm, Hh, length_app, Hl, Hlast.
    split; [lia|]. split; [|done]. rewrite not_elem_of_app. split.
    + by intros ?%keptMarkers_subseteq.
    + intros ?%elem_of_seq. lia.
Qed.

Lemma foreign_unshadowed (w : World) (m : nat) :
  foreign w m →
  heap (unshadowed w) !! m = heap w !! m ∧ foreign (unshadowed w) m.
Proof.
  intros (Hlt & Hnot & Hsh).
  destruct (unshadowed_fields w) as (Hm & _ & Hlast & Hlen & _ & Hsame).
  split; [by apply Hsame|]. unfold foreign. rewrite Hm, Hlast, Hlen. done.
Qed.

Lemma foreign_mousemove bp (event : MouseEvent) (w : World) (m : nat) :
  foreign w m →
  heap (world_of (_handleGutterMouseMove bp event w)) !! m = heap w !! m
  ∧ foreign (world_of (_handleGutterMouseMove bp event w)) m.
Proof.
  intros Hf. rewrite mousemove_world. simpl.
  destruct (isOver _ _); [done|].
  destruct (foreign_unshadowed w m Hf) as (Hsame & Hlt & Hnot & Hsh).
  destruct (_gutter w).
  - rewrite hovering_lookup by done. split; [done|].
    unfold foreign. rewrite hovering_length. split; [lia|]. split; [done|].
    simpl. intros [= Heq]. lia.
  - rewrite marked_lookup by done. split; [done|].
    unfold foreign. simpl. rewrite length_app. simpl. split; [lia|]. done.
Qed.

Lemma foreign_handleEvent {V} bp (ev : ControllerEvent V) (w : World) (m : nat) :
  foreign w m →
  heap (world_of (handleEvent bp ev w)) !! m = heap w !! m
  ∧ foreign (world_of (handleEvent bp ev w)) m.
Proof.
  intros Hf. destruct ev as [store path|event|event|event|event| |]; simpl.
  - rewrite handleBreakpointsChanged_eq. case_decide; [|done].
    rewrite update_world. simpl.
    destruct (_gutter w); [|done]. destruct (getPath (_editor w)); [|done].
    by apply foreign_reconciled.
  - destruct (handleGutterClick_world bp event w) as [->|(path & _ & _ & _ & ->)]; done.
  - by apply foreign_mousemove.
  - rewrite handleGutterMouseLeave_eq. by apply foreign_unshadowed.
  - destruct (handleMarkerChange_world event w)
      as [->|[(path & _ & _ & _ & ->)|(path & _ & _ & _ & _ & ->)]]; done.
  - done.
  - done.
Qed.

Lemma foreign_dispose (w : World) (m : nat) :
  foreign w m → heap (disposed w) !! m = heap w !! m.
Proof. intros (_ & Hnot & _). by apply dispose_spec. Qed.

Lemma handleEvent_editor {V} bp (ev : ControllerEvent V) (w : World) :
  _editor (world_of (handleEvent bp ev w)) = _editor w.
Proof.
  destruct ev as [store p|event|event|event|event| |]; simpl; try done.
  - rewrite handleBreakpointsChanged_eq. case_decide; [|done].
    rewrite update_world. simpl.
    destruct (_gutter w); [|done]. destruct (getPath (_editor w)) as [path|]; [|done].
    by destruct (reconciled_fields ((getBreakpointsForPath store path).*1)
                   (getBreakpointLinesForPath store path) w) as (_ & _ & _ & _ & He & _).
  - destruct (handleGutterClick_world bp event w) as [->|(p & _ & _ & _ & ->)]; done.
  - rewrite mousemove_world. simpl. destruct (isOver _ _); [done|].
    destruct (unshadowed_fields w) as (_ & He & _).
    destruct (_gutter w); simpl; exact He.
  - rewrite handleGutterMouseLeave_eq. simpl.
    by destruct (unshadowed_fields w) as (_ & He & _).
  - destruct (handleMarkerChange_world event w)
      as [->|[(p & _ & _ & _ & ->)|(p & _ & _ & _ & _ & ->)]]; done.
Qed.

Lemma handling_movedBy (edits : list BufferEdit) (editor : TextEditor) (o : MarkerObj) :
  handling (movedBy edits editor o) = handling o.
Proof.
  revert editor o. induction edits as [|e edits IH]; intros editor o; simpl; [done|].
  by rewrite IH, handling_editedObj.
Qed.

Lemma foreign_step_edit {V} bp (e : BufferEdit) (w : World) (m : nat) :
  foreign w m →
  let w' := step (V := V) bp (stepBufferChanged e) w in
  heap w' !! m = editedObj e (_editor w) <$> heap w !! m
  ∧ _editor w' = editedEditor e (_editor w)
  ∧ foreign w' m.
Proof.
  intros (Hlt & Hnot & Hsh) w'. subst w'.
  destruct (step_edit (V := V) bp e w) as (actions & Hstep). rewrite Hstep.
  destruct (dispatchedAll_fields actions (edited e w)) as (He & _ & Hm & Hs & Hh & _).
  destruct (edited_fields e w) as (_ & _ & Hm' & Hs' & Hl & Hlook & _).
  rewrite Hh, He, Hlook. split; [done|]. split; [done|].
  unfold foreign. by rewrite Hh, Hm, Hs, Hl, Hm', Hs'.
Qed.

Lemma foreign_run {V} bp (steps : list (Step V)) (w : World) (m : nat) :
  foreign w m →
  heap (run bp steps w) !! m = movedBy (editsOf steps) (_editor w) <$> heap w !! m
  ∧ foreign (run bp steps w) m.
Proof.
  revert w. induction steps as [|s steps IH]; intros w Hf.
  - simpl. split; [|done]. by destruct (heap w !! m).
  - assert (∀ ev : ControllerEvent V, step bp s w = world_of (handleEvent bp ev w) →
                  editsOf (s :: steps) = editsOf steps →
                  heap (run bp (s :: steps) w) !! m
                  = movedBy (editsOf (s :: steps)) (_editor w) <$> heap w !! m
                  ∧ foreign (run bp (s :: steps) w) m) as Hev.
    { intros ev Hs ->. simpl. rewrite Hs.
      destruct (foreign_handleEvent bp ev w m Hf) as [Hsame Hf'].
      destruct (IH _ Hf') as [H1 H2]. by rewrite H1, Hsame, handleEvent_editor. }
    destruct s as [store path|event|event|event| | |e];
      try (by eapply Hev).
    destruct (foreign_step_edit (V := V) bp e w m Hf) as (Hlook & He & Hf').
    destruct (IH _ Hf') as [H1 H2]. cbn [run editsOf movedBy].
    split; [|done]. rewrite H1, Hlook, He. by destruct (heap w !! m).
Qed.

(** X: a marker of the editor that is neither in the committed list nor
    the held shadow marker is never touched by the controller.  After any
    sequence of steps its object is the one the buffer edits among them
    made of it: it is where the edits took it, and it is not destroyed
    and not decorated, and a final [dispose] leaves it so.  After steps
    without an edit the object is as it was. *)
Theorem foreign_markers_untouched {V} bp (steps : list (Step V))
    (w : World) (m : Marker) :
  foreign w m →
  let w' := run bp steps w in
  heap w' !! m = movedBy (editsOf steps) (_editor w) <$> heap w !! m
  ∧ heap (world_of (dispose w')) !! m = heap w' !! m
  ∧ handling <$> heap w' !! m = handling <$> heap w !! m
  ∧ (editsOf steps = [] →
     heap w' !! m = heap w !! m
     ∧ heap (world_of (dispose w')) !! m = heap w !! m).
Proof.
  intros Hf w'. destruct (foreign_run bp steps w m Hf) as [Hmoved Hf'].
  assert (heap (world_of (dispose w')) !! m = heap w' !! m) as Hdisposed.
  { rewrite dispose_eq. by apply foreign_dispose. }
  split; [done|]. split; [done|]. split.
  - unfold w'. rewrite Hmoved. destruct (heap w !! m); [|done].
    simpl. by rewrite handling_movedBy.
  - intros Hnone. rewrite Hdisposed. unfold w'. rewrite Hmoved, Hnone.
    by destruct (heap w !! m).
Qed.

Lemma foreign_markers_untouched_witness :
  let w := world_of (constructor (store_of_lines [2]) editor_P
                       [newMarkerObj (point 1) overlap]) in
  let steps := [stepMouseMove (mouseAt 1);
                stepNeedUIUpdate (store_of_lines [1]) "P";
                stepBufferChanged delete_row_6;
                stepMouseLeave (mouseAt 1)] in
  let w' := run positionByClientY steps w in
  heap w' !! 0 = movedBy (editsOf steps) (_editor w) <$> heap w !! 0
  ∧ heap (world_of (dispose w')) !! 0 = heap w' !! 0
  ∧ handling <$> heap w' !! 0 = handling <$> heap w !! 0
  ∧ (editsOf steps = [] →
     heap w' !! 0 = heap w !! 0
     ∧ heap (world_of (dispose w')) !! 0 = heap w !! 0).
Proof.
  apply (foreign_markers_untouched positionByClientY).
  split; [vm_compute; lia|]. split; [|discriminate].
  apply (bool_decide_unpack _). reflexivity.
Defined.

(** ** Exceptions *)

(** X: the only entry point that can throw is the pointer move, and it
    throws exactly when the gutter reference is void and the pointer is
    not over the row of the held shadow marker.  Store notifications,
    clicks, pointer leaves, marker changes and the destroy notifications
    return in every world, and so do [dispose] and the constructor. *)
Theorem only_mousemove_throws {V} bp (ev : ControllerEvent V) (w : World) :
  ((∃ w', handleEvent bp ev w = Threw w')
   ↔ ∃ event, ev = evGutterMouseMove event ∧ _gutter w = None
              ∧ isOver w (eventRow bp (_editor w) event) = false)
  ∧ (∃ w', dispose w = Returned tt w')
  ∧ (∀ (store : BreakpointStore V) editor heap0,
       ∃ w', constructor store editor heap0 = Returned tt w').
Proof.
  split; [|split].
  - destruct ev as [store path|event|event|event|event| |]; simpl.
    + rewrite handleBreakpointsChanged_eq. case_decide; [rewrite update_world|];
        split; [intros [? ?]; discriminate | intros (? & ? & _); discriminate
               | intros [? ?]; discriminate | intros (? & ? & _); discriminate].
    + split; [|intros (? & ? & _); discriminate].
      destruct (handleGutterClick_world bp event w) as [->|(path & _ & _ & _ & ->)];
        intros [? ?]; discriminate.
    + rewrite handleGutterMouseMove_eq. simpl. split.
      * intros [w' Hw']. exists event. split; [done|].
        destruct (isOver _ _); [discriminate|]. by destruct (_gutter w).
      * intros (event' & [= <-] & -> & ->). by eexists.
    + rewrite handleGutterMouseLeave_eq.
      split; [intros [? ?]; discriminate | intros (? & ? & _); discriminate].
    + split; [|intros (? & ? & _); discriminate].
      destruct (handleMarkerChange_world event w)
        as [->|[(path & _ & _ & _ & ->)|(path & _ & _ & _ & _ & ->)]];
        intros [? ?]; discriminate.
    + split; [intros [? ?]; discriminate | intros (? & ? & _); discriminate].
    + split; [intros [? ?]; discriminate | intros (? & ? & _); discriminate].
  - rewrite dispose_eq. by eexists.
  - intros store editor heap0. unfold constructor. rewrite update_world. by eexists.
Qed.

(** ** What is dispatched *)

Lemma dispatches_app (t1 t2 : list Effect) :
  dispatches (t1 ++ t2) = dispatches t1 ++ dispatches t2.
Proof. apply omap_app. Qed.

Lemma dispatches_destroy_calls (ms : list nat) :
  dispatches (marker_destroy_call <$> ms) = [].
Proof. by induction ms. Qed.

Lemma dispatches_commitCalls (n : nat) (lines : list nat) :
  dispatches (commitCalls n lines) = [].
Proof. revert n. induction lines as [|l ls IH]; intros n; simpl; [done|]. apply IH. Qed.

Lemma dispatches_reconciled (keys : list nat) (lines : gset nat) (w : World) :
  dispatches (trace (reconciled keys lines w)) = dispatches (trace w).
Proof.
  destruct (reconciled_fields keys lines w) as (_ & _ & -> & _).
  rewrite !dispatches_app, dispatches_destroy_calls, dispatches_commitCalls.
  simpl. by rewrite app_nil_r.
Qed.

Lemma dispatches_unshadowed (w : World) :
  dispatches (trace (unshadowed w)) = dispatches (trace w).
Proof.
  destruct (unshadowed_fields w) as (_ & _ & _ & _ & -> & _).
  rewrite dispatches_app. destruct (_lastShadowBreakpointMarker w); simpl;
    by rewrite app_nil_r.
Qed.

Lemma dispatches_mousemove bp (event : MouseEvent) (w : World) :
  dispatches (trace (world_of (_handleGutterMouseMove bp event w)))
  = dispatches (trace w).
Proof.
  rewrite mousemove_world. simpl. destruct (isOver _ _); [done|].
  destruct (_gutter w); simpl;
    rewrite ?dispatches_app; simpl; rewrite ?app_nil_r; apply dispatches_unshadowed.
Qed.

(** X: every action the controller dispatches is for the path of its own
    editor, and comes from a click or from a marker change: a click
    dispatches at most one [toggleBreakpoint] and nothing else, a marker
    change dispatches nothing, one [deleteBreakpoint], or one
    [deleteBreakpoint] followed by one [addBreakpoint]; store
    notifications, pointer moves and leaves and the destroy notifications
    dispatch nothing. *)
Theorem dispatched_actions {V} bp (ev : ControllerEvent V) (w : World) :
  ∃ actions,
    dispatches (trace (world_of (handleEvent bp ev w)))
    = dispatches (trace w) ++ actions
    ∧ match ev with
      | evGutterClick event =>
          actions = []
          ∨ ∃ path, getPath (_editor w) = Some path
              ∧ actions = [toggleBreakpoint path (eventRow bp (_editor w) event)]
      | evMarkerChange event =>
          actions = []
          ∨ ∃ path, getPath (_editor w) = Some path
              ∧ (actions = [deleteBreakpoint path (row (newHeadBufferPosition event))]
                 ∨ actions = [deleteBreakpoint path (row (oldHeadBufferPosition event));
                              addBreakpoint path (row (newHeadBufferPosition event))])
      | _ => actions = []
      end.
Proof.
  destruct ev as [store path|event|event|event|event| |]; simpl.
  - exists []. rewrite app_nil_r. split; [|done].
    rewrite handleBreakpointsChanged_eq. case_decide; [|done].
    rewrite update_world. simpl.
    destruct (_gutter w); [|done]. destruct (getPath (_editor w)); [|done].
    apply dispatches_reconciled.
  - destruct (handleGutterClick_world bp event w) as [->|(path & Hpath & _ & _ & ->)].
    + exists []. rewrite app_nil_r. split; [done|by left].
    + eexists. simpl. rewrite dispatches_app. split; [done|]. right. by exists path.
  - exists []. rewrite app_nil_r. split; [|done]. apply dispatches_mousemove.
  - exists []. rewrite app_nil_r. split; [|done].
    rewrite handleGutterMouseLeave_eq. apply dispatches_unshadowed.
  - destruct (handleMarkerChange_world event w)
      as [->|[(path & Hpath & _ & _ & ->)|(path & Hpath & _ & _ & _ & ->)]].
    + exists []. rewrite app_nil_r. split; [done|by left].
    + eexists. simpl. rewrite dispatches_app. split; [done|].
      right. exists path. split; [done|]. by left.
    + eexists. simpl. rewrite !dispatches_app, <- app_assoc. split; [done|].
      right. exists path. split; [done|]. by right.
  - exists []. by rewrite app_nil_r.
  - exists []. simpl. rewrite dispatches_app. simpl. by rewrite app_nil_r.
Qed.


(** ** The committed markers outside a pass *)

Lemma handleEvent_committed_frame {V} bp (ev : ControllerEvent V) (w : World) :
  controller_inv w →
  (∀ store path, ev = evBreakpointsChanged store path →
                 Some path ≠ getPath (_editor w)) →
  let w' := world_of (handleEvent bp ev w) in
  _markers w' = _markers w
  ∧ ∀ m, m ∈ _markers w → heap w' !! m = heap w !! m.
Proof.
  intros ([Hnd Hlt] & Hsh & Hap) Hother.
  assert (∀ m, m ∈ _markers w →
            m < length (heap w) ∧ _lastShadowBreakpointMarker w ≠ Some m) as Hm.
  { intros m Hin. split.
    - rewrite Forall_forall in Hlt. by apply Hlt.
    - intros Hs. apply Hap in Hs as [Hnot _]. done. }
  destruct ev as [store path|event|event|event|event| |]; simpl.
  - rewrite handleBreakpointsChanged_eq.
    rewrite decide_False by (by apply (Hother store path)). done.
  - destruct (handleGutterClick_world bp event w) as [->|(path & _ & _ & _ & ->)]; done.
  - rewrite mousemove_world. simpl. destruct (isOver _ _); [done|].
    destruct (unshadowed_fields w) as (Hmk & _ & _ & Hlen & _ & Hsame).
    destruct (_gutter w); (split; [exact Hmk|]); intros m [Hlt' Hne]%Hm.
    + rewrite hovering_lookup by lia. by apply Hsame.
    + rewrite marked_lookup by lia. by apply Hsame.
  - rewrite handleGutterMouseLeave_eq.
    destruct (unshadowed_fields w) as (Hmk & _ & _ & _ & _ & Hsame).
    split; [done|]. intros m [_ Hne]%Hm. by apply Hsame.
  - destruct (handleMarkerChange_world event w)
      as [->|[(path & _ & _ & _ & ->)|(path & _ & _ & _ & _ & ->)]]; done.
  - done.
  - done.
Qed.

(** X: only a store notification for the editor's own path changes the
    committed markers.  Any other event (a notification for another path,
    a click, a pointer move or leave, a marker change, a destroy
    notification) leaves the committed list and the object of every
    committed marker as they were. *)
Theorem committed_markers_frame {V} bp (ev : ControllerEvent V) (w : World) :
  controller_inv w →
  (∀ store path, ev = evBreakpointsChanged store path →
                 Some path ≠ getPath (_editor w)) →
  let w' := world_of (handleEvent bp ev w) in
  _markers w' = _markers w
  ∧ ∀ m, m ∈ _markers w → heap w' !! m = heap w !! m.
Proof. apply handleEvent_committed_frame. Qed.

Lemma world_259_inv : controller_inv world_259.
Proof.
  split; [exact world_259_wf|]. split; [exact world_259_shadow_inv|].
  intros s Hs. discriminate.
Qed.

Lemma committed_markers_frame_witness :
  let w' := world_of (handleEvent (V := unit) positionByClientY
                        (evGutterMouseMove (mouseAt 5)) world_259) in
  _markers w' = _markers world_259
  ∧ ∀ m, m ∈ _markers world_259 → heap w' !! m = heap world_259 !! m.
Proof.
  apply (committed_markers_frame (V := unit) positionByClientY
           (evGutterMouseMove (mouseAt 5)) world_259).
  - exact world_259_inv.
  - intros store path Hev. discriminate.
Defined.

(** ** After the gutter is gone *)

Lemma gutterCalls_app (t1 t2 : list Effect) :
  gutterCalls (t1 ++ t2) = gutterCalls t1 ++ gutterCalls t2.
Proof. apply List.filter_app. Qed.

Lemma gutterCalls_destroy_calls (ms : list nat) :
  gutterCalls (marker_destroy_call <$> ms) = [].
Proof. by induction ms. Qed.

Lemma gutterCalls_unshadowed (w : World) :
  gutterCalls (trace (unshadowed w)) = gutterCalls (trace w).
Proof.
  destruct (unshadowed_fields w) as (_ & _ & _ & _ & -> & _).
  rewrite gutterCalls_app. destruct (_lastShadowBreakpointMarker w); simpl;
    by rewrite app_nil_r.
Qed.

Lemma void_gutter_handleEvent {V} bp (ev : ControllerEvent V) (w : World) :
  _gutter w = None →
  _gutter (world_of (handleEvent bp ev w)) = None
  ∧ gutterCalls (trace (world_of (handleEvent bp ev w))) = gutterCalls (trace w).
Proof.
  intros Hg. destruct ev as [store path|event|event|event|event| |]; simpl.
  - rewrite handleBreakpointsChanged_eq. case_decide; [|done].
    by rewrite update_no_gutter.
  - destruct (handleGutterClick_world bp event w) as [->|(path & _ & _ & _ & ->)];
      [done|]. simpl. rewrite gutterCalls_app. simpl. by rewrite app_nil_r.
  - rewrite mousemove_world. simpl. destruct (isOver _ _); [done|].
    rewrite Hg. simpl. rewrite unshadowed_gutter, gutterCalls_app. simpl.
    by rewrite app_nil_r, gutterCalls_unshadowed.
  - rewrite handleGutterMouseLeave_eq. simpl.
    by rewrite unshadowed_gutter, gutterCalls_unshadowed.
  - destruct (handleMarkerChange_world event w)
      as [->|[(path & _ & _ & _ & ->)|(path & _ & _ & _ & _ & ->)]]; [done|..];
      simpl; rewrite ?gutterCalls_app; simpl; by rewrite ?app_nil_r.
  - done.
  - simpl. rewrite gutterCalls_app. simpl. by rewrite app_nil_r.
Qed.

Lemma gutterCalls_dispatched (actions : list Action) :
  gutterCalls (dispatched <$> actions) = [].
Proof. by induction actions. Qed.

Lemma void_gutter_step {V} bp (s : Step V) (w : World) :
  _gutter w = None →
  _gutter (step bp s w) = None
  ∧ gutterCalls (trace (step bp s w)) = gutterCalls (trace w).
Proof.
  intros Hg. destruct s as [store path|event|event|event| | |e];
    try (by apply void_gutter_handleEvent).
  destruct (step_edit (V := V) bp e w) as (actions & ->).
  destruct (dispatchedAll_fields actions (edited e w)) as (_ & Hg' & _ & _ & _ & Ht).
  destruct (edited_fields e w) as (_ & Hg'' & _ & _ & _ & _ & Ht').
  rewrite Hg', Hg'', Ht, Ht', gutterCalls_app, gutterCalls_dispatched, app_nil_r. done.
Qed.

Lemma void_gutter_run {V} bp (steps : list (Step V)) (w : World) :
  _gutter w = None →
  _gutter (run bp steps w) = None
  ∧ gutterCalls (trace (run bp steps w)) = gutterCalls (trace w).
Proof.
  revert w. induction steps as [|s steps IH]; intros w Hg; simpl; [done|].
  destruct (void_gutter_step bp s w Hg) as [Hg' Hc].
  destruct (IH _ Hg') as [Hg'' Hc']. split; [done|]. by rewrite Hc', Hc.
Qed.

Lemma void_gutter_dispose (w : World) :
  _gutter w = None →
  gutterCalls (trace (world_of (dispose w))) = gutterCalls (trace w).
Proof.
  intros Hg. rewrite dispose_eq. simpl. unfold disposed. rewrite Hg.
  destruct (allDestroyed_fields (_markers w) (log disposables_dispose_call w))
    as (_ & _ & _ & _ & -> & _).
  simpl. rewrite !gutterCalls_app, gutterCalls_destroy_calls. simpl.
  by rewrite !app_nil_r.
Qed.

(** X: once the gutter or the text editor has been reported destroyed,
    the gutter reference stays void and the gutter object is never called
    again: whatever steps follow (buffer edits included), and through a
    final [dispose], there is no further [show], [decorateMarker] or
    [destroy] call on it. *)
Theorem gutter_never_used_after_destruction {V} bp (s0 : Step V)
    (steps : list (Step V)) (w : World) :
  s0 = stepGutterDestroyed ∨ s0 = stepEditorDestroyed →
  let w' := run bp (s0 :: steps) w in
  _gutter w' = None
  ∧ gutterCalls (trace w') = gutterCalls (trace w)
  ∧ gutterCalls (trace (world_of (dispose w'))) = gutterCalls (trace w).
Proof.
  intros Hs0 w'.
  assert (_gutter (step bp s0 w) = None
          ∧ gutterCalls (trace (step bp s0 w)) = gutterCalls (trace w)) as [Hg Hc].
  { destruct Hs0 as [-> | ->]; simpl; [done|].
    rewrite gutterCalls_app. simpl. by rewrite app_nil_r. }
  destruct (void_gutter_run bp steps _ Hg) as [Hg' Hc'].
  unfold w'. simpl. split; [done|]. split; [by rewrite Hc', Hc|].
  by rewrite void_gutter_dispose, Hc', Hc.
Qed.

Lemma gutter_never_used_after_destruction_witness :
  let w' := run positionByClientY
              [stepGutterDestroyed; stepNeedUIUpdate (store_of_lines [2]) "P";
               stepBufferChanged delete_row_6;
               stepMouseLeave (mouseAt 3)] world_259_hover3 in
  _gutter w' = None
  ∧ gutterCalls (trace w') = gutterCalls (trace world_259_hover3)
  ∧ gutterCalls (trace (world_of (dispose w'))) = gutterCalls (trace world_259_hover3).
Proof.
  apply (gutter_never_used_after_destruction positionByClientY stepGutterDestroyed).
  by left.
Defined.

(** ** Hovering leaks no marker *)

Lemma creations_unshadowed (w : World) :
  creations (trace (unshadowed w)) = creations (trace w)
  ∧ destructions (trace (unshadowed w)) = destructions (trace w) + held w.
Proof.
  destruct (unshadowed_fields w) as (_ & _ & _ & _ & -> & _).
  rewrite creations_app, destructions_app. unfold held.
  destruct (_lastShadowBreakpointMarker w); unfold creations, destructions; simpl; lia.
Qed.

Lemma handlePointerEvent_balanced bp (ev : PointerEvent) (w : World) (g : Gutter) :
  _gutter w = Some g →
  let w' := world_of (handlePointerEvent bp ev w) in
  _gutter w' = Some g
  ∧ creations (trace w') + destructions (trace w) + held w
    = creations (trace w) + destructions (trace w') + held w'.
Proof.
  intros Hg. destruct (creations_unshadowed w) as [Hc Hd].
  destruct ev as [event|event]; simpl.
  - rewrite mousemove_world. simpl. destruct (isOver _ _); [done|].
    rewrite Hg. simpl. rewrite unshadowed_gutter.
    rewrite !creations_app, !destructions_app, Hc, Hd.
    unfold creations, destructions, held. simpl. split; [done|]. lia.
  - unfold _handleGutterMouseLeave. rewrite removeLastShadowBreakpoint_eq. simpl.
    rewrite unshadowed_gutter, Hc, Hd.
    destruct (unshadowed_fields w) as (_ & _ & Hlast & _).
    unfold held at 3. rewrite Hlast. split; [done|]. lia.
Qed.

Lemma deliver_app bp (evs1 evs2 : list PointerEvent) (w : World) :
  deliver bp (evs1 ++ evs2) w = deliver bp evs2 (deliver bp evs1 w).
Proof. revert w. induction evs1 as [|ev evs1 IH]; intros w; simpl; [done|]. apply IH. Qed.

Lemma deliver_balanced bp (evs : list PointerEvent) (w : World) (g : Gutter) :
  _gutter w = Some g →
  let w' := deliver bp evs w in
  _gutter w' = Some g
  ∧ creations (trace w') + destructions (trace w) + held w
    = creations (trace w) + destructions (trace w') + held w'.
Proof.
  revert w. induction evs as [|ev evs IH]; intros w Hg; simpl; [done|].
  destruct (handlePointerEvent_balanced bp ev w g Hg) as [Hg' Hb].
  destruct (IH _ Hg') as [Hg'' Hb']. split; [done|]. simpl in *. lia.
Qed.

(** X: with the gutter in place, hovering leaks no marker: over any
    sequence of pointer moves and leaves, the markers created exceed the
    markers destroyed by exactly the change in the number of held shadow
    markers (0 or 1); in particular, from no shadow marker held, once the
    pointer has left, as many markers were destroyed as were created. *)
Theorem hover_balanced bp (evs : list PointerEvent) (w : World) (g : Gutter) :
  _gutter w = Some g →
  (let w' := deliver bp evs w in
   creations (trace w') + destructions (trace w) + held w
   = creations (trace w) + destructions (trace w') + held w')
  ∧ (∀ event, _lastShadowBreakpointMarker w = None →
       let w' := deliver bp (evs ++ [mouseleave event]) w in
       _lastShadowBreakpointMarker w' = None
       ∧ creations (trace w') + destructions (trace w)
         = creations (trace w) + destructions (trace w')).
Proof.
  intros Hg. split; [by apply (deliver_balanced bp evs w g)|].
  intros event Hidle.
  destruct (deliver_balanced bp (evs ++ [mouseleave event]) w g Hg) as [_ Hb].
  simpl in *. rewrite deliver_app in *. simpl in *.
  unfold _handleGutterMouseLeave in *. rewrite removeLastShadowBreakpoint_eq in *.
  simpl in *.
  destruct (unshadowed_fields (deliver bp evs w)) as (_ & _ & Hlast & _).
  split; [done|]. unfold held in Hb at 1 2. rewrite Hidle, Hlast in Hb. lia.
Qed.

Lemma hover_balanced_witness :
  (let w' := deliver positionByClientY
               [mousemove (mouseAt 3); mousemove (mouseAt 3); mousemove (mouseAt 4)]
               world_259 in
   creations (trace w') + destructions (trace world_259) + held world_259
   = creations (trace world_259) + destructions (trace w') + held w')
  ∧ (∀ event, _lastShadowBreakpointMarker world_259 = None →
       let w' := deliver positionByClientY
                   ([mousemove (mouseAt 3); mousemove (mouseAt 3); mousemove (mouseAt 4)]
                    ++ [mouseleave event]) world_259 in
       _lastShadowBreakpointMarker w' = None
       ∧ creations (trace w') + destructions (trace world_259)
         = creations (trace world_259) + destructions (trace w')).
Proof.
  apply (hover_balanced positionByClientY _ world_259 nuclide_breakpoint_gutter).
  reflexivity.
Defined.

(** ** Pointer leave *)

(** X: a pointer leave never throws, with or without a gutter.  It
    destroys the held shadow marker and nothing else, and leaves no shadow
    marker held; when no shadow marker is held it does nothing, so a
    second leave is a no-op.  When every existing shadow marker was the
    held one, no shadow marker exists afterwards. *)
Theorem mouseLeave_clears_shadow (event : MouseEvent) (w : World) :
  ∃ w', _handleGutterMouseLeave event w = Returned tt w'
    ∧ _lastShadowBreakpointMarker w' = None
    ∧ traceSince w w'
      = match _lastShadowBreakpointMarker w with
        | Some s => [marker_destroy_call s]
        | None => []
        end
    ∧ (∀ s o, _lastShadowBreakpointMarker w = Some s → heap w !! s = Some o →
              heap w' !! s = Some (destroyObj o))
    ∧ (_lastShadowBreakpointMarker w = None → w' = w)
    ∧ (∀ event', _handleGutterMouseLeave event' w' = Returned tt w')
    ∧ (shadow_inv w → ∀ m, ¬ liveShadowMarker w' m).
Proof.
  exists (unshadowed w). split; [apply handleGutterMouseLeave_eq|].
  destruct (unshadowed_fields w) as (_ & _ & Hlast & _ & Ht & _).
  split; [done|]. split; [by apply traceSince_app|].
  split; [|split; [|split]].
  - intros s o Hs Ho. unfold unshadowed. rewrite Hs. simpl.
    by rewrite list_lookup_alter_eq, Ho.
  - intros Hs. unfold unshadowed. by rewrite Hs.
  - intros event'. rewrite handleGutterMouseLeave_eq. f_equal.
    unfold unshadowed at 1. by rewrite Hlast.
  - intros Hinv m. by apply liveShadowMarker_unshadowed.
Qed.

(** ** What a pass creates and destroys *)

Lemma keptMarkers_sublist (f : nat → nat) (ms : list nat) (unh : gset nat) :
  keptMarkers f ms unh `sublist_of` ms.
Proof.
  revert unh. induction ms as [|m ms IH]; intros unh; simpl; [done|].
  case_decide; [by apply sublist_skip|by apply sublist_cons].
Qed.

Lemma kept_stale_length (f : nat → nat) (ms : list nat) (unh : gset nat) :
  length (keptMarkers f ms unh) + length (staleMarkers f ms unh) = length ms.
Proof.
  revert unh. induction ms as [|m ms IH]; intros unh; simpl; [done|].
  case_decide; simpl.
  - specialize (IH (unh ∖ {[f m]})). lia.
  - specialize (IH unh). lia.
Qed.

Lemma creations_destroy_calls (ms : list nat) :
  creations (marker_destroy_call <$> ms) = 0
  ∧ destructions (marker_destroy_call <$> ms) = length ms.
Proof.
  unfold creations, destructions. induction ms as [|m ms [IH1 IH2]]; simpl; [done|].
  split; [done|]. f_equal. exact IH2.
Qed.

Lemma creations_commitCalls (n : nat) (lines : list nat) :
  creations (commitCalls n lines) = length lines
  ∧ destructions (commitCalls n lines) = 0.
Proof.
  unfold creations, destructions. revert n.
  induction lines as [|l ls IH]; intros n; simpl; [done|].
  destruct (IH (S n)) as [IH1 IH2]. split; [f_equal; exact IH1 | exact IH2].
Qed.

(** X: what a pass costs.  With the gutter in place, a path, a coherent
    store and a well-formed committed list, the pass creates one marker
    for each breakpoint row that no committed marker is at, in the
    iteration order of the store's map, as new marker objects appended
    after the kept ones; each new marker is where the editor puts it: at
    its breakpoint row when that is a row of the buffer, on the last row
    otherwise.  The pass destroys the committed markers it does not
    keep, and it keeps one marker for each breakpoint row that some
    committed marker is at, in their old order.  The new list has as many
    markers as there are breakpoint rows. *)
Theorem update_creates_and_destroys {V} (store : BreakpointStore V) (w : World)
    (g : Gutter) (path : string) :
  _gutter w = Some g →
  getPath (_editor w) = Some path →
  store_coherent store path →
  markers_wf w →
  let B := getBreakpointLinesForPath store path in
  let R : gset nat := list_to_set (committedRows w) in
  let missing := filter (λ line, line ∉ committedRows w)
                   ((getBreakpointsForPath store path).*1) in
  ∃ w' kept,
    _update store w = Returned tt w'
    ∧ _markers w' = kept ++ seq (length (heap w)) (length missing)
    ∧ kept `sublist_of` _markers w
    ∧ rowOf w' <$> seq (length (heap w)) (length missing)
      = (row ∘ clipLine (_editor w) <$> missing)
    ∧ ((∀ r, r ∈ B → (r ≤ getLastBufferRow (_editor w))%nat) →
       rowOf w' <$> seq (length (heap w)) (length missing) = missing)
    ∧ creations (traceSince w w') = size (B ∖ R)
    ∧ length kept = size (B ∩ R)
    ∧ destructions (traceSince w w') + size (B ∩ R) = length (_markers w)
    ∧ length (_markers w') = size B.
Proof.
  intros Hg Hpath [Hkeys Hlines] [Hnd Hlt] B R missing.
  set (keys := (getBreakpointsForPath store path).*1) in *.
  exists (reconciled keys B w), (keptMarkers (rowOf w) (_markers w) B).
  split; [by apply (update_eq store w g)|].
  destruct (reconciled_fields keys B w) as (Hm & Hh & Ht & _).
  pose proof (rowOf_reconciled_new keys B w) as Hnew.
  set (kept := keptMarkers (rowOf w) (_markers w) B) in *.
  set (stale := staleMarkers (rowOf w) (_markers w) B) in *.
  assert (filter (λ line, line ∈ B ∖ list_to_set (rowOf w <$> kept)) keys = missing)
    as Hcreate.
  { apply filter_ext_in. intros line Hline.
    rewrite elem_of_difference, elem_of_list_to_set.
    unfold kept. rewrite keptMarkers_rows. unfold committedRows.
    apply Hlines in Hline. naive_solver. }
  rewrite Hcreate in Hm, Hh, Ht, Hnew.
  assert (NoDup missing) as Hndm by (by apply NoDup_filter).
  assert (list_to_set missing = B ∖ R) as Hset.
  { apply set_eq. intros line. unfold missing, R.
    rewrite elem_of_list_to_set, list_elem_of_filter, elem_of_difference,
      elem_of_list_to_set, <- Hlines. naive_solver. }
  assert (list_to_set (rowOf w <$> kept) = B ∩ R) as Hsetk.
  { apply set_eq. intros line. unfold kept, R.
    rewrite elem_of_list_to_set, keptMarkers_rows, elem_of_intersection,
      elem_of_list_to_set. done. }
  assert (length kept = size (B ∩ R)) as Hlenk.
  { rewrite <- Hsetk, size_list_to_set, length_fmap; [done|].
    apply keptMarkers_NoDup_rows. }
  assert (length missing = size (B ∖ R)) as Hlenm.
  { by rewrite <- Hset, size_list_to_set. }
  split; [done|]. split; [apply keptMarkers_sublist|]. split; [done|].
  split.
  { intros Hbuf. rewrite Hnew. rewrite <- (list_fmap_id missing) at 2.
    apply list_fmap_ext. intros i line Hline. simpl.
    apply row_clipLine_in_buffer, Hbuf, Hlines.
    apply list_elem_of_lookup_2 in Hline. unfold missing in Hline.
    by apply list_elem_of_filter in Hline as [_ Hline]. }
  assert (creations (traceSince w (reconciled keys B w)) = length missing
          ∧ destructions (traceSince w (reconciled keys B w)) = length stale)
    as [-> ->].
  { rewrite (traceSince_app _ _ _ Ht), !creations_app, !destructions_app.
    destruct (creations_destroy_calls stale) as [-> ->].
    destruct (creations_commitCalls (length (heap w)) missing) as [-> ->].
    unfold creations, destructions. simpl. lia. }
  pose proof (kept_stale_length (rowOf w) (_markers w) B) as Hks.
  fold kept stale in Hks.
  split; [lia|]. split; [done|]. split; [lia|].
  rewrite Hm, length_app, length_seq, Hlenk, Hlenm, <- size_union by set_solver.
  f_equal. apply set_eq. intros line.
  rewrite elem_of_union, elem_of_intersection, elem_of_difference.
  destruct (decide (line ∈ R)); naive_solver.
Qed.

Lemma update_creates_and_destroys_witness :
  let B := getBreakpointLinesForPath (store_of_lines [9; 7; 2; 40]) "P" in
  let R : gset nat := list_to_set (committedRows world_259) in
  let missing := filter (λ line, line ∉ committedRows world_259)
                   ((getBreakpointsForPath (store_of_lines [9; 7; 2; 40]) "P").*1) in
  ∃ w' kept,
    _update (store_of_lines [9; 7; 2; 40]) world_259 = Returned tt w'
    ∧ _markers w' = kept ++ seq (length (heap world_259)) (length missing)
    ∧ kept `sublist_of` _markers world_259
    ∧ rowOf w' <$> seq (length (heap world_259)) (length missing)
      = (row ∘ clipLine (_editor world_259) <$> missing)
    ∧ ((∀ r, r ∈ B → (r ≤ getLastBufferRow (_editor world_259))%nat) →
       rowOf w' <$> seq (length (heap world_259)) (length missing) = missing)
    ∧ creations (traceSince world_259 w') = size (B ∖ R)
    ∧ length kept = size (B ∩ R)
    ∧ destructions (traceSince world_259 w') + size (B ∩ R) = length (_markers world_259)
    ∧ length (_markers w') = size B.
Proof.
  apply (update_creates_and_destroys (store_of_lines [9; 7; 2; 40]) world_259
           nuclide_breakpoint_gutter "P").
  - reflexivity.
  - reflexivity.
  - apply store_of_lines_coherent. apply (bool_decide_unpack _). reflexivity.
  - exact world_259_wf.
Defined.

(** ** The shadow marker through a pass *)

Lemma reconciled_lookup_other (keys : list nat) (lines : gset nat) (w : World) (m : nat) :
  m < length (heap w) → m ∉ _markers w →
  heap (reconciled keys lines w) !! m = heap w !! m.
Proof.
  intros Hlt Hnot.
  destruct (reconciled_fields keys lines w) as (_ & Hh & _).
  destruct (allDestroyed_fields
              (staleMarkers (rowOf w) (_markers w) lines) w) as (Hl & _ & Hsame & _).
  rewrite Hh, lookup_app_l by lia. apply Hsame. by intros ?%staleMarkers_subseteq.
Qed.

(** X: a pass does not touch the shadow marker: it stays held and its
    object is as it was, so a shadow marker that existed still exists.
    When the hovered row is a breakpoint row, the new committed list has
    a marker at the row of the shadow marker, other than the shadow
    marker: the two decorations overlap until the pointer moves. *)
Theorem update_keeps_shadow_marker {V} (store : BreakpointStore V) (w : World)
    (g : Gutter) (path : string) (s : Marker) :
  _gutter w = Some g →
  getPath (_editor w) = Some path →
  store_coherent store path →
  markers_wf w →
  shadow_apart w →
  _lastShadowBreakpointMarker w = Some s →
  ∃ w', _update store w = Returned tt w'
    ∧ _lastShadowBreakpointMarker w' = Some s
    ∧ heap w' !! s = heap w !! s
    ∧ (liveShadowMarker w s → liveShadowMarker w' s)
    ∧ (rowOf w s ∈ getBreakpointLinesForPath store path →
       ∃ m, m ∈ _markers w' ∧ m ≠ s ∧ rowOf w' m = rowOf w' s).
Proof.
  intros Hg Hpath [Hkeys Hlines] [Hnd Hltm] Hap Hs.
  set (keys := (getBreakpointsForPath store path).*1) in *.
  set (lines := getBreakpointLinesForPath store path) in *.
  exists (reconciled keys lines w). split; [by apply (update_eq store w g)|].
  pose proof (committedRows_reconciled_in keys lines w Hltm Hlines) as Hrows.
  destruct (reconciled_fields keys lines w) as (_ & _ & _ & _ & He & Hlast).
  destruct (Hap s Hs) as [Hnot Hlt].
  pose proof (reconciled_lookup_other keys lines w s Hlt Hnot) as Hsame.
  split; [congruence|]. split; [done|]. split.
  - intros (o & Ho & Hlive & Hdeco). exists o. by rewrite Hsame.
  - intros Hrow.
    assert (rowOf (reconciled keys lines w) s = rowOf w s) as Hrs.
    { unfold rowOf, getStartBufferPosition. by rewrite Hsame, He. }
    apply Hrows in Hrow; [|apply getStartBufferPosition_in_buffer].
    unfold committedRows in Hrow.
    apply list_elem_of_fmap in Hrow as (m & Hm & Hin).
    exists m. split; [done|]. split; [|congruence].
    intros ->. apply (shadow_apart_reconciled keys lines w Hap s); [congruence|done].
Qed.

Lemma world_259_hover3_apart : shadow_apart world_259_hover3.
Proof.
  intros s [= <-]. split; [|vm_compute; lia].
  apply (bool_decide_unpack _). reflexivity.
Qed.

Lemma world_259_hover3_wf : markers_wf world_259_hover3.
Proof.
  split; apply (bool_decide_unpack _); reflexivity.
Qed.

Lemma update_keeps_shadow_marker_witness :
  ∃ w', _update (store_of_lines [2; 3]) world_259_hover3 = Returned tt w'
    ∧ _lastShadowBreakpointMarker w' = Some 3
    ∧ heap w' !! 3 = heap world_259_hover3 !! 3
    ∧ (liveShadowMarker world_259_hover3 3 → liveShadowMarker w' 3)
    ∧ (rowOf world_259_hover3 3 ∈ getBreakpointLinesForPath (store_of_lines [2; 3]) "P" →
       ∃ m, m ∈ _markers w' ∧ m ≠ 3 ∧ rowOf w' m = rowOf w' 3).
Proof.
  apply (update_keeps_shadow_marker (store_of_lines [2; 3]) world_259_hover3
           nuclide_breakpoint_gutter "P" 3).
  - reflexivity.
  - reflexivity.
  - apply store_of_lines_coherent. apply (bool_decide_unpack _). reflexivity.
  - exact world_259_hover3_wf.
  - exact world_259_hover3_apart.
  - reflexivity.
Defined.

(** ** The constructor *)




(** The constructor on the ten-line buffer while the store holds row 100:
    the marker for it sits at the end of the last row. *)
Example constructor_past_the_buffer :
  ∃ w, constructor (store_of_lines [2; 5; 100]) editor_P [] = Returned tt w
    ∧ committedRows w = [2; 5; 9]
    ∧ startBufferPosition <$> heap w !! 2 = Some {| row := 9; column := 12 |}.
Proof. eexists. split; [vm_compute; reflexivity|]. by split. Qed.



(** ** The display follows the store *)

Lemma handleEvent_gutter {V} bp (ev : ControllerEvent V) (w : World) :
  ev ≠ evGutterDestroyed → ev ≠ evTextEditorDestroyed →
  _gutter (world_of (handleEvent bp ev w)) = _gutter w.
Proof.
  intros Hne1 Hne2. destruct ev as [store p|event|event|event|event| |]; simpl; try done.
  - rewrite handleBreakpointsChanged_eq. case_decide; [|done].
    rewrite update_world. simpl.
    destruct (_gutter w) eqn:Hg; [|done].
    destruct (getPath (_editor w)) as [path|]; [|done].
    destruct (reconciled_fields ((getBreakpointsForPath store path).*1)
                (getBreakpointLinesForPath store path) w) as (_ & _ & _ & Hg' & _).
    by rewrite Hg'.
  - destruct (handleGutterClick_world bp event w) as [->|(p & _ & _ & _ & ->)]; done.
  - rewrite mousemove_world. simpl. destruct (isOver _ _); [done|].
    destruct (_gutter w) eqn:Hg; simpl; by rewrite unshadowed_gutter.
  - rewrite handleGutterMouseLeave_eq. simpl. by rewrite unshadowed_gutter.
  - destruct (handleMarkerChange_world event w)
      as [->|[(p & _ & _ & _ & ->)|(p & _ & _ & _ & _ & ->)]]; done.
Qed.

(** Outside the destroy notifications the gutter reference and the path
    stay. *)
Lemma step_gutter_path {V} bp (s : Step V) (w : World) :
  isDestroyNotification s = false →
  _gutter (step bp s w) = _gutter w
  ∧ getPath (_editor (step bp s w)) = getPath (_editor w).
Proof.
  intros Hs. destruct s as [store path|event|event|event| | |e]; try done.
  1-4: cbn [step]; split; [by apply handleEvent_gutter|by rewrite handleEvent_editor].
  destruct (step_edit (V := V) bp e w) as (actions & ->).
  destruct (dispatchedAll_fields actions (edited e w)) as (He & Hg & _).
  by rewrite He, Hg.
Qed.

Lemma run_gutter_path {V} bp (steps : list (Step V)) (w : World) :
  Forall (λ s, isDestroyNotification s = false) steps →
  _gutter (run bp steps w) = _gutter w
  ∧ getPath (_editor (run bp steps w)) = getPath (_editor w).
Proof.
  revert w. induction steps as [|s steps IH]; intros w Hall; [done|].
  apply Forall_cons in Hall as [Hs Hall]. simpl.
  destruct (step_gutter_path bp s w Hs) as [Hg Hp].
  destruct (IH (step bp s w) Hall) as [Hg' Hp']. split; congruence.
Qed.

Lemma committedRows_frame (w w' : World) :
  _editor w' = _editor w →
  _markers w' = _markers w →
  (∀ m, m ∈ _markers w → heap w' !! m = heap w !! m) →
  committedRows w' = committedRows w.
Proof.
  intros He Hm Hh. unfold committedRows. rewrite Hm. apply list_fmap_ext.
  intros i m Hi. unfold rowOf, getStartBufferPosition.
  rewrite He, Hh; [done|]. by eapply list_elem_of_lookup_2.
Qed.

Lemma step_quiet {V} bp (path : string) (s : Step V) (w : World) :
  controller_inv w →
  getPath (_editor w) = Some path →
  quiet path s →
  _editor (step bp s w) = _editor w
  ∧ _markers (step bp s w) = _markers w
  ∧ ∀ m, m ∈ _markers w → heap (step bp s w) !! m = heap w !! m.
Proof.
  intros Hinv Hpath [Hedit Hupd].
  assert (∀ ev : ControllerEvent V,
            step bp s w = world_of (handleEvent bp ev w) →
            (∀ store p, ev = evBreakpointsChanged store p → p ≠ path) →
            _editor (step bp s w) = _editor w
            ∧ _markers (step bp s w) = _markers w
            ∧ ∀ m, m ∈ _markers w → heap (step bp s w) !! m = heap w !! m) as Hev.
  { intros ev -> Hother. split; [apply handleEvent_editor|].
    apply handleEvent_committed_frame; [done|].
    intros store p -> Heq. apply (Hother store p eq_refl). congruence. }
  destruct s as [store p|event|event|event| | |e]; try done;
    try (eapply Hev; [reflexivity|]; by intros ? ? [=]).
  eapply Hev; [reflexivity|]. intros ? ? [= <- <-].
  simpl in Hupd. by apply bool_decide_eq_false in Hupd.
Qed.

Lemma run_quiet {V} bp (path : string) (steps : list (Step V)) (w : World) :
  controller_inv w →
  getPath (_editor w) = Some path →
  Forall (quiet path) steps →
  committedRows (run bp steps w) = committedRows w.
Proof.
  revert w. induction steps as [|s steps IH]; intros w Hinv Hpath Hall; [done|].
  apply Forall_cons in Hall as [Hs Hall]. simpl.
  destruct (step_quiet bp path s w Hinv Hpath Hs) as (He & Hm & Hh).
  rewrite IH; [by apply committedRows_frame|by apply step_inv|congruence|done].
Qed.

(** X: the display follows the store.  From a world with the gutter in
    place and a path, let any steps but destroy notifications happen
    (buffer edits, store notifications, clicks, pointer moves and
    leaves), then a store notification for the editor's path, with a
    coherent store whose rows are rows of the buffer as it is then.  From
    that pass on, and as long as the buffer is not edited and no further
    notification for the path arrives, the rows of the committed markers
    are pairwise distinct and are exactly the rows that store held:
    clicks, pointer moves and leaves, notifications for other paths and
    the destroy notifications do not change them.  (A buffer edit does:
    see [display_drifts_with_edit].) *)
Theorem display_follows_store {V} bp (path : string) (g : Gutter)
    (pre post : list (Step V)) (w : World) (s : BreakpointStore V) :
  controller_inv w →
  _gutter w = Some g →
  getPath (_editor w) = Some path →
  Forall (λ st, isDestroyNotification st = false) pre →
  store_coherent s path →
  (∀ r, r ∈ getBreakpointLinesForPath s path →
        (r ≤ getLastBufferRow (_editor (run bp pre w)))%nat) →
  Forall (quiet path) post →
  let w' := run bp (pre ++ stepNeedUIUpdate s path :: post) w in
  NoDup (committedRows w')
  ∧ ∀ r, r ∈ committedRows w' ↔ r ∈ getBreakpointLinesForPath s path.
Proof.
  intros Hinv Hg Hpath Hpre [Hkeys Hlines] Hbuf Hpost w'.
  assert (∀ (l1 l2 : list (Step V)) w0, run bp (l1 ++ l2) w0 = run bp l2 (run bp l1 w0))
    as Hrun_app.
  { induction l1 as [|s1 l1 IH]; intros l2 w0; simpl; [done|apply IH]. }
  unfold w'. rewrite Hrun_app. cbn [run].
  set (w1 := run bp pre w) in *.
  destruct (run_gutter_path bp pre w Hpre) as [Hg1 Hp1]. fold w1 in Hg1, Hp1.
  pose proof (run_inv bp pre w Hinv) as Hinv1. fold w1 in Hinv1.
  assert (step bp (stepNeedUIUpdate s path) w1
          = reconciled ((getBreakpointsForPath s path).*1)
              (getBreakpointLinesForPath s path) w1) as Hstep.
  { simpl. rewrite handleBreakpointsChanged_eq, decide_True by congruence.
    rewrite (update_eq s w1 g path) by congruence. done. }
  rewrite (run_quiet bp path post); [| by apply step_inv | | done].
  2: { destruct (step_gutter_path bp (stepNeedUIUpdate s path) w1 eq_refl) as [_ Hp2].
       congruence. }
  rewrite Hstep. destruct Hinv1 as ([_ Hltm] & _). split.
  - by apply committedRows_reconciled_NoDup.
  - by apply committedRows_reconciled_lines.
Qed.

Lemma display_follows_store_witness :
  let pre := [stepMouseMove (mouseAt 7); stepBufferChanged delete_row_6] in
  let post := [stepNeedUIUpdate (store_of_lines [1]) "Q";
               stepClick (mouseAt 7); stepMouseLeave (mouseAt 7)] in
  let w' := run positionByClientY
              (pre ++ stepNeedUIUpdate (store_of_lines [2; 8]) "P" :: post) world_259 in
  NoDup (committedRows w')
  ∧ ∀ r, r ∈ committedRows w' ↔ r ∈ getBreakpointLinesForPath (store_of_lines [2; 8]) "P".
Proof.
  apply (display_follows_store positionByClientY "P" nuclide_breakpoint_gutter).
  - exact world_259_inv.
  - reflexivity.
  - reflexivity.
  - apply (bool_decide_unpack _). reflexivity.
  - apply store_of_lines_coherent. apply (bool_decide_unpack _). reflexivity.
  - apply store_of_lines_in_buffer. apply (bool_decide_unpack _). reflexivity.
  - repeat (apply Forall_cons; split; [by split|]). apply Forall_nil_2.
Defined.

(** An edit makes the display drift from the store.  From the
    constructed controller (store rows 2, 5 and 9), deleting row 6 moves
    the marker of row 9 to row 8: the handler asks for the breakpoint to
    be moved, and until the store notifies, the committed rows are 2, 5
    and 8 while the store last shown holds 2, 5 and 9.  When the store
    then notifies with rows 2, 5 and 8, the pass keeps the three markers
    and creates none. *)
Example display_drifts_with_edit :
  let w1 := step (V := unit) positionByClientY (stepBufferChanged delete_row_6) world_259 in
  let w2 := step positionByClientY (stepNeedUIUpdate (store_of_lines [2; 5; 8]) "P") w1 in
  committedRows world_259 = [2; 5; 9]
  ∧ changeEvents delete_row_6 world_259
    = [{| isValid := true; oldHeadBufferPosition := point 9;
          newHeadBufferPosition := point 8 |}]
  ∧ committedRows w1 = [2; 5; 8]
  ∧ traceSince world_259 w1
    = [dispatched (deleteBreakpoint "P" 9); dispatched (addBreakpoint "P" 8)]
  ∧ _markers w2 = _markers world_259
  ∧ traceSince w1 w2 = [gutter_show_call].
Proof. repeat split. Qed.

(** ** Disposal *)

(** X: what [dispose] does, in every world.  It returns; it releases the
    subscriptions, calls [destroy] on each committed marker in order, and
    destroys the gutter when the reference is not void, in this order and
    with no other call; every committed marker is destroyed afterwards.
    It dispatches nothing, and it clears neither the committed list nor
    the gutter reference. *)
Theorem dispose_effects (w : World) :
  ∃ w', dispose w = Returned tt w'
    ∧ traceSince w w'
      = [disposables_dispose_call] ++ (marker_destroy_call <$> _markers w)
        ++ match _gutter w with Some _ => [gutter_destroy_call] | None => [] end
    ∧ (∀ m o, m ∈ _markers w → heap w !! m = Some o →
              heap w' !! m = Some (destroyObj o))
    ∧ gutterDestroyed w'
      = match _gutter w with Some _ => true | None => gutterDestroyed w end
    ∧ _markers w' = _markers w
    ∧ _gutter w' = _gutter w
    ∧ dispatches (trace w') = dispatches (trace w).
Proof.
  exists (disposed w). split; [apply dispose_eq|].
  destruct (allDestroyed_fields (_markers w) (log disposables_dispose_call w))
    as (_ & _ & _ & Hd & Ht & Hg & _ & Hm & _ & Hgd).
  assert (∀ ms w0 m o, m ∈ ms → heap w0 !! m = Some o →
            heap (allDestroyed ms w0) !! m = Some (destroyObj o)) as Hobj.
  { clear. induction ms as [|m0 ms IH]; intros w0 m o Hin Ho; [by apply elem_of_nil in Hin|].
    simpl. fold (allDestroyed ms (destroyed m0 w0)).
    destruct (decide (m ∈ ms)) as [Hin'|Hnot].
    - destruct (decide (m = m0)) as [->|Hne].
      + rewrite (IH _ m0 (destroyObj o)); [done|done|].
        simpl. by rewrite list_lookup_alter_eq, Ho.
      + apply IH; [done|]. simpl. by rewrite list_lookup_alter_ne.
    - apply elem_of_cons in Hin as [->|?]; [|done].
      destruct (allDestroyed_fields ms (destroyed m0 w0)) as (_ & _ & Hsame & _).
      rewrite Hsame by done. simpl. by rewrite list_lookup_alter_eq, Ho. }
  unfold disposed. destruct (_gutter w) eqn:Hgw; simpl.
  - split.
    { apply traceSince_app. simpl. rewrite Ht. simpl. by rewrite <- !app_assoc. }
    split; [intros m o Hin Ho; by apply Hobj|].
    split; [done|]. split; [done|]. split; [by rewrite Hg|].
    rewrite Ht. simpl. rewrite !dispatches_app, dispatches_destroy_calls. simpl.
    by rewrite !app_nil_r.
  - split.
    { apply traceSince_app. rewrite Ht. simpl. by rewrite <- !app_assoc, app_nil_r. }
    split; [intros m o Hin Ho; by apply Hobj|].
    split; [done|]. split; [done|]. split; [by rewrite Hg|].
    rewrite Ht. simpl. rewrite !dispatches_app, dispatches_destroy_calls. simpl.
    by rewrite !app_nil_r.
Qed.

(** ** The empty path *)

(** X: an editor whose path is the empty string.  The click and
    marker-change handlers test [!path], which holds of the empty string:
    they dispatch nothing.  [_update] tests [path == null], which does
    not: the pass runs against the store's entry for the empty path and
    shows the gutter. *)
Theorem empty_path_handlers (w : World) (g : Gutter) :
  getPath (_editor w) = Some "" →
  _gutter w = Some g →
  (∀ bp event, _handleGutterClick bp event w = Returned tt w)
  ∧ (∀ event, _handleMarkerChange event w = Returned tt w)
  ∧ (∀ V (store : BreakpointStore V),
       ∃ w', _update store w = Returned tt w'
         ∧ w' = reconciled ((getBreakpointsForPath store "").*1)
                  (getBreakpointLinesForPath store "") w
         ∧ gutterVisible w' = true
         ∧ last (trace w') = Some gutter_show_call).
Proof.
  intros Hpath Hg. split; [|split].
  - intros bp event. apply handleGutterClick_falsy_path. by rewrite Hpath.
  - intros event. apply handleMarkerChange_falsy_path. by rewrite Hpath.
  - intros V store. eexists. split; [by apply (update_eq store w g)|].
    split; [done|]. split; [done|].
    destruct (reconciled_fields ((getBreakpointsForPath store "").*1)
                (getBreakpointLinesForPath store "") w) as (_ & _ & -> & _).
    by rewrite !app_assoc, last_snoc.
Qed.

Lemma empty_path_handlers_witness :
  let w := {| _editor := {| getPath := Some ""; lineLengths := ten_lines |};
              _gutter := Some nuclide_breakpoint_gutter;
              _markers := []; _lastShadowBreakpointMarker := None; heap := [];
              gutterVisible := false; gutterDestroyed := false; trace := [] |} in
  (∀ bp event, _handleGutterClick bp event w = Returned tt w)
  ∧ (∀ event, _handleMarkerChange event w = Returned tt w)
  ∧ (∀ V (store : BreakpointStore V),
       ∃ w', _update store w = Returned tt w'
         ∧ w' = reconciled ((getBreakpointsForPath store "").*1)
                  (getBreakpointLinesForPath store "") w
         ∧ gutterVisible w' = true
         ∧ last (trace w') = Some gutter_show_call).
Proof.
  apply (empty_path_handlers _ nuclide_breakpoint_gutter); reflexivity.
Defined.


(** ** The gutter's mouse listeners *)

Lemma registerGutterMouseHandlers_not_wired (gutter : Gutter) (s : Wiring) :
  ¬ wired gutter → _registerGutterMouseHandlers gutter s = s.
Proof.
  intros Hw. unfold _registerGutterMouseHandlers.
  rewrite decide_True; [done|]. unfold wired in Hw. naive_solver.
Qed.

Lemma addEventListener_fresh (l : Listener) (ls : list Listener) :
  l ∉ ls → addEventListener l ls = ls ++ [l].
Proof. intros Hl. unfold addEventListener. by rewrite decide_False. Qed.

Lemma registerGutterMouseHandlers_wired (gutter : Gutter) (s : Wiring) :
  wiring_wf s → wired gutter →
  _registerGutterMouseHandlers gutter s
  = {| listeners := listeners s ++ newListeners gutter (binds s);
       _disposables := _disposables s ++ newListeners gutter (binds s);
       binds := S (S (S (binds s))) |}.
Proof.
  intros [Hl Hd] Hw. unfold _registerGutterMouseHandlers.
  rewrite decide_False by (unfold wired in Hw; naive_solver).
  rewrite Forall_forall in Hl.
  assert (∀ l, l ∈ listeners s → bindId l < binds s) as Hlt by done.
  f_equal. unfold newListeners.
  set (click := {| eventType := "click" |}).
  set (move := {| eventType := "mousemove" |}).
  set (leave := {| eventType := "mouseleave" |}).
  assert (click ∉ listeners s) as Hc.
  { intros Hin. apply Hlt in Hin. simpl in Hin. lia. }
  assert (move ∉ listeners s) as Hm.
  { intros Hin. apply Hlt in Hin. simpl in Hin. lia. }
  assert (leave ∉ listeners s) as Hv.
  { intros Hin. apply Hlt in Hin. simpl in Hin. lia. }
  rewrite (addEventListener_fresh click) by done.
  rewrite (addEventListener_fresh move).
  2: { rewrite not_elem_of_app, list_elem_of_singleton. by split. }
  rewrite (addEventListener_fresh leave).
  2: { rewrite !not_elem_of_app, !list_elem_of_singleton. by repeat split. }
  by rewrite <- !app_assoc.
Qed.

Lemma newListeners_bindId (gutter : Gutter) (k : nat) (l : Listener) :
  l ∈ newListeners gutter k → k ≤ bindId l < S (S (S k)).
Proof.
  unfold newListeners. rewrite !elem_of_cons, elem_of_nil.
  intros [->|[->|[->|[]]]]; simpl; lia.
Qed.

Lemma addedListeners_bindId (gutters : list Gutter) (k : nat) (l : Listener) :
  l ∈ addedListeners gutters k → (k ≤ bindId l)%nat.
Proof.
  revert k. induction gutters as [|g gs IH]; intros k; cbn [addedListeners];
    [by intros ?%elem_of_nil|].
  case_decide; [|apply IH].
  rewrite elem_of_app. intros [Hin%newListeners_bindId|Hin%IH]; lia.
Qed.

Lemma observeGutters_eq (gutters : list Gutter) (s : Wiring) :
  wiring_wf s →
  ∃ k, observeGutters gutters s
       = {| listeners := listeners s ++ addedListeners gutters (binds s);
            _disposables := _disposables s ++ addedListeners gutters (binds s);
            binds := k |}
       ∧ k = binds s + 3 * length (filter wired gutters)
       ∧ length (addedListeners gutters (binds s)) = 3 * length (filter wired gutters)
       ∧ wiring_wf (observeGutters gutters s).
Proof.
  revert s. induction gutters as [|g gs IH]; intros s Hwf; cbn [addedListeners].
  - exists (binds s). rewrite !app_nil_r. split; [by destruct s|].
    rewrite filter_nil. simpl. split; [lia|done].
  - change (observeGutters (g :: gs) s)
      with (observeGutters gs (_registerGutterMouseHandlers g s)).
    destruct (decide (wired g)) as [Hw|Hw].
    + rewrite (registerGutterMouseHandlers_wired g s Hwf Hw).
      set (s1 := {| listeners := _; _disposables := _; binds := _ |}).
      assert (wiring_wf s1) as Hwf1.
      { destruct Hwf as [Hl Hd]. split; simpl; apply Forall_app; split;
          try (eapply Forall_impl; [eassumption|]; simpl; lia);
          apply Forall_forall; intros l Hin%newListeners_bindId; lia. }
      destruct (IH s1 Hwf1) as (k & Heq & Hk & Hlen & Hwf').
      rewrite Heq in *. subst s1. cbn [listeners _disposables binds] in *.
      exists k. rewrite <- !app_assoc in *. rewrite filter_cons_True by done.
      split; [done|]. rewrite length_app, Hlen. simpl. split; [lia|].
      split; [lia|done].
    + rewrite (registerGutterMouseHandlers_not_wired g s Hw).
      rewrite filter_cons_False by done. by apply IH.
Qed.

(** X: observing gutters attaches the handlers to the views of the
    gutters named [line-number] or [nuclide-breakpoint], and to no other.
    One registration on such a gutter appends exactly three listeners to
    those already there, [click] bound to [_handleGutterClick],
    [mousemove] to [_handleGutterMouseMove] and [mouseleave] to
    [_handleGutterMouseLeave], each a newly bound function, and adds their
    three teardown closures to [_disposables]; a registration on any
    other gutter changes nothing.  Observing a list of gutters appends
    exactly these triples, one for each such gutter in the order
    observed, and nothing else. *)
Theorem gutter_mouse_handlers_registered (gutters : list Gutter) (s : Wiring) :
  wiring_wf s →
  let added := addedListeners gutters (binds s) in
  (∀ gutter, wired gutter →
     _registerGutterMouseHandlers gutter s
     = {| listeners :=
            listeners s
            ++ [ {| gutterView := gutter; eventType := "click";
                    callback := boundClickHandler; bindId := binds s |};
                 {| gutterView := gutter; eventType := "mousemove";
                    callback := boundMouseMoveHandler; bindId := S (binds s) |};
                 {| gutterView := gutter; eventType := "mouseleave";
                    callback := boundMouseLeaveHandler; bindId := S (S (binds s)) |} ];
          _disposables :=
            _disposables s
            ++ [ {| gutterView := gutter; eventType := "click";
                    callback := boundClickHandler; bindId := binds s |};
                 {| gutterView := gutter; eventType := "mousemove";
                    callback := boundMouseMoveHandler; bindId := S (binds s) |};
                 {| gutterView := gutter; eventType := "mouseleave";
                    callback := boundMouseLeaveHandler; bindId := S (S (binds s)) |} ];
          binds := S (S (S (binds s))) |})
  ∧ (∀ gutter, ¬ wired gutter → _registerGutterMouseHandlers gutter s = s)
  ∧ listeners (observeGutters gutters s) = listeners s ++ added
  ∧ _disposables (observeGutters gutters s) = _disposables s ++ added
  ∧ binds (observeGutters gutters s) = binds s + 3 * length (filter wired gutters)
  ∧ length added = 3 * length (filter wired gutters)
  ∧ (∀ l, l ∈ added →
       gutterView l ∈ gutters ∧ wired (gutterView l)
       ∧ ((eventType l = "click" ∧ callback l = boundClickHandler)
          ∨ (eventType l = "mousemove" ∧ callback l = boundMouseMoveHandler)
          ∨ (eventType l = "mouseleave" ∧ callback l = boundMouseLeaveHandler)))
  ∧ (∀ gutter, gutter ∈ gutters → wired gutter →
       ∃ k, {| gutterView := gutter; eventType := "click";
               callback := boundClickHandler; bindId := k |} ∈ added
            ∧ {| gutterView := gutter; eventType := "mousemove";
                 callback := boundMouseMoveHandler; bindId := S k |} ∈ added
            ∧ {| gutterView := gutter; eventType := "mouseleave";
                 callback := boundMouseLeaveHandler; bindId := S (S k) |} ∈ added).
Proof.
  intros Hwf added.
  split; [intros gutter Hw; by apply registerGutterMouseHandlers_wired|].
  split; [intros gutter Hw; by apply registerGutterMouseHandlers_not_wired|].
  destruct (observeGutters_eq gutters s Hwf) as (k & -> & -> & Hlen & _).
  split; [done|]. split; [done|]. split; [done|]. split; [done|].
  unfold added. generalize (binds s) as n. clear. split.
  - revert n. induction gutters as [|g gs IH]; intros n l; cbn [addedListeners];
      [by intros ?%elem_of_nil|].
    case_decide as Hw.
    + rewrite elem_of_app. intros [Hin|Hin].
      * unfold newListeners in Hin. rewrite !elem_of_cons, elem_of_nil in Hin.
        destruct Hin as [->|[->|[->|[]]]]; simpl;
          (split; [left|]); (split; [done|]); naive_solver.
      * apply IH in Hin as (? & ? & ?). split; [by right|done].
    + intros Hin. apply IH in Hin as (? & ? & ?). split; [by right|done].
  - revert n. induction gutters as [|g gs IH]; intros n gutter Hin Hw;
      [by apply elem_of_nil in Hin|].
    cbn [addedListeners]. apply elem_of_cons in Hin as [->|Hin].
    + rewrite decide_True by done. exists n. unfold newListeners.
      rewrite !elem_of_app, !elem_of_cons. naive_solver.
    + case_decide.
      * destruct (IH (S (S (S n))) gutter Hin Hw) as (k & H1 & H2 & H3).
        exists k. rewrite !elem_of_app. naive_solver.
      * by apply IH.
Qed.

Lemma removeAll_filter (ds ls : list Listener) :
  foldl (λ ls l, removeEventListener l ls) ls ds = filter (λ l, l ∉ ds) ls.
Proof.
  revert ls. induction ds as [|d ds IH]; intros ls; simpl.
  - symmetry. apply filter_all. intros l _. apply not_elem_of_nil.
  - rewrite IH. unfold removeEventListener. rewrite list_filter_filter.
    apply filter_ext_in. intros l _. rewrite not_elem_of_cons. naive_solver.
Qed.

(** X: disposal undoes observation.  After the controller observed any
    gutters, [_disposables.dispose()] removes every listener the
    registrations added, and no other: the listeners left are those left
    by disposing without having observed (all those that were there, when
    no teardown closure was held before). *)
Theorem dispose_removes_registered_listeners (gutters : list Gutter) (s : Wiring) :
  wiring_wf s →
  listeners (disposeListeners (observeGutters gutters s))
  = listeners (disposeListeners s)
  ∧ (_disposables s = [] →
     listeners (disposeListeners (observeGutters gutters s)) = listeners s)
  ∧ _disposables (disposeListeners (observeGutters gutters s)) = [].
Proof.
  intros Hwf. destruct (observeGutters_eq gutters s Hwf) as (k & -> & _).
  destruct Hwf as [Hl Hd]. rewrite Forall_forall in Hl.
  assert (listeners (disposeListeners
            {| listeners := listeners s ++ addedListeners gutters (binds s);
               _disposables := _disposables s ++ addedListeners gutters (binds s);
               binds := k |}) = listeners (disposeListeners s)) as Heq.
  { simpl. rewrite !removeAll_filter, filter_app.
    rewrite (filter_none _ (addedListeners gutters (binds s))).
    - rewrite app_nil_r. apply filter_ext_in. intros l Hin.
      rewrite not_elem_of_app. split; [naive_solver|]. intros Hnot. split; [done|].
      intros Hadd%addedListeners_bindId. apply Hl in Hin. lia.
    - intros l Hin Hnot. apply Hnot. apply elem_of_app. by right. }
  split; [done|]. split; [|done].
  intros Hnone. rewrite Heq. simpl. by rewrite Hnone.
Qed.

Lemma gutter_mouse_handlers_registered_witness :
  let s := {| listeners := []; _disposables := []; binds := 0 |} in
  let gutters := [ {| name := "line-number"; priority := 0 |};
                   {| name := "linter"; priority := -100 |};
                   nuclide_breakpoint_gutter ] in
  let added := addedListeners gutters (binds s) in
  (∀ gutter, wired gutter →
     _registerGutterMouseHandlers gutter s
     = {| listeners :=
            listeners s
            ++ [ {| gutterView := gutter; eventType := "click";
                    callback := boundClickHandler; bindId := binds s |};
                 {| gutterView := gutter; eventType := "mousemove";
                    callback := boundMouseMoveHandler; bindId := S (binds s) |};
                 {| gutterView := gutter; eventType := "mouseleave";
                    callback := boundMouseLeaveHandler; bindId := S (S (binds s)) |} ];
          _disposables :=
            _disposables s
            ++ [ {| gutterView := gutter; eventType := "click";
                    callback := boundClickHandler; bindId := binds s |};
                 {| gutterView := gutter; eventType := "mousemove";
                    callback := boundMouseMoveHandler; bindId := S (binds s) |};
                 {| gutterView := gutter; eventType := "mouseleave";
                    callback := boundMouseLeaveHandler; bindId := S (S (binds s)) |} ];
          binds := S (S (S (binds s))) |})
  ∧ (∀ gutter, ¬ wired gutter → _registerGutterMouseHandlers gutter s = s)
  ∧ listeners (observeGutters gutters s) = listeners s ++ added
  ∧ _disposables (observeGutters gutters s) = _disposables s ++ added
  ∧ binds (observeGutters gutters s) = binds s + 3 * length (filter wired gutters)
  ∧ length added = 3 * length (filter wired gutters)
  ∧ (∀ l, l ∈ added →
       gutterView l ∈ gutters ∧ wired (gutterView l)
       ∧ ((eventType l = "click" ∧ callback l = boundClickHandler)
          ∨ (eventType l = "mousemove" ∧ callback l = boundMouseMoveHandler)
          ∨ (eventType l = "mouseleave" ∧ callback l = boundMouseLeaveHandler)))
  ∧ (∀ gutter, gutter ∈ gutters → wired gutter →
       ∃ k, {| gutterView := gutter; eventType := "click";
               callback := boundClickHandler; bindId := k |} ∈ added
            ∧ {| gutterView := gutter; eventType := "mousemove";
                 callback := boundMouseMoveHandler; bindId := S k |} ∈ added
            ∧ {| gutterView := gutter; eventType := "mouseleave";
                 callback := boundMouseLeaveHandler; bindId := S (S k) |} ∈ added).
Proof.
  apply gutter_mouse_handlers_registered. split; simpl; constructor.
Defined.

(** The listeners after the controller observed the line-number gutter, a
    linter gutter and its own: six, three on each of the two it wires. *)
Example observed_three_gutters :
  listeners
    (observeGutters [ {| name := "line-number"; priority := 0 |};
                      {| name := "linter"; priority := -100 |};
                      nuclide_breakpoint_gutter ]
       {| listeners := []; _disposables := []; binds := 0 |})
  = [ {| gutterView := {| name := "line-number"; priority := 0 |}; eventType := "click";
         callback := boundClickHandler; bindId := 0 |};
      {| gutterView := {| name := "line-number"; priority := 0 |}; eventType := "mousemove";
         callback := boundMouseMoveHandler; bindId := 1 |};
      {| gutterView := {| name := "line-number"; priority := 0 |}; eventType := "mouseleave";
         callback := boundMouseLeaveHandler; bindId := 2 |};
      {| gutterView := nuclide_breakpoint_gutter; eventType := "click";
         callback := boundClickHandler; bindId := 3 |};
      {| gutterView := nuclide_breakpoint_gutter; eventType := "mousemove";
         callback := boundMouseMoveHandler; bindId := 4 |};
      {| gutterView := nuclide_breakpoint_gutter; eventType := "mouseleave";
         callback := boundMouseLeaveHandler; bindId := 5 |} ].
Proof. reflexivity. Qed.

Lemma dispose_removes_registered_listeners_witness :
  let other := {| gutterView := {| name := "line-number"; priority := 0 |};
                  eventType := "click"; callback := boundClickHandler; bindId := 0 |} in
  let s := {| listeners := [other]; _disposables := []; binds := 1 |} in
  let gutters := [ {| name := "line-number"; priority := 0 |};
                   nuclide_breakpoint_gutter ] in
  listeners (disposeListeners (observeGutters gutters s)) = listeners (disposeListeners s)
  ∧ (_disposables s = [] →
     listeners (disposeListeners (observeGutters gutters s)) = listeners s)
  ∧ _disposables (disposeListeners (observeGutters gutters s)) = [].
Proof.
  apply dispose_removes_registered_listeners. split; simpl; repeat constructor.
Defined.
